(** * fix_lint.py: the substitution pipeline and its per-file driver

    The script reads a file, threads its text through eleven [re.sub]
    calls, writes the text back when it changed, and reports per file.

    Python's [re.sub] is embedded as a small backtracking matcher over
    the regular-expression constructs the eleven patterns use
    (literals, [\w], [\s], greedy repetition, one capture group, [\b])
    and a left-to-right scan replacing non-overlapping matches.  A [str]
    is a list of code points.  The classification of code points above
    ASCII ([str.isalnum], [str.isspace]) belongs to the interpreter and
    is a parameter of the development. *)

From Stdlib Require Import String Ascii.
From Stdlib Require Import List NArith Arith Bool Lia Permutation.
Import ListNotations.

(** ** Text *)

Definition char := N.
Definition text := list char.

Definition txt (s : string) : text :=
  List.map N_of_ascii (list_ascii_of_string s).

Definition between (lo hi c : N) : bool := ((lo <=? c) && (c <=? hi))%N.

(** [\w] on ASCII: digits, letters and the underscore. *)
Definition ascii_word (c : char) : bool :=
  between 48 57 c || between 65 90 c || (c =? 95)%N || between 97 122 c.

(** [\s] on ASCII: TAB, LF, VT, FF, CR, FS, GS, RS, US and the space. *)
Definition ascii_space (c : char) : bool :=
  between 9 13 c || between 28 32 c.

(** The classification that knows no code point above ASCII.  It
    instantiates the interpreter's tables where a concrete text is run;
    those texts are ASCII, so no table is consulted. *)
Definition ascii_only : char -> bool := fun _ => false.

(** ** Regular expressions and replacement templates *)

Inductive cclass := CWord | CSpace.

Inductive re :=
| Eps
| Chr (c : char)
| Cls (k : cclass)
| Bnd
| Seq (a b : re)
| Star (a : re)
| Grp (n : nat) (a : re).

Definition Plus (a : re) : re := Seq a (Star a).

Fixpoint lit (l : text) : re :=
  match l with
  | [] => Eps
  | c :: l' => Seq (Chr c) (lit l')
  end.

Definition cat (rs : list re) : re := fold_right Seq Eps rs.

Inductive tpiece := TLit (s : text) | TRef (n : nat).
Definition template := list tpiece.

Definition captures := list (nat * text).

Fixpoint group (n : nat) (caps : captures) : text :=
  match caps with
  | [] => []
  | (m, s) :: caps' => if Nat.eqb n m then s else group n caps'
  end.

Fixpoint expand (t : template) (caps : captures) : text :=
  match t with
  | [] => []
  | TLit s :: t' => s ++ expand t' caps
  | TRef n :: t' => group n caps ++ expand t' caps
  end.

(** State of one match attempt: the character before the current
    position, the text from the current position on, the number of
    characters consumed since the attempt started, and the groups. *)
Record mstate := MState {
  m_prev : option char;
  m_rest : text;
  m_pos : nat;
  m_caps : captures
}.

Definition advance (c : char) (t : text) (st : mstate) : mstate :=
  MState (Some c) t (S (m_pos st)) (m_caps st).

Definition set_group (n : nat) (s : text) (st : mstate) : mstate :=
  MState (m_prev st) (m_rest st) (m_pos st) ((n, s) :: m_caps st).

(** ** Prefixes and runs

    [strip l s] removes the prefix [l] from [s]; [span p s] splits [s]
    behind its longest prefix of characters satisfying [p]. *)

Fixpoint strip (l s : text) : option text :=
  match l with
  | [] => Some s
  | c :: l' =>
      match s with
      | c' :: s' => if (c =? c')%N then strip l' s' else None
      | [] => None
      end
  end.

Fixpoint span (p : char -> bool) (s : text) : text * text :=
  match s with
  | c :: s' =>
      if p c then let (w, r) := span p s' in (c :: w, r) else ([], s)
  | [] => ([], [])
  end.

(** The character before the position behind [a], when [prev] is the
    one before [a]. *)
Definition ctx (prev : option char) (a : text) : option char :=
  match a with
  | [] => prev
  | _ => Some (last a 0%N)
  end.

Fixpoint text_eqb (a b : text) : bool :=
  match a, b with
  | [], [] => true
  | x :: a', y :: b' => (x =? y)%N && text_eqb a' b'
  | _, _ => false
  end.

(** ** Files, exceptions and output *)

Definition path := string.
Bind Scope string_scope with path.

(** The exceptions [open], [read], [write] and [print] raise; every
    class derives from [Exception], so the handler of the loop catches
    each of them.  [exn_str] is [str(e)].  Interrupts from outside the
    program are not part of the model. *)
Inductive exn :=
| OSError (msg : string)
| UnicodeDecodeError (msg : string)
| UnicodeEncodeError (msg : string)
| ValueError (msg : string).

Definition exn_str (e : exn) : string :=
  match e with
  | OSError msg => msg
  | UnicodeDecodeError msg => msg
  | UnicodeEncodeError msg => msg
  | ValueError msg => msg
  end.

(** What opening a readable file for writing does: it works, [open]
    raises and the file is untouched, or [open] truncates the file and
    the write raises. *)
Inductive wmode :=
| WriteOk
| WriteDenied (e : exn)
| WriteBroken (e : exn).

(** A file either yields the text [read()] returns, or raises on
    [open(path, 'r')] / [read()] (missing, unreadable, undecodable). *)
Inductive node :=
| File (content : text) (w : wmode)
| Bad (e : exn).

(** Several paths may name one file (another spelling of the path, a
    link): a path names a file, and the files hold the texts. *)
Definition fileid := string.
Definition disk := fileid -> node.

(** The files as seen through the paths. *)
Definition fs := path -> node.

(** [EPrint s] is a call [print(s)] that returned, [EPrintFailed s] one
    that raised.  The string is the argument of the call: it is sent
    to the output followed by a line feed, and makes several lines
    when it holds line feeds itself. *)
Inductive event :=
| ERead (p : path)
| EWrite (p : path) (content : text)
| EWriteFailed (p : path)
| EPrint (line : string)
| EPrintFailed (line : string).

(** The file each path names, the files, the standard output (the
    exception [print] raises on a string after the operations performed
    so far: a string it cannot encode, a closed pipe) and the
    operations performed so far, newest first. *)
Record world := World {
  w_name : path -> fileid;
  w_disk : disk;
  w_stdout : list event -> string -> option exn;
  w_trace : list event
}.

Definition w_files (w : world) : fs := fun p => w_disk w (w_name w p).

Definition log (ev : event) (w : world) : world :=
  World (w_name w) (w_disk w) (w_stdout w) (ev :: w_trace w).

Definition set_file (p : path) (n : node) (w : world) : world :=
  World (w_name w)
    (fun f => if String.eqb f (w_name w p) then n else w_disk w f)
    (w_stdout w) (w_trace w).

(** [print(line)]: the exception it raises, if any, and the world it
    leaves. *)
Definition print (line : string) (w : world) : option exn * world :=
  match w_stdout w (w_trace w) line with
  | None => (None, log (EPrint line) w)
  | Some e => (Some e, log (EPrintFailed line) w)
  end.

Section Unicode.

(** [str.isalnum] and [str.isspace] on the code points from 128 on. *)
Variable uni_alnum : char -> bool.
Variable uni_space : char -> bool.

Definition is_word (c : char) : bool :=
  if (c <? 128)%N then ascii_word c else uni_alnum c.

Definition is_space (c : char) : bool :=
  if (c <? 128)%N then ascii_space c else uni_space c.

Definition in_class (k : cclass) (c : char) : bool :=
  match k with
  | CWord => is_word c
  | CSpace => is_space c
  end.

Definition word_opt (o : option char) : bool :=
  match o with
  | Some c => is_word c
  | None => false
  end.

(** [\b]: exactly one of the two neighbours is a word character; the
    two ends of the text count as non-word. *)
Definition at_boundary (prev : option char) (rest : text) : bool :=
  xorb (word_opt prev) (word_opt (hd_error rest)).

(** ** The matcher

    Continuation-passing backtracking: [mt r st k] matches [r] at [st]
    and hands every end state, longest repetition first, to [k] until
    [k] accepts one. *)

(** Greedy repetition of a matcher [ma]: one more round when it
    consumes something and the rest of the pattern then succeeds,
    otherwise the rest of the pattern from here. *)
Fixpoint star_loop (ma : mstate -> (mstate -> option mstate) -> option mstate)
  (k : mstate -> option mstate) (fuel : nat) (st : mstate)
  {struct fuel} : option mstate :=
  match fuel with
  | 0 => k st
  | S fuel' =>
      match ma st (fun st' =>
              if m_pos st <? m_pos st' then star_loop ma k fuel' st'
              else None)
      with
      | Some res => Some res
      | None => k st
      end
  end.

Fixpoint mt (r : re) (st : mstate) (k : mstate -> option mstate)
  {struct r} : option mstate :=
  match r with
  | Eps => k st
  | Chr c =>
      match m_rest st with
      | c' :: t => if (c =? c')%N then k (advance c' t st) else None
      | [] => None
      end
  | Cls cl =>
      match m_rest st with
      | c' :: t => if in_class cl c' then k (advance c' t st) else None
      | [] => None
      end
  | Bnd => if at_boundary (m_prev st) (m_rest st) then k st else None
  | Seq a b => mt a st (fun st' => mt b st' k)
  | Grp n a =>
      mt a st (fun st' =>
        k (set_group n (firstn (m_pos st' - m_pos st) (m_rest st)) st'))
  | Star a => star_loop (mt a) k (length (m_rest st)) st
  end.

Definition matcher := option char -> text -> option (nat * captures).

(** One attempt at the current position: length of the match and its
    groups. *)
Definition match_at (r : re) : matcher := fun prev s =>
  match mt r (MState prev s 0 []) Some with
  | Some st => Some (m_pos st, m_caps st)
  | None => None
  end.

(** ** Linear patterns

    Every pattern of the rule set is a sequence of literals, greedy
    runs of one character class (bare or captured, the captured ones
    non-empty) and [\b].  Such a sequence, when each run is followed by
    something that rejects the characters of its class, is matched
    without backtracking: [lin] takes each run as long as it goes. *)

Inductive item :=
| ILit (l : text)
| ISkip (k : cclass)
| IRun (n : nat) (k : cclass)
| IBnd.

Definition item_re (it : item) : re :=
  match it with
  | ILit l => lit l
  | ISkip k => Star (Cls k)
  | IRun n k => Grp n (Plus (Cls k))
  | IBnd => Bnd
  end.

Definition compile (its : list item) : re := cat (List.map item_re its).

Definition eat_lit (l : text) (st : mstate) : option mstate :=
  match strip l (m_rest st) with
  | Some t =>
      Some (MState (ctx (m_prev st) l) t (length l + m_pos st) (m_caps st))
  | None => None
  end.

Definition skip_span (k : cclass) (st : mstate) : mstate :=
  let (w, r) := span (in_class k) (m_rest st) in
  MState (ctx (m_prev st) w) r (length w + m_pos st) (m_caps st).

Definition eat_run (n : nat) (k : cclass) (st : mstate) : option mstate :=
  match fst (span (in_class k) (m_rest st)) with
  | [] => None
  | w => Some (set_group n w (skip_span k st))
  end.

Fixpoint lin (its : list item) (st : mstate) : option mstate :=
  match its with
  | [] => Some st
  | ILit l :: its' =>
      match eat_lit l st with
      | Some st' => lin its' st'
      | None => None
      end
  | ISkip k :: its' => lin its' (skip_span k st)
  | IRun n k :: its' =>
      match eat_run n k st with
      | Some st' => lin its' st'
      | None => None
      end
  | IBnd :: its' =>
      if at_boundary (m_prev st) (m_rest st) then lin its' st else None
  end.

(** The item rejects a first character of class [k]. *)
Definition rejects (k : cclass) (it : item) : bool :=
  match it with
  | ILit (c :: _) => negb (in_class k c)
  | _ => false
  end.

(** Each run is followed by an item that stops it: a literal whose
    first character is outside the class, or, behind a non-empty run of
    word characters, [\b]. *)
Fixpoint guarded (its : list item) : bool :=
  match its with
  | [] => true
  | ISkip k :: its' =>
      match its' with
      | it :: _ => rejects k it
      | [] => false
      end && guarded its'
  | IRun _ k :: its' =>
      match its' with
      | IBnd :: _ => match k with CWord => true | CSpace => false end
      | it :: _ => rejects k it
      | [] => false
      end && guarded its'
  | _ :: its' => guarded its'
  end.

Definition lin_matcher (its : list item) : matcher := fun prev s =>
  match lin its (MState prev s 0 []) with
  | Some st => Some (m_pos st, m_caps st)
  | None => None
  end.

(** The character [c] cannot be consumed by, and shows no boundary to,
    any item. *)
Definition item_blocks (c : char) (it : item) : bool :=
  match it with
  | ILit l => negb (existsb (N.eqb c) l)
  | ISkip k => negb (in_class k c)
  | IRun _ k => negb (in_class k c)
  | IBnd => negb (is_word c)
  end.

Definition blocks (c : char) (its : list item) : bool :=
  forallb (item_blocks c) its.

Definition extend (y : text) (st : mstate) : mstate :=
  MState (m_prev st) (m_rest st ++ y) (m_pos st) (m_caps st).

(** ** [re.sub]

    The scan tries a match at every position from the left; a match is
    replaced by the expanded template and the scan resumes behind it
    ([skip] counts the characters of the match still to pass).  None of
    the patterns of [fix_file] matches the empty string (proved
    below), so an empty match is passed over like a
    failed attempt. *)
Fixpoint scan (m : matcher) (t : template) (prev : option char) (s : text)
  (skip : nat) {struct s} : text :=
  match s with
  | [] => []
  | c :: s' =>
      match skip with
      | S n => scan m t (Some c) s' n
      | 0 =>
          match m prev s with
          | Some (S n, caps) => expand t caps ++ scan m t (Some c) s' n
          | _ => c :: scan m t (Some c) s' 0
          end
      end
  end.

Definition sub (r : re) (t : template) (s : text) : text :=
  scan (match_at r) t None s 0.

(** [re.search(r, s) is not None], from the position after [prev]. *)
Fixpoint search (m : matcher) (prev : option char) (s : text) : bool :=
  match m prev s with
  | Some _ => true
  | None =>
      match s with
      | [] => false
      | c :: s' => search m (Some c) s'
      end
  end.

(** ** The rule set of [fix_file], in source order *)

Definition rule := (re * template)%type.

(* re.sub(r'(\w+)\[name\] \|\|', r'\1[name] ??', content) *)
Definition rule_name : rule :=
  (cat [Grp 1 (Plus (Cls CWord)); lit (txt "[name] ||")],
   [TRef 1; TLit (txt "[name] ??")]).

(* re.sub(r'(\w+)\[value\] \|\|', r'\1[name] ??', content) *)
Definition rule_value : rule :=
  (cat [Grp 1 (Plus (Cls CWord)); lit (txt "[value] ||")],
   [TRef 1; TLit (txt "[name] ??")]).

(* re.sub(r'!ident\b', 'ident == null', content) *)
Definition rule_not (ident : text) : rule :=
  (cat [lit (txt "!" ++ ident); Bnd], [TLit (ident ++ txt " == null")]).

Definition nullable_idents : list text :=
  [txt "text"; txt "result"; txt "response"; txt "jsonData";
   txt "instance"; txt "options"].

(* re.sub(r'if\s*\(\s*\{\s*\}\s*\)', 'if (false)', content) *)
Definition rule_empty_object : rule :=
  (cat [lit (txt "if"); Star (Cls CSpace); lit (txt "(");
        Star (Cls CSpace); lit (txt "{"); Star (Cls CSpace); lit (txt "}");
        Star (Cls CSpace); lit (txt ")")],
   [TLit (txt "if (false)")]).

(* re.sub(r'console\.log\(', 'console.warn(', content) *)
Definition rule_console : rule :=
  (cat [lit (txt "console.log(")], [TLit (txt "console.warn(")]).

(* re.sub(r'\bunused(\w+)\b', r'_\1', content) *)
Definition rule_unused : rule :=
  (cat [Bnd; lit (txt "unused"); Grp 1 (Plus (Cls CWord)); Bnd],
   [TLit (txt "_"); TRef 1]).

Definition rules : list rule :=
  [rule_name; rule_value]
  ++ List.map rule_not nullable_idents
  ++ [rule_empty_object; rule_console; rule_unused].

Definition apply_rule (rl : rule) (s : text) : text :=
  sub (fst rl) (snd rl) s.

(** The body of [fix_file] between the read and the comparison. *)
Definition fix_text (content : text) : text :=
  fold_left (fun acc rl => apply_rule rl acc) rules content.


(** ** [fix_file] and the loop of [__main__]

    [fix_file] returns the exception it raised, if any, and the world
    it leaves.  The [print] of the last line runs after the file has
    been written and closed; an exception it raises leaves
    [fix_file]. *)
Definition fix_file (filepath : path) (w : world) : option exn * world :=
  let w1 := log (ERead filepath) w in
  match w_files w filepath with
  | Bad e => (Some e, w1)
  | File content wm =>
      let original := content in
      let content := fix_text content in
      if text_eqb content original then (None, w1)
      else
        match wm with
        | WriteOk =>
            print ("Fixed: " ++ filepath)%string
              (log (EWrite filepath content)
                 (set_file filepath (File content WriteOk) w1))
        | WriteDenied e => (Some e, log (EWriteFailed filepath) w1)
        | WriteBroken e =>
            (Some e,
             log (EWriteFailed filepath)
               (set_file filepath (File [] (WriteBroken e)) w1))
        end
  end.

(** One round of the loop: [try: fix_file(filepath)] with the handler
    of [except Exception as e].  The handler's [print] stands outside
    every [try]: an exception it raises leaves the loop. *)
Definition main_step (w : world) (filepath : path) : option exn * world :=
  match fix_file filepath w with
  | (None, w') => (None, w')
  | (Some e, w') =>
      print ("Error fixing " ++ filepath ++ ": " ++ exn_str e)%string w'
  end.

(** The loop over [sys.argv[1:]]: the exception that ended the run,
    if any, and the world the run leaves. *)
Fixpoint main (argv : list path) (w : world) : option exn * world :=
  match argv with
  | [] => (None, w)
  | filepath :: rest =>
      match main_step w filepath with
      | (None, w') => main rest w'
      | (Some e, w') => (Some e, w')
      end
  end.

(** The paths opened for reading, oldest first. *)
Definition reads (tr : list event) : list path :=
  rev (flat_map (fun ev => match ev with ERead p => [p] | _ => [] end) tr).

Definition writes (tr : list event) : list (path * text) :=
  rev (flat_map (fun ev =>
         match ev with EWrite p c => [(p, c)] | _ => [] end) tr).

(** The arguments of the calls of [print] that returned. *)
Definition printed (tr : list event) : list string :=
  rev (flat_map (fun ev =>
         match ev with EPrint l => [l] | _ => [] end) tr).

(** The arguments of all calls of [print], returned or not. *)
Definition attempted (tr : list event) : list string :=
  rev (flat_map (fun ev =>
         match ev with
         | EPrint l => [l]
         | EPrintFailed l => [l]
         | _ => []
         end) tr).

(** The paths on which a write was begun and raised. *)
Definition failed_writes (tr : list event) : list path :=
  rev (flat_map (fun ev =>
         match ev with EWriteFailed p => [p] | _ => [] end) tr).

(** The string the handler prints. *)
Definition error_line (p : path) (e : exn) : string :=
  ("Error fixing " ++ p ++ ": " ++ exn_str e)%string.




(** A text contains no instance of any rule's pattern. *)
Definition clean (s : text) : bool :=
  forallb (fun rl => negb (search (match_at (fst rl)) None s)) rules.

(** The patterns of the rule set as linear patterns. *)
Definition its_capture (l : text) : list item := [IRun 1 CWord; ILit l].

Definition its_name : list item := its_capture (txt "[name] ||").

Definition its_value : list item := its_capture (txt "[value] ||").

Definition its_not (ident : text) : list item :=
  [ILit (txt "!" ++ ident); IBnd].

Definition its_empty_object : list item :=
  [ILit (txt "if"); ISkip CSpace; ILit (txt "("); ISkip CSpace;
   ILit (txt "{"); ISkip CSpace; ILit (txt "}"); ISkip CSpace;
   ILit (txt ")")].

Definition its_console : list item := [ILit (txt "console.log(")].

Definition its_unused : list item :=
  [IBnd; ILit (txt "unused"); IRun 1 CWord; IBnd].

(** [c] blocks every item but may be the first character of a leading
    literal. *)
Definition blocks_tail (c : char) (its : list item) : bool :=
  match its with
  | ILit (_ :: l) :: its' => blocks c (ILit l :: its')
  | _ => blocks c its
  end.

(** The pattern consumes a character before it looks at anything
    else, so the character before the attempt is not observed. *)
Definition starts_eating (its : list item) : bool :=
  match its with
  | ILit (_ :: _) :: _ => true
  | IRun _ _ :: _ => true
  | _ => false
  end.

(** [if ws1 ( ws2 { ws3 } ws4 )], the shape the third fix looks for. *)
Definition empty_object_test (w1 w2 w3 w4 : text) : text :=
  txt "if" ++ w1 ++ txt "(" ++ w2 ++ txt "{" ++ w3 ++ txt "}" ++ w4
  ++ txt ")".

(** The least number of characters a linear pattern consumes. *)
Fixpoint min_len (its : list item) : nat :=
  match its with
  | [] => 0
  | ILit l :: its' => length l + min_len its'
  | IRun _ _ :: its' => 1 + min_len its'
  | _ :: its' => min_len its'
  end.

(** The text of the spec's literal cases. *)
Definition sample_inputs : list text :=
  [txt "const v = headers[name] || defaultVal;";
   txt "if (!options) { return; }";
   txt "if ({}) { doThing(); }";
   txt "console.log(" ++ [34%N] ++ txt "hi" ++ [34%N] ++ txt ");";
   txt "unusedCounter"].

(** A directory with two files to fix; every other file is
    missing. *)
Definition sample_fs : disk := fun f =>
  if String.eqb f "a.js" then File (txt "console.log(1);") WriteOk
  else if String.eqb f "b.js" then File (txt "if (!options) {}") WriteOk
  else Bad (OSError ("[Errno 2] No such file or directory: '" ++ f ++ "'")).

(** In the sample directory [./a.js] is another spelling of [a.js]. *)
Definition sample_name : path -> fileid := fun p =>
  if String.eqb p "./a.js" then "a.js"%string else p.

(** An output that takes every string, and one that encodes to ASCII. *)
Definition any_stdout : list event -> string -> option exn :=
  fun _ _ => None.

Fixpoint all_ascii (s : string) : bool :=
  match s with
  | EmptyString => true
  | String c s' => (nat_of_ascii c <? 128) && all_ascii s'
  end.

Definition ascii_stdout : list event -> string -> option exn :=
  fun _ line =>
    if all_ascii line then None
    else Some (UnicodeEncodeError "ordinal not in range(128)").

Definition sample_world : world :=
  World sample_name sample_fs any_stdout [].

(** A path with a letter outside ASCII; no such file in the sample
    directory. *)
Definition accented : path := String (ascii_of_nat 233) ".js".

(** [l] occurs in [s] as a contiguous piece. *)
Fixpoint occurs (l s : text) : bool :=
  match strip l s with
  | Some _ => true
  | None =>
      match s with
      | [] => false
      | _ :: s' => occurs l s'
      end
  end.

(** One literal of each pattern, in the order of the rules. *)
Definition trigger_tokens : list text :=
  [txt "[name] ||"; txt "[value] ||"; txt "!text"; txt "!result";
   txt "!response"; txt "!jsonData"; txt "!instance"; txt "!options";
   txt "if"; txt "console.log("; txt "unused"].

(** The rules other than the six negations. *)
Definition settled_rules : list rule :=
  [rule_name; rule_value; rule_empty_object; rule_console; rule_unused].

(** The paths a run opens: all of them, or those up to the one on
    which the handler's [print] raised. *)
Fixpoint opened (argv : list path) (w : world) : list path :=
  match argv with
  | [] => []
  | p :: rest =>
      match main_step w p with
      | (None, w') => p :: opened rest w'
      | (Some _, _) => [p]
      end
  end.

(** [!!ident\b]: the negation idiom of [ident] behind another [!]. *)
Definition double_not (ident : text) : re :=
  cat [lit (txt "!!" ++ ident); Bnd].

(** A literal in a context: it stands at the position, [bef] holds of
    the character before it and [aft] of the character behind it. *)
Definition ctx_lit (l : text) (bef aft : option char -> bool) : matcher :=
  fun prev s =>
    match strip l s with
    | Some r =>
        if bef prev && aft (hd_error r) then Some (length l, []) else None
    | None => None
    end.

(** The non-empty ends of a text, longest first. *)
Fixpoint tails (l : text) : list text :=
  match l with
  | [] => []
  | _ :: l' => l :: tails l'
  end.

(** A literal whose last part [m] stands where [e] begins may there be
    followed by a character of which [aft] holds: [m] ends inside [e]
    in front of such a character, or reaches the end of [e] or beyond
    it. *)
Definition may_end (aft : option char -> bool) (m e : text) : bool :=
  match strip m e with
  | Some (c :: _) => aft (Some c)
  | Some [] => true
  | None =>
      match strip e m with
      | Some _ => true
      | None => false
      end
  end.

(** No occurrence of [l] in context begins inside [e], behind the
    character [prev] of [e] and the proper end [e2] of [e]. *)
Fixpoint splits_ok (l : text) (bef aft : option char -> bool) (prev : char)
  (e2 : text) : bool :=
  match e2 with
  | [] => true
  | c :: e3 =>
      negb (bef (Some prev) && may_end aft l e2)
      && splits_ok l bef aft c e3
  end.

(** [e] put into a text neither completes nor begins an occurrence of
    [l] in context. *)
Definition apart (l e : text) (bef aft : option char -> bool) : bool :=
  forallb (fun m => negb (may_end aft m e)) (tails l)
  && match e with
     | [] => true
     | c :: e2 => splits_ok l bef aft c e2
     end.

(** Contexts: any character or none, and no word character. *)
Definition any_ctx : option char -> bool := fun _ => true.
Definition nonword_ctx : option char -> bool := fun o => negb (word_opt o).

(** * Properties *)

(** ** Lists, prefixes and runs *)

Lemma ctx_cons (prev : option char) (c : char) (l : text) :
  ctx prev (c :: l) = ctx (Some c) l.
Proof. destruct l; reflexivity. Qed.

Lemma ctx_app (prev : option char) (a b : text) :
  ctx prev (a ++ b) = ctx (ctx prev a) b.
Proof.
  revert prev; induction a as [|c a IH]; intros prev; [reflexivity|].
  change ((c :: a) ++ b) with (c :: (a ++ b)).
  now rewrite !ctx_cons, IH.
Qed.

Lemma strip_app (l s : text) : strip l (l ++ s) = Some s.
Proof.
  induction l as [|c l IH]; simpl; [reflexivity|].
  now rewrite N.eqb_refl.
Qed.

Lemma strip_Some (l s r : text) : strip l s = Some r -> s = l ++ r.
Proof.
  revert s; induction l as [|c l IH]; intros s H; simpl in *.
  - now inversion H.
  - destruct s as [|c' s]; [discriminate|].
    destruct (N.eqb_spec c c'); [|discriminate].
    subst; f_equal; auto.
Qed.

Lemma span_app (p : char -> bool) (s : text) :
  s = fst (span p s) ++ snd (span p s).
Proof.
  induction s as [|c s IH]; simpl; [reflexivity|].
  destruct (p c); [|reflexivity].
  destruct (span p s) as [w r]; simpl in *. now f_equal.
Qed.

Lemma span_all (p : char -> bool) (s : text) :
  forallb p (fst (span p s)) = true.
Proof.
  induction s as [|c s IH]; simpl; [reflexivity|].
  destruct (p c) eqn:E; [|reflexivity].
  destruct (span p s) as [w r]; simpl in *. now rewrite E.
Qed.

Lemma span_stop (p : char -> bool) (s : text) :
  match snd (span p s) with
  | c :: _ => p c = false
  | [] => True
  end.
Proof.
  induction s as [|c s IH]; simpl; [exact I|].
  destruct (p c) eqn:E; [|exact E].
  destruct (span p s) as [w r]; simpl in *. exact IH.
Qed.

(** A run followed by a character outside the class is taken whole. *)
Lemma span_run (p : char -> bool) (w r : text) :
  forallb p w = true ->
  match r with c :: _ => p c = false | [] => True end ->
  span p (w ++ r) = (w, r).
Proof.
  intros Hw Hr; induction w as [|c w IH]; simpl in *.
  - destruct r as [|c r]; simpl; [reflexivity|now rewrite Hr].
  - apply andb_true_iff in Hw as [Hc Hw]. rewrite Hc, (IH Hw). reflexivity.
Qed.

(** ** The matcher on linear patterns *)

Lemma mt_lit (l : text) :
  forall st k,
    mt (lit l) st k =
    match eat_lit l st with Some st' => k st' | None => None end.
Proof.
  induction l as [|c l IH]; intros [p r n caps] k; unfold eat_lit; simpl.
  - reflexivity.
  - destruct r as [|c' t]; [reflexivity|].
    destruct (N.eqb_spec c c') as [->|]; [|reflexivity].
    rewrite IH. unfold eat_lit, advance; simpl.
    destruct (strip l t); [|reflexivity].
    rewrite <- ctx_cons with (prev := p), Nat.add_succ_r. reflexivity.
Qed.

Lemma skip_span_advance (k : cclass) (p : option char) (c : char)
  (t : text) (n : nat) (caps : captures) :
  in_class k c = true ->
  skip_span k (advance c t (MState p (c :: t) n caps))
  = skip_span k (MState p (c :: t) n caps).
Proof.
  intros Hc. unfold skip_span, advance; simpl. rewrite Hc.
  destruct (span (in_class k) t) as [w r].
  rewrite <- ctx_cons with (prev := p). simpl length.
  now rewrite Nat.add_succ_r.
Qed.

Lemma skip_span_stuck (k : cclass) (st : mstate) :
  match m_rest st with
  | c :: _ => in_class k c = false
  | [] => True
  end ->
  skip_span k st = st.
Proof.
  destruct st as [p [|c t] n caps]; unfold skip_span; simpl.
  - reflexivity.
  - intros ->. reflexivity.
Qed.

Lemma mt_cls (cl : cclass) (st : mstate) (k : mstate -> option mstate) :
  mt (Cls cl) st k =
  match m_rest st with
  | c :: t => if in_class cl c then k (advance c t st) else None
  | [] => None
  end.
Proof. reflexivity. Qed.

(** Greedy repetition of a class before a continuation that fails on
    the characters of the class takes the whole run. *)
Lemma star_cls (cl : cclass) (P : option char -> Prop)
  (k : mstate -> option mstate) :
  (forall c, in_class cl c = true -> P (Some c)) ->
  (forall st' c t, P (m_prev st') -> m_rest st' = c :: t ->
     in_class cl c = true -> k st' = None) ->
  forall fuel st,
    length (m_rest st) <= fuel -> P (m_prev st) ->
    star_loop (mt (Cls cl)) k fuel st = k (skip_span cl st).
Proof.
  intros HP Hk. induction fuel as [|fuel IH]; intros [p r n caps] Hlen Hp;
    cbn [star_loop]; simpl in Hlen, Hp.
  - destruct r; [reflexivity|simpl in Hlen; lia].
  - rewrite mt_cls; cbn [m_rest m_pos].
    destruct r as [|c t]; [reflexivity|].
    destruct (in_class cl c) eqn:Hc.
    + replace (n <? m_pos (advance c t (MState p (c :: t) n caps)))
        with true by (symmetry; apply Nat.ltb_lt; simpl; lia).
      rewrite IH; [|simpl in *; lia|apply HP, Hc].
      rewrite skip_span_advance by exact Hc.
      destruct (k (skip_span cl _)) eqn:E; [reflexivity|].
      apply (Hk _ c t); auto.
    + rewrite skip_span_stuck; [reflexivity|exact Hc].
Qed.

Lemma skip_span_group (cl : cclass) (st : mstate) :
  firstn (m_pos (skip_span cl st) - m_pos st) (m_rest st)
  = fst (span (in_class cl) (m_rest st)).
Proof.
  unfold skip_span.
  pose proof (span_app (in_class cl) (m_rest st)) as E.
  destruct (span (in_class cl) (m_rest st)) as [w r]; simpl in *.
  replace (length w + m_pos st - m_pos st) with (length w + 0) by lia.
  rewrite E at 1. now rewrite firstn_app_2, firstn_O, app_nil_r.
Qed.

Lemma lin_rejects (cl : cclass) (it : item) (its : list item) (st : mstate)
  (c : char) (t : text) :
  rejects cl it = true -> m_rest st = c :: t -> in_class cl c = true ->
  lin (it :: its) st = None.
Proof.
  destruct it as [[|c0 l]| | |]; simpl; try discriminate.
  intros Hr Hrest Hc. unfold eat_lit. rewrite Hrest. simpl.
  destruct (N.eqb_spec c0 c) as [->|]; [|reflexivity].
  rewrite Hc in Hr. discriminate.
Qed.

(** On a guarded linear pattern the backtracking matcher and [lin]
    agree. *)
Lemma mt_compile (its : list item) :
  guarded its = true ->
  forall st k,
    mt (compile its) st k =
    match lin its st with Some st' => k st' | None => None end.
Proof.
  induction its as [|it its IH]; intros G st k; [reflexivity|].
  destruct it as [l|cl|n cl|].
  - change (compile (ILit l :: its)) with (Seq (lit l) (compile its)).
    cbn [mt lin]. rewrite mt_lit.
    destruct (eat_lit l st); [apply IH; exact G|reflexivity].
  - simpl in G. apply andb_true_iff in G as [G1 G2].
    change (mt (compile (ISkip cl :: its)) st k)
      with (star_loop (mt (Cls cl)) (fun st' => mt (compile its) st' k)
              (length (m_rest st)) st).
    rewrite star_cls with (P := fun _ => True);
      [cbn [lin]; apply IH; exact G2|intros; exact I| |apply Nat.le_refl
      |exact I].
    intros st' c t _ Hrest Hc. rewrite IH by exact G2.
    destruct its as [|it' its']; [discriminate|].
    now rewrite (@lin_rejects cl _ its' st' c t G1 Hrest Hc).
  - simpl in G. apply andb_true_iff in G as [G1 G2].
    change (mt (compile (IRun n cl :: its)) st k)
      with (mt (Cls cl) st (fun st1 =>
              star_loop (mt (Cls cl))
                (fun st' => mt (compile its)
                   (set_group n (firstn (m_pos st' - m_pos st) (m_rest st))
                      st') k)
                (length (m_rest st1)) st1)).
    rewrite mt_cls. cbn [lin]. unfold eat_run.
    destruct st as [p [|c t] n0 caps]; [reflexivity|].
    cbn [m_rest m_pos]. simpl span.
    destruct (in_class cl c) eqn:Hc; [|reflexivity].
    rewrite star_cls
      with (P := fun q => match its with
                          | IBnd :: _ => word_opt q = true
                          | _ => True
                          end).
    + rewrite skip_span_advance by exact Hc.
      pose proof (skip_span_group cl (MState p (c :: t) n0 caps)) as E.
      cbn [m_rest m_pos] in E. rewrite E. simpl span. rewrite Hc.
      destruct (span (in_class cl) t) as [w r]. cbn [fst].
      apply IH; exact G2.
    + intros c' Hc'. destruct its as [|[| | |] its']; try exact I.
      destruct cl; [exact Hc'|discriminate].
    + intros st' c' t' HP Hrest Hc'. rewrite IH by exact G2.
      destruct its as [|it' its']; [discriminate|].
      destruct it' as [l'|k'|n' k'|];
        [erewrite lin_rejects;
           [reflexivity|exact G1|exact Hrest|exact Hc']
        |discriminate G1|discriminate G1|].
      destruct cl; [|discriminate].
      cbn [lin set_group m_prev m_rest]. rewrite Hrest.
      unfold at_boundary. rewrite HP. simpl in *. now rewrite Hc'.
    + apply Nat.le_refl.
    + destruct its as [|[| | |] its']; try exact I.
      destruct cl; [exact Hc|discriminate].
  - change (compile (IBnd :: its)) with (Seq Bnd (compile its)).
    cbn [mt lin]. destruct (at_boundary _ _); [apply IH; exact G|reflexivity].
Qed.

Lemma match_at_compile (its : list item) (prev : option char) (s : text) :
  guarded its = true ->
  match_at (compile its) prev s = lin_matcher its prev s.
Proof.
  intros G. unfold match_at, lin_matcher. rewrite mt_compile by exact G.
  now destruct (lin its _).
Qed.

(** ** The scan of [re.sub] *)

Lemma scan_ext (m m' : matcher) (t : template) :
  (forall p s, m p s = m' p s) ->
  forall s prev skip, scan m t prev s skip = scan m' t prev s skip.
Proof.
  intros E. induction s as [|c s IH]; intros prev skip; simpl; [reflexivity|].
  destruct skip as [|n]; [|apply IH].
  rewrite E. destruct (m' prev (c :: s)) as [[[|n] caps]|];
    now rewrite IH.
Qed.

(** The characters of a match are passed over. *)
Lemma scan_skip (m : matcher) (t : template) (x y : text) :
  forall prev,
    scan m t prev (x ++ y) (length x) = scan m t (ctx prev x) y 0.
Proof.
  induction x as [|c x IH]; intros prev; [reflexivity|].
  simpl app. simpl length. cbn [scan]. now rewrite IH, ctx_cons.
Qed.

Lemma scan_hit (m : matcher) (t : template) (prev : option char)
  (x y : text) (caps : captures) :
  x <> [] ->
  m prev (x ++ y) = Some (length x, caps) ->
  scan m t prev (x ++ y) 0 = expand t caps ++ scan m t (ctx prev x) y 0.
Proof.
  destruct x as [|c x]; [congruence|]. intros _ H.
  rewrite ctx_cons, <- scan_skip.
  simpl app in *. simpl length in H. cbn [scan]. now rewrite H.
Qed.

(** A stretch where no attempt succeeds is copied. *)
Lemma scan_miss (m : matcher) (t : template) (v : text) :
  forall u prev,
    (forall u1 u2, u = u1 ++ u2 -> u2 <> [] ->
       m (ctx prev u1) (u2 ++ v) = None) ->
    scan m t prev (u ++ v) 0 = u ++ scan m t (ctx prev u) v 0.
Proof.
  induction u as [|c u IH]; intros prev H; [reflexivity|].
  assert (E : m prev (c :: u ++ v) = None)
    by (apply (H [] (c :: u)); [reflexivity|discriminate]).
  rewrite ctx_cons. simpl app. cbn [scan]. rewrite E. f_equal. apply IH.
  intros u1 u2 -> Hu2. rewrite <- ctx_cons with (prev := prev).
  apply (H (c :: u1) u2); [reflexivity|exact Hu2].
Qed.

(** Cutting the text where no attempt reaches across: the attempts
    started in [a] see the same matches with and without [b] behind
    them, and those matches end inside [a]. *)
Lemma scan_cut (m : matcher) (t : template) (b : text) :
  forall a prev skip,
    skip <= length a ->
    (forall a1 a2, a = a1 ++ a2 -> a2 <> [] ->
       m (ctx prev a1) (a2 ++ b) = m (ctx prev a1) a2 /\
       (forall n caps, m (ctx prev a1) a2 = Some (n, caps) ->
          n <= length a2)) ->
    scan m t prev (a ++ b) skip
    = scan m t prev a skip ++ scan m t (ctx prev a) b 0.
Proof.
  induction a as [|c a IH]; intros prev skip Hskip H.
  - simpl in Hskip. replace skip with 0 by lia. reflexivity.
  - assert (H' : forall a1 a2, a = a1 ++ a2 -> a2 <> [] ->
       m (ctx (Some c) a1) (a2 ++ b) = m (ctx (Some c) a1) a2 /\
       (forall n caps, m (ctx (Some c) a1) a2 = Some (n, caps) ->
          n <= length a2)).
    { intros a1 a2 -> Ha2. rewrite <- ctx_cons with (prev := prev).
      apply (H (c :: a1) a2); [reflexivity|exact Ha2]. }
    rewrite ctx_cons. simpl app. cbn [scan].
    destruct skip as [|n].
    + destruct (H [] (c :: a) eq_refl) as [E Hfit]; [discriminate|].
      simpl in E, Hfit. rewrite E.
      destruct (m prev (c :: a)) as [[[|n] caps]|] eqn:Em.
      * rewrite IH by (lia || exact H'). reflexivity.
      * specialize (Hfit _ _ eq_refl). simpl in Hfit.
        rewrite IH by (lia || exact H'). now rewrite app_assoc.
      * rewrite IH by (lia || exact H'). reflexivity.
    + simpl in Hskip. apply IH; [lia|exact H'].
Qed.

(** A matcher that ignores the character before the attempt. *)
Lemma scan_prev_free (m : matcher) (t : template) :
  (forall p p' s, m p s = m p' s) ->
  forall s p p' skip, scan m t p s skip = scan m t p' s skip.
Proof.
  intros F. destruct s as [|c s]; intros p p' skip; [reflexivity|].
  cbn [scan]. destruct skip; [|reflexivity].
  now rewrite (F p p').
Qed.

(** A text without a match is returned as it is. *)
Lemma scan_no_match (m : matcher) (t : template) :
  forall s prev, search m prev s = false -> scan m t prev s 0 = s.
Proof.
  induction s as [|c s IH]; intros prev H; [reflexivity|].
  simpl in H. cbn [scan].
  destruct (m prev (c :: s)); [discriminate|].
  f_equal. apply IH, H.
Qed.

(** ** Attempts that cannot reach across a character *)

Lemma strip_block (c0 : char) (x : text) :
  forall l a,
    existsb (N.eqb c0) l = false ->
    strip l (a ++ c0 :: x)
    = option_map (fun r => r ++ c0 :: x) (strip l a).
Proof.
  induction l as [|h l IH]; intros a Hl; [reflexivity|].
  simpl in Hl. apply orb_false_iff in Hl as [Hh Hl].
  destruct a as [|a0 a]; simpl.
  - rewrite N.eqb_sym, Hh. reflexivity.
  - destruct (h =? a0)%N; [apply IH, Hl|reflexivity].
Qed.

Lemma span_block (p : char -> bool) (c0 : char) (x : text) :
  p c0 = false ->
  forall a,
    span p (a ++ c0 :: x)
    = (fst (span p a), snd (span p a) ++ c0 :: x).
Proof.
  intros Hc. induction a as [|a0 a IH]; simpl.
  - now rewrite Hc.
  - destruct (p a0); [|reflexivity].
    rewrite IH. now destruct (span p a).
Qed.

Lemma boundary_block (c0 : char) (x : text) (prev : option char) (a : text) :
  is_word c0 = false ->
  at_boundary prev (a ++ c0 :: x) = at_boundary prev a.
Proof.
  intros Hc. unfold at_boundary. destruct a; simpl; [|reflexivity].
  now rewrite Hc.
Qed.

Lemma lin_extend (c0 : char) (x : text) (its : list item) :
  blocks c0 its = true ->
  forall st,
    lin its (extend (c0 :: x) st)
    = option_map (extend (c0 :: x)) (lin its st).
Proof.
  induction its as [|it its IH]; intros B st; [reflexivity|].
  simpl in B. apply andb_true_iff in B as [B1 B2].
  destruct it as [l|cl|n cl|]; simpl in B1; apply negb_true_iff in B1;
    cbn [lin].
  - unfold eat_lit, extend at 1. cbn [m_rest m_prev m_pos m_caps].
    rewrite strip_block by exact B1.
    destruct (strip l (m_rest st)); [|reflexivity].
    cbn [option_map]. now rewrite <- IH.
  - rewrite <- IH by exact B2. f_equal.
    unfold skip_span, extend. cbn [m_rest m_prev m_pos m_caps].
    rewrite span_block by exact B1.
    now destruct (span (in_class cl) (m_rest st)).
  - unfold eat_run, skip_span, extend at 1 2.
    cbn [m_rest m_prev m_pos m_caps].
    rewrite span_block by exact B1.
    destruct (span (in_class cl) (m_rest st)) as [[|c w] r]; [reflexivity|].
    cbn [fst]. now rewrite <- IH.
  - unfold extend at 1 2. cbn [m_rest m_prev m_pos m_caps].
    rewrite boundary_block by exact B1.
    destruct (at_boundary _ _); [|reflexivity].
    now rewrite <- IH.
Qed.

(** An attempt consumes what it reports and keeps the groups it had. *)
Lemma lin_pos (its : list item) :
  forall st st',
    lin its st = Some st' ->
    m_pos st' + length (m_rest st') = m_pos st + length (m_rest st).
Proof.
  induction its as [|it its IH]; intros st st' H; simpl in H.
  - now inversion H.
  - assert (Hspan : forall cl,
        m_pos (skip_span cl st) + length (m_rest (skip_span cl st))
        = m_pos st + length (m_rest st)).
    { intros cl. unfold skip_span.
      pose proof (span_app (in_class cl) (m_rest st)) as E.
      destruct (span (in_class cl) (m_rest st)) as [w r]; simpl in *.
      apply (f_equal (@List.length char)) in E.
      rewrite length_app in E. lia. }
    destruct it as [l|cl|n cl|].
    + unfold eat_lit in H. destruct (strip l (m_rest st)) as [r|] eqn:E;
        [|discriminate].
      apply IH in H. simpl in H. apply strip_Some in E.
      rewrite E, length_app. lia.
    + apply IH in H. now rewrite H.
    + unfold eat_run in H.
      destruct (fst (span (in_class cl) (m_rest st))); [discriminate|].
      apply IH in H. simpl in H. now rewrite H.
    + destruct (at_boundary _ _); [|discriminate]. now apply IH.
Qed.

Lemma lin_matcher_fits (its : list item) (prev : option char) (s : text)
  (n : nat) (caps : captures) :
  lin_matcher its prev s = Some (n, caps) -> n <= length s.
Proof.
  unfold lin_matcher. destruct (lin its _) as [st|] eqn:E; [|discriminate].
  intros H; inversion H; subst. apply lin_pos in E. simpl in E. lia.
Qed.

(** Behind a character that blocks every item, the text does not
    matter. *)
Lemma lin_matcher_barrier (its : list item) (prev : option char)
  (u : text) (y : char) (b b' : text) :
  blocks y its = true ->
  lin_matcher its prev (u ++ y :: b) = lin_matcher its prev (u ++ y :: b').
Proof.
  intros B. unfold lin_matcher.
  change (MState prev (u ++ y :: b) 0 [])
    with (extend (y :: b) (MState prev u 0 [])).
  change (MState prev (u ++ y :: b') 0 [])
    with (extend (y :: b') (MState prev u 0 [])).
  rewrite !lin_extend by exact B.
  now destruct (lin its _).
Qed.

Lemma lin_lit_cons (h : char) (l : text) (its : list item)
  (p : option char) (a0 : char) (a : text) (n : nat) (caps : captures) :
  lin (ILit (h :: l) :: its) (MState p (a0 :: a) n caps)
  = if (h =? a0)%N
    then lin (ILit l :: its) (MState (Some a0) a (S n) caps)
    else None.
Proof.
  cbn [lin]. unfold eat_lit. cbn [m_rest m_prev m_pos m_caps strip].
  destruct (N.eqb_spec h a0) as [->|]; [|reflexivity].
  destruct (strip l a); [|reflexivity].
  rewrite ctx_cons. simpl length. now rewrite Nat.add_succ_r.
Qed.

Lemma lin_matcher_extend (its : list item) (c0 : char) (x : text)
  (prev : option char) (a : text) :
  a <> [] -> blocks_tail c0 its = true ->
  lin_matcher its prev (a ++ c0 :: x) = lin_matcher its prev a.
Proof.
  intros Ha B. unfold lin_matcher.
  destruct its as [|[[|h l]|cl|n cl|] its]; simpl in B;
    try (change (MState prev (a ++ c0 :: x) 0 [])
           with (extend (c0 :: x) (MState prev a 0 []));
         rewrite lin_extend by exact B; now destruct (lin _ _)).
  destruct a as [|a0 a]; [congruence|].
  simpl app. rewrite !lin_lit_cons.
  destruct (h =? a0)%N; [|reflexivity].
  change (MState (Some a0) (a ++ c0 :: x) 1 [])
    with (extend (c0 :: x) (MState (Some a0) a 1 [])).
  rewrite lin_extend by exact B. now destruct (lin _ _).
Qed.

Lemma lin_matcher_head_mismatch (h : char) (l : text) (its : list item)
  (p : option char) (a0 : char) (a : text) :
  (h =? a0)%N = false ->
  lin_matcher (ILit (h :: l) :: its) p (a0 :: a) = None.
Proof.
  intros H. unfold lin_matcher. now rewrite lin_lit_cons, H.
Qed.

Lemma lin_matcher_prev_free (its : list item) :
  starts_eating its = true ->
  forall p p' s, lin_matcher its p s = lin_matcher its p' s.
Proof.
  intros E p p' s. unfold lin_matcher.
  destruct its as [|[[|h l]|cl|n cl|] its]; try discriminate.
  - destruct s as [|a0 a]; [reflexivity|]. now rewrite !lin_lit_cons.
  - cbn [lin]. unfold eat_run, skip_span. cbn [m_rest m_prev m_pos m_caps].
    destruct (span (in_class cl) s) as [[|c w] r]; [reflexivity|].
    cbn [fst]. now rewrite !ctx_cons.
Qed.

Lemma apply_rule_lin (rl : rule) (its : list item) (s : text) :
  fst rl = compile its -> guarded its = true ->
  apply_rule rl s = scan (lin_matcher its) (snd rl) None s 0.
Proof.
  intros E G. unfold apply_rule, sub. rewrite E.
  apply scan_ext. intros p s'. now apply match_at_compile.
Qed.

(** An occurrence whose first character blocks the pattern everywhere
    behind the pattern's first character is reached by the scan, is
    rewritten, and the text on its two sides is rewritten on its
    own. *)
Lemma scan_occurrence (its : list item) (t : template) (c0 : char)
  (occ' pre post : text) (caps : captures) :
  blocks_tail c0 its = true ->
  starts_eating its = true ->
  lin_matcher its None (c0 :: occ' ++ post)
  = Some (length (c0 :: occ'), caps) ->
  scan (lin_matcher its) t None (pre ++ (c0 :: occ') ++ post) 0
  = scan (lin_matcher its) t None pre 0
    ++ expand t caps ++ scan (lin_matcher its) t None post 0.
Proof.
  intros B E H.
  rewrite scan_cut.
  - f_equal. rewrite scan_hit with (caps := caps).
    + f_equal. apply scan_prev_free, lin_matcher_prev_free, E.
    + discriminate.
    + rewrite <- H. apply lin_matcher_prev_free, E.
  - lia.
  - intros a1 a2 _ Ha2. split.
    + apply lin_matcher_extend; assumption.
    + intros n caps'. apply lin_matcher_fits.
Qed.

Lemma scan_no_occurrence (its : list item) (t : template) (c0 : char)
  (occ' pre post : text) :
  blocks_tail c0 its = true ->
  starts_eating its = true ->
  (forall u1 u2, c0 :: occ' = u1 ++ u2 -> u2 <> [] ->
     lin_matcher its None (u2 ++ post) = None) ->
  scan (lin_matcher its) t None (pre ++ (c0 :: occ') ++ post) 0
  = scan (lin_matcher its) t None pre 0
    ++ (c0 :: occ') ++ scan (lin_matcher its) t None post 0.
Proof.
  intros B E H.
  rewrite scan_cut.
  - f_equal. rewrite scan_miss.
    + f_equal. apply scan_prev_free, lin_matcher_prev_free, E.
    + intros u1 u2 Hu Hu2. rewrite <- (H u1 u2 Hu Hu2).
      apply lin_matcher_prev_free, E.
  - lia.
  - intros a1 a2 _ Ha2. split.
    + apply lin_matcher_extend; assumption.
    + intros n caps'. apply lin_matcher_fits.
Qed.

(** ** The rules, one by one *)

Lemma console_match (post : text) :
  lin_matcher its_console None (txt "console.log(" ++ post)
  = Some (length (txt "console.log("), []).
Proof.
  unfold lin_matcher, its_console. cbn [lin]. unfold eat_lit.
  cbn [m_rest]. now rewrite strip_app.
Qed.

(** C7: every occurrence of [console.log(] in the text the rule
    receives is rewritten to [console.warn(], the text before and
    behind it being rewritten on its own; and [fix_file] turns
    [console.log("hi");] into [console.warn("hi");]. *)
Theorem console_log_rewritten :
  (forall pre post : text,
     apply_rule rule_console (pre ++ txt "console.log(" ++ post)
     = apply_rule rule_console pre ++ txt "console.warn("
       ++ apply_rule rule_console post)
  /\ fix_text (txt "console.log(" ++ [34%N] ++ txt "hi" ++ [34%N] ++ txt ");")
     = txt "console.warn(" ++ [34%N] ++ txt "hi" ++ [34%N] ++ txt ");".
Proof.
  split; [|vm_compute; reflexivity].
  intros pre post.
  rewrite !(@apply_rule_lin rule_console its_console) by reflexivity.
  change (txt "console.log(") with (99%N :: txt "onsole.log(").
  rewrite scan_occurrence with (caps := []);
    [reflexivity|reflexivity|reflexivity|apply console_match].
Qed.

Lemma not_match (ident post : text) :
  lin_matcher (its_not ident) None (33%N :: ident ++ post)
  = if xorb (word_opt (ctx None (33%N :: ident))) (word_opt (hd_error post))
    then Some (S (length ident), [])
    else None.
Proof.
  unfold lin_matcher, its_not. change (txt "!" ++ ident) with (33%N :: ident).
  cbn [lin]. unfold eat_lit. cbn [m_rest m_prev m_pos m_caps].
  change (33%N :: ident ++ post) with ((33%N :: ident) ++ post).
  rewrite strip_app. cbn [m_rest m_prev]. unfold at_boundary.
  destruct (xorb _ _); [|reflexivity].
  cbn [m_pos m_caps]. simpl length. now rewrite Nat.add_0_r.
Qed.

Lemma existsb_eqb_In (c : char) (l : text) :
  existsb (N.eqb c) l = false -> forall h, In h l -> (c =? h)%N = false.
Proof.
  intros H h Hin. destruct (N.eqb_spec c h) as [->|]; [|reflexivity].
  rewrite <- H. symmetry. apply existsb_exists. exists h.
  split; [exact Hin|apply N.eqb_refl].
Qed.

Lemma not_rule (ident : text) :
  existsb (N.eqb 33%N) ident = false ->
  word_opt (ctx None (33%N :: ident)) = true ->
  forall pre post,
    (word_opt (hd_error post) = false ->
     apply_rule (rule_not ident) (pre ++ txt "!" ++ ident ++ post)
     = apply_rule (rule_not ident) pre ++ ident ++ txt " == null"
       ++ apply_rule (rule_not ident) post)
    /\ (word_opt (hd_error post) = true ->
        apply_rule (rule_not ident) (pre ++ txt "!" ++ ident ++ post)
        = apply_rule (rule_not ident) pre ++ txt "!" ++ ident
          ++ apply_rule (rule_not ident) post).
Proof.
  intros Hbang Hlast pre post.
  rewrite !(@apply_rule_lin (rule_not ident) (its_not ident)) by reflexivity.
  assert (B : blocks_tail 33%N (its_not ident) = true).
  { unfold its_not. change (txt "!" ++ ident) with (33%N :: ident).
    simpl. now rewrite Hbang. }
  change (txt "!" ++ ident ++ post) with ((33%N :: ident) ++ post).
  split; intros Hpost.
  - rewrite scan_occurrence with (caps := []); [|exact B|reflexivity|].
    + unfold rule_not. cbn [snd expand].
      now rewrite app_nil_r, <- app_assoc.
    + rewrite not_match, Hlast, Hpost. reflexivity.
  - rewrite scan_no_occurrence; [|exact B|reflexivity|].
    + reflexivity.
    + intros [|c u1] u2 Hu Hu2; simpl in Hu.
      * subst u2. simpl app. now rewrite not_match, Hlast, Hpost.
      * injection Hu as _ Hu. destruct u2 as [|h u2]; [congruence|].
        simpl app. unfold its_not.
        change (txt "!" ++ ident) with (33%N :: ident).
        apply lin_matcher_head_mismatch.
        apply (existsb_eqb_In _ _ Hbang). rewrite Hu.
        apply in_or_app. right. now left.
Qed.

(** C3, as the code has it: for each of the six names, in the text
    that the substitution for the name receives, an occurrence of
    [!name] that is not followed by a word character is rewritten to
    [name == null], an occurrence followed by a word character
    ([!textual]) is left as it is, and in both cases the text on the
    two sides is rewritten on its own; [fix_file] turns [!name] into
    [name == null], leaves [!nameual] as it is, and turns
    [if (!options) { return; }] into
    [if (options == null) { return; }]. *)
Theorem negation_rewritten :
  (forall ident pre post : text,
     In ident nullable_idents ->
     (word_opt (hd_error post) = false ->
      apply_rule (rule_not ident) (pre ++ txt "!" ++ ident ++ post)
      = apply_rule (rule_not ident) pre ++ ident ++ txt " == null"
        ++ apply_rule (rule_not ident) post)
     /\ (word_opt (hd_error post) = true ->
         apply_rule (rule_not ident) (pre ++ txt "!" ++ ident ++ post)
         = apply_rule (rule_not ident) pre ++ txt "!" ++ ident
           ++ apply_rule (rule_not ident) post))
  /\ (forall ident : text,
        In ident nullable_idents ->
        fix_text (txt "!" ++ ident) = ident ++ txt " == null"
        /\ fix_text (txt "!" ++ ident ++ txt "ual")
           = txt "!" ++ ident ++ txt "ual")
  /\ fix_text (txt "if (!options) { return; }")
     = txt "if (options == null) { return; }".
Proof.
  split; [|split; [|vm_compute; reflexivity]].
  - intros ident pre post Hin. apply not_rule;
      repeat (destruct Hin as [<-|Hin]; [reflexivity|]); destruct Hin.
  - intros ident Hin.
    repeat (destruct Hin as [<-|Hin]; [split; vm_compute; reflexivity|]).
    destruct Hin.
Qed.

Lemma eat_lit_app (l s : text) (p : option char) (n : nat)
  (caps : captures) :
  eat_lit l (MState p (l ++ s) n caps)
  = Some (MState (ctx p l) s (length l + n) caps).
Proof. unfold eat_lit. cbn [m_rest]. now rewrite strip_app. Qed.

Lemma skip_span_run (cl : cclass) (w s : text) (p : option char) (n : nat)
  (caps : captures) :
  forallb (in_class cl) w = true ->
  match s with c :: _ => in_class cl c = false | [] => True end ->
  skip_span cl (MState p (w ++ s) n caps)
  = MState (ctx p w) s (length w + n) caps.
Proof.
  intros Hw Hs. unfold skip_span. cbn [m_rest m_prev m_pos m_caps].
  now rewrite span_run.
Qed.

Lemma empty_object_match (w1 w2 w3 w4 post : text) :
  forallb is_space w1 = true -> forallb is_space w2 = true ->
  forallb is_space w3 = true -> forallb is_space w4 = true ->
  lin_matcher its_empty_object None (empty_object_test w1 w2 w3 w4 ++ post)
  = Some (length (empty_object_test w1 w2 w3 w4), []).
Proof.
  intros H1 H2 H3 H4.
  unfold lin_matcher, its_empty_object, empty_object_test.
  rewrite <- !app_assoc. cbn [lin].
  rewrite eat_lit_app.
  rewrite (skip_span_run CSpace w1) by (exact H1 || reflexivity).
  rewrite eat_lit_app.
  rewrite (skip_span_run CSpace w2) by (exact H2 || reflexivity).
  rewrite eat_lit_app.
  rewrite (skip_span_run CSpace w3) by (exact H3 || reflexivity).
  rewrite eat_lit_app.
  rewrite (skip_span_run CSpace w4) by (exact H4 || reflexivity).
  rewrite eat_lit_app. cbn [m_pos m_caps].
  do 2 f_equal. rewrite !length_app. simpl. lia.
Qed.

(** C8: every test [if ({})], with any white space the pattern
    accepts between its tokens, is rewritten to [if (false)] in the
    text the rule receives, the text before it and the block behind it
    being rewritten on their own; [fix_file] turns
    [if ({}) { doThing(); }] into [if (false) { doThing(); }]. *)
Theorem empty_object_rewritten :
  (forall pre post w1 w2 w3 w4 : text,
     forallb is_space w1 = true -> forallb is_space w2 = true ->
     forallb is_space w3 = true -> forallb is_space w4 = true ->
     apply_rule rule_empty_object
       (pre ++ empty_object_test w1 w2 w3 w4 ++ post)
     = apply_rule rule_empty_object pre ++ txt "if (false)"
       ++ apply_rule rule_empty_object post)
  /\ fix_text (txt "if ({}) { doThing(); }")
     = txt "if (false) { doThing(); }".
Proof.
  split; [|vm_compute; reflexivity].
  intros pre post w1 w2 w3 w4 H1 H2 H3 H4.
  rewrite !(@apply_rule_lin rule_empty_object its_empty_object)
    by reflexivity.
  pose proof (@empty_object_match w1 w2 w3 w4 post H1 H2 H3 H4) as M.
  revert M. unfold empty_object_test.
  change (txt "if" ++ w1 ++ txt "(" ++ w2 ++ txt "{" ++ w3 ++ txt "}"
          ++ w4 ++ txt ")")
    with (105%N :: (102%N :: w1 ++ txt "(" ++ w2 ++ txt "{" ++ w3
                    ++ txt "}" ++ w4 ++ txt ")")).
  intros M.
  rewrite scan_occurrence with (caps := []);
    [reflexivity|reflexivity|reflexivity|exact M].
Qed.

(** ** Attempts stopped by the last character before the cut *)

Lemma last_app_nonempty (a1 a2 : text) (d : char) :
  a2 <> [] -> last (a1 ++ a2) d = last a2 d.
Proof.
  intros Ha2. induction a1 as [|c a1 IH]; [reflexivity|].
  simpl app. destruct (a1 ++ a2) eqn:E; [|exact IH].
  apply app_eq_nil in E as [_ E]. congruence.
Qed.

Lemma scan_cut_barrier (its : list item) (t : template) (pre b : text) :
  pre <> [] -> blocks (last pre 0%N) its = true ->
  scan (lin_matcher its) t None (pre ++ b) 0
  = scan (lin_matcher its) t None pre 0
    ++ scan (lin_matcher its) t (ctx None pre) b 0.
Proof.
  intros Hpre B. apply scan_cut; [lia|].
  intros a1 a2 -> Ha2. split; [|intros n caps; apply lin_matcher_fits].
  rewrite last_app_nonempty in B by exact Ha2.
  destruct (exists_last Ha2) as [u [y ->]].
  rewrite last_last in B.
  rewrite <- app_assoc. simpl app. apply lin_matcher_barrier, B.
Qed.

Lemma nonword_not_in (y : char) (l : text) :
  is_word y = false -> forallb is_word l = true ->
  existsb (N.eqb y) l = false.
Proof.
  intros Hy. induction l as [|c l IH]; intros Hl; [reflexivity|].
  simpl in *. apply andb_true_iff in Hl as [Hc Hl].
  rewrite (IH Hl), orb_false_r.
  destruct (N.eqb_spec y c) as [->|]; [congruence|reflexivity].
Qed.

Lemma word_ctx (p : option char) (w : text) :
  w <> [] -> forallb is_word w = true -> word_opt (ctx p w) = true.
Proof.
  revert p; induction w as [|c w IH]; intros p Hw Hall; [congruence|].
  simpl in Hall. apply andb_true_iff in Hall as [Hc Hall].
  rewrite ctx_cons. destruct w as [|c' w]; [exact Hc|].
  apply IH; [discriminate|exact Hall].
Qed.

Lemma nonword_head (post : text) :
  word_opt (hd_error post) = false ->
  match post with c :: _ => is_word c = false | [] => True end.
Proof. destruct post; simpl; auto. Qed.

(** ** [\bunused(\w+)\b] *)

Lemma unused_blocks (y : char) :
  is_word y = false -> blocks y its_unused = true.
Proof.
  intros Hy. unfold blocks, its_unused. cbn [forallb item_blocks in_class].
  rewrite Hy, (nonword_not_in y _ Hy) by reflexivity. reflexivity.
Qed.

Lemma unused_cut (t : template) (pre b : text) :
  word_opt (ctx None pre) = false ->
  scan (lin_matcher its_unused) t None (pre ++ b) 0
  = scan (lin_matcher its_unused) t None pre 0
    ++ scan (lin_matcher its_unused) t (ctx None pre) b 0.
Proof.
  intros Hpre. destruct pre as [|c pre]; [reflexivity|].
  apply scan_cut_barrier; [discriminate|].
  apply unused_blocks, Hpre.
Qed.

Lemma unused_match (prev : option char) (w post : text) :
  word_opt prev = false -> w <> [] -> forallb is_word w = true ->
  word_opt (hd_error post) = false ->
  lin_matcher its_unused prev ((txt "unused" ++ w) ++ post)
  = Some (length (txt "unused" ++ w), [(1, w)]).
Proof.
  intros Hprev Hw Hall Hpost.
  unfold lin_matcher, its_unused. rewrite <- app_assoc. cbn [lin].
  cbn [m_prev m_rest]. unfold at_boundary at 1. rewrite Hprev.
  change (xorb false (word_opt (hd_error (txt "unused" ++ w ++ post))))
    with true. cbv iota.
  rewrite eat_lit_app. unfold eat_run. cbn [m_rest].
  rewrite (skip_span_run CWord w) by (exact Hall || apply nonword_head, Hpost).
  rewrite span_run by (exact Hall || apply nonword_head, Hpost).
  cbn [fst]. destruct w as [|c w]; [congruence|].
  cbn [set_group m_prev m_rest m_pos m_caps]. unfold at_boundary.
  rewrite word_ctx by assumption. rewrite Hpost. cbn [xorb].
  do 2 f_equal. rewrite length_app. simpl. lia.
Qed.

Lemma unused_nonword_head (p : option char) (y : char) (s : text) :
  is_word y = false -> lin_matcher its_unused p (y :: s) = None.
Proof.
  intros Hy. unfold lin_matcher, its_unused.
  change (txt "unused") with (117%N :: txt "nused"). cbn [lin].
  destruct (at_boundary _ _); [|reflexivity].
  unfold eat_lit. cbn [m_rest strip].
  destruct (N.eqb_spec 117 y) as [<-|]; [|reflexivity].
  discriminate Hy.
Qed.

Lemma unused_post (t : template) (p p' : option char) (post : text) :
  word_opt (hd_error post) = false ->
  scan (lin_matcher its_unused) t p post 0
  = scan (lin_matcher its_unused) t p' post 0.
Proof.
  intros Hpost. destruct post as [|y post]; [reflexivity|].
  cbn [scan]. now rewrite !unused_nonword_head by exact Hpost.
Qed.

Lemma inner_boundary (p : option char) (u1 u2 v : text) :
  forallb is_word (u1 ++ u2) = true -> u1 <> [] -> u2 <> [] ->
  at_boundary (ctx p u1) (u2 ++ v) = false.
Proof.
  intros Hall H1 H2. rewrite forallb_app in Hall.
  apply andb_true_iff in Hall as [Ha1 Ha2].
  unfold at_boundary. rewrite word_ctx by assumption.
  destruct u2 as [|h u2]; [congruence|].
  simpl in *. apply andb_true_iff in Ha2 as [Hh _]. now rewrite Hh.
Qed.

Lemma unused_bare_miss (prev : option char) (post u1 u2 : text) :
  word_opt (hd_error post) = false ->
  txt "unused" = u1 ++ u2 -> u2 <> [] ->
  lin_matcher its_unused (ctx prev u1) (u2 ++ post) = None.
Proof.
  intros Hpost Hu Hu2. unfold lin_matcher, its_unused.
  destruct u1 as [|c u1].
  - simpl in Hu. subst u2. cbn [lin ctx m_prev m_rest].
    destruct (at_boundary _ _); [|reflexivity].
    rewrite eat_lit_app. unfold eat_run. cbn [m_rest].
    destruct post as [|y post]; [reflexivity|].
    simpl in Hpost. simpl span. now rewrite Hpost.
  - cbn [lin m_prev m_rest].
    rewrite inner_boundary; [reflexivity| |discriminate|exact Hu2].
    now rewrite <- Hu.
Qed.

(** C6, as the code has it: in the text that the last substitution
    receives, a word made of [unused] and at least one more word
    character, standing between non-word neighbours, loses the prefix
    and gains a leading underscore, and the bare word [unused] between
    non-word neighbours is left as it is; in both cases the text on
    the two sides is rewritten on its own.  [fix_file] turns
    [unusedCounter] into [_Counter], alone and inside a statement. *)
Theorem unused_prefixed :
  (forall pre w post : text,
     word_opt (ctx None pre) = false ->
     w <> [] -> forallb is_word w = true ->
     word_opt (hd_error post) = false ->
     apply_rule rule_unused (pre ++ txt "unused" ++ w ++ post)
     = apply_rule rule_unused pre ++ txt "_" ++ w
       ++ apply_rule rule_unused post)
  /\ (forall pre post : text,
        word_opt (ctx None pre) = false ->
        word_opt (hd_error post) = false ->
        apply_rule rule_unused (pre ++ txt "unused" ++ post)
        = apply_rule rule_unused pre ++ txt "unused"
          ++ apply_rule rule_unused post)
  /\ fix_text (txt "unusedCounter") = txt "_Counter"
  /\ fix_text (txt "let unusedCounter = unused + 1;")
     = txt "let _Counter = unused + 1;".
Proof.
  split; [|split; [|split; vm_compute; reflexivity]].
  - intros pre w post Hpre Hw Hall Hpost.
    rewrite !(apply_rule_lin rule_unused its_unused) by reflexivity.
    rewrite unused_cut by exact Hpre. f_equal.
    rewrite app_assoc.
    rewrite scan_hit with (caps := [(1, w)]).
    + unfold rule_unused. cbn [snd expand group Nat.eqb].
      rewrite app_nil_r, <- app_assoc. do 2 f_equal.
      apply unused_post, Hpost.
    + destruct w; discriminate.
    + apply unused_match; assumption.
  - intros pre post Hpre Hpost.
    rewrite !(apply_rule_lin rule_unused its_unused) by reflexivity.
    rewrite unused_cut by exact Hpre. f_equal.
    rewrite scan_miss.
    + f_equal. apply unused_post, Hpost.
    + intros u1 u2 Hu Hu2. apply unused_bare_miss; assumption.
Qed.

(** ** [(\w+)\[name\] \|\|] and [(\w+)\[value\] \|\|] *)

Lemma all_last (p : char -> bool) (l : text) (d : char) :
  l <> [] -> forallb p l = true -> p (last l d) = true.
Proof.
  induction l as [|c l IH]; intros Hl Hall; [congruence|].
  simpl in Hall. apply andb_true_iff in Hall as [Hc Hall].
  destruct l as [|c' l]; [exact Hc|].
  apply IH; [discriminate|exact Hall].
Qed.

(** Behind a word and the opening character [h] of the literal, a
    literal whose other characters differ from [h] and which ends in a
    non-word character cannot be completed. *)
Lemma strip_behind_word (h : char) (w x : text) :
  w <> [] -> forallb is_word w = true ->
  forall l q,
    existsb (N.eqb h) l = false ->
    (l = [] \/ is_word (last l 0%N) = false) ->
    strip l (q ++ w ++ h :: x)
    = option_map (fun r => r ++ w ++ h :: x) (strip l q).
Proof.
  intros Hw Hall. induction l as [|c l IH]; intros q Hh Hlast;
    [reflexivity|].
  destruct q as [|q0 q].
  - simpl app. rewrite strip_block by exact Hh.
    destruct (strip (c :: l) w) as [r|] eqn:E; [|reflexivity].
    exfalso. apply strip_Some in E.
    destruct Hlast as [Hlast|Hlast]; [discriminate|].
    rewrite E, forallb_app in Hall. apply andb_true_iff in Hall as [Hall _].
    apply (all_last is_word (c :: l) 0%N) in Hall; [|discriminate].
    exact (eq_true_false_abs _ Hall Hlast).
  - simpl. destruct (c =? q0)%N; [|reflexivity].
    simpl in Hh. apply orb_false_iff in Hh as [_ Hh].
    apply IH; [exact Hh|].
    destruct l as [|c' l]; [now left|right].
    destruct Hlast as [Hlast|Hlast]; [discriminate|exact Hlast].
Qed.

Lemma strip_capture (h : char) (l q w x : text) :
  is_word h = false -> existsb (N.eqb h) l = false ->
  is_word (last (h :: l) 0%N) = false ->
  w <> [] -> forallb is_word w = true ->
  strip (h :: l) (q ++ w ++ h :: x)
  = option_map (fun r => r ++ w ++ h :: x) (strip (h :: l) q).
Proof.
  intros Hh Hl Hlast Hw Hall. destruct q as [|q0 q].
  - destruct w as [|hw w]; [congruence|]. simpl.
    simpl in Hall. apply andb_true_iff in Hall as [Hhw _].
    destruct (N.eqb_spec h hw) as [->|]; [congruence|reflexivity].
  - simpl. destruct (h =? q0)%N; [|reflexivity].
    apply strip_behind_word; try assumption.
    destruct l as [|c l]; [now left|right; exact Hlast].
Qed.

Lemma eat_run_block (n : nat) (cl : cclass) (y : char) (z : text)
  (st : mstate) :
  in_class cl y = false ->
  eat_run n cl (extend (y :: z) st)
  = option_map (extend (y :: z)) (eat_run n cl st).
Proof.
  intros Hy. unfold eat_run, skip_span, extend.
  cbn [m_rest m_prev m_pos m_caps].
  rewrite span_block by exact Hy.
  now destruct (span (in_class cl) (m_rest st)) as [[|c w] r].
Qed.

Lemma capture_extend (h : char) (l w post u : text) (y : char)
  (p : option char) :
  is_word h = false -> existsb (N.eqb h) l = false ->
  is_word (last (h :: l) 0%N) = false ->
  w <> [] -> forallb is_word w = true ->
  is_word y = false ->
  lin_matcher (its_capture (h :: l)) p
    ((u ++ [y]) ++ w ++ (h :: l) ++ post)
  = lin_matcher (its_capture (h :: l)) p (u ++ [y]).
Proof.
  intros Hh Hl Hlast Hw Hall Hy. unfold lin_matcher, its_capture.
  rewrite <- app_assoc. simpl app.
  change (MState p (u ++ y :: w ++ h :: l ++ post) 0 [])
    with (extend (y :: w ++ h :: l ++ post) (MState p u 0 [])).
  change (MState p (u ++ [y]) 0 [])
    with (extend [y] (MState p u 0 [])).
  cbn [lin]. rewrite !(eat_run_block 1 CWord) by exact Hy.
  destruct (eat_run 1 CWord (MState p u 0 [])) as [st|]; [|reflexivity].
  cbn [option_map]. unfold eat_lit, extend.
  cbn [m_rest m_prev m_pos m_caps].
  change (m_rest st ++ y :: w ++ h :: l ++ post)
    with (m_rest st ++ [y] ++ w ++ h :: l ++ post).
  rewrite app_assoc, strip_capture by assumption.
  now destruct (strip (h :: l) (m_rest st ++ [y])).
Qed.

Lemma capture_cut (h : char) (l : text) (t : template) (pre w post : text) :
  is_word h = false -> existsb (N.eqb h) l = false ->
  is_word (last (h :: l) 0%N) = false ->
  word_opt (ctx None pre) = false ->
  w <> [] -> forallb is_word w = true ->
  scan (lin_matcher (its_capture (h :: l))) t None
    (pre ++ w ++ (h :: l) ++ post) 0
  = scan (lin_matcher (its_capture (h :: l))) t None pre 0
    ++ scan (lin_matcher (its_capture (h :: l))) t (ctx None pre)
         (w ++ (h :: l) ++ post) 0.
Proof.
  intros Hh Hl Hlast Hpre Hw Hall. apply scan_cut; [lia|].
  intros a1 a2 -> Ha2. split; [|intros n caps; apply lin_matcher_fits].
  destruct (exists_last Ha2) as [u [y ->]].
  apply capture_extend; try assumption.
  rewrite app_assoc, ctx_app in Hpre. exact Hpre.
Qed.

Lemma capture_match (h : char) (l w post : text) (p : option char) :
  is_word h = false -> w <> [] -> forallb is_word w = true ->
  lin_matcher (its_capture (h :: l)) p ((w ++ h :: l) ++ post)
  = Some (length (w ++ h :: l), [(1, w)]).
Proof.
  intros Hh Hw Hall. unfold lin_matcher, its_capture.
  rewrite <- app_assoc. cbn [lin]. unfold eat_run. cbn [m_rest].
  rewrite (skip_span_run CWord w) by (exact Hall || exact Hh).
  rewrite span_run by (exact Hall || exact Hh).
  cbn [fst]. destruct w as [|c w]; [congruence|].
  unfold set_group. cbn [m_prev m_rest m_pos m_caps].
  rewrite (eat_lit_app (h :: l) post). cbn [m_pos m_caps].
  do 2 f_equal. rewrite length_app. lia.
Qed.

Lemma capture_rule (rl : rule) (h : char) (l : text) (pre w post : text) :
  fst rl = compile (its_capture (h :: l)) ->
  is_word h = false -> existsb (N.eqb h) l = false ->
  is_word (last (h :: l) 0%N) = false ->
  word_opt (ctx None pre) = false ->
  w <> [] -> forallb is_word w = true ->
  apply_rule rl (pre ++ w ++ (h :: l) ++ post)
  = apply_rule rl pre ++ expand (snd rl) [(1, w)] ++ apply_rule rl post.
Proof.
  intros E Hh Hl Hlast Hpre Hw Hall.
  assert (G : guarded (its_capture (h :: l)) = true).
  { unfold its_capture. cbn. now rewrite Hh. }
  rewrite !(apply_rule_lin rl (its_capture (h :: l))) by assumption.
  rewrite capture_cut by assumption. f_equal.
  rewrite app_assoc.
  rewrite scan_hit with (caps := [(1, w)]).
  - f_equal. now apply scan_prev_free, lin_matcher_prev_free.
  - destruct w; [congruence|discriminate].
  - now apply capture_match.
Qed.

(** C2: a word followed by [[name] ||] becomes the word followed by
    [[name] ??], and a word followed by [[value] ||] becomes the word
    followed by [[name] ??], in the text the rule receives; the text on
    the two sides is rewritten on its own.  [fix_file] turns
    [const v = headers[name] || defaultVal;] into
    [const v = headers[name] ?? defaultVal;], and does the same with
    [headers[value]]. *)
Theorem lookup_fallback_rewritten :
  (forall pre w post : text,
     word_opt (ctx None pre) = false ->
     w <> [] -> forallb is_word w = true ->
     apply_rule rule_name (pre ++ w ++ txt "[name] ||" ++ post)
     = apply_rule rule_name pre ++ w ++ txt "[name] ??"
       ++ apply_rule rule_name post
     /\ apply_rule rule_value (pre ++ w ++ txt "[value] ||" ++ post)
        = apply_rule rule_value pre ++ w ++ txt "[name] ??"
          ++ apply_rule rule_value post)
  /\ fix_text (txt "const v = headers[name] || defaultVal;")
     = txt "const v = headers[name] ?? defaultVal;"
  /\ fix_text (txt "const v = headers[value] || defaultVal;")
     = txt "const v = headers[name] ?? defaultVal;".
Proof.
  split; [|split; vm_compute; reflexivity].
  intros pre w post Hpre Hw Hall. split.
  - change (txt "[name] ||") with (91%N :: txt "name] ||").
    rewrite (capture_rule rule_name 91%N (txt "name] ||"));
      try assumption; try reflexivity.
    unfold rule_name. cbn [snd expand group Nat.eqb].
    now rewrite app_nil_r, <- app_assoc.
  - change (txt "[value] ||") with (91%N :: txt "value] ||").
    rewrite (capture_rule rule_value 91%N (txt "value] ||"));
      try assumption; try reflexivity.
    unfold rule_value. cbn [snd expand group Nat.eqb].
    now rewrite app_nil_r, <- app_assoc.
Qed.

(** ** The rule set as a whole *)

Lemma lin_min_len (its : list item) :
  forall st st',
    lin its st = Some st' -> m_pos st + min_len its <= m_pos st'.
Proof.
  induction its as [|it its IH]; intros st st' H; simpl in H.
  - inversion H. simpl. lia.
  - destruct it as [l|cl|n cl|]; simpl.
    + unfold eat_lit in H. destruct (strip l (m_rest st)); [|discriminate].
      apply IH in H. simpl in H. lia.
    + apply IH in H. unfold skip_span in H.
      destruct (span _ _) in H. simpl in H. lia.
    + unfold eat_run, skip_span in H.
      destruct (span (in_class cl) (m_rest st)) as [[|c w] r];
        [discriminate|].
      apply IH in H. simpl in H. lia.
    + destruct (at_boundary _ _); [|discriminate]. now apply IH.
Qed.

Lemma rules_linear (rl : rule) :
  In rl rules ->
  exists its, fst rl = compile its /\ guarded its = true /\ 0 < min_len its.
Proof.
  intros H. unfold rules, nullable_idents in H. simpl in H.
  repeat (destruct H as [<-|H]);
    [exists its_name|exists its_value
    |exists (its_not (txt "text"))|exists (its_not (txt "result"))
    |exists (its_not (txt "response"))|exists (its_not (txt "jsonData"))
    |exists (its_not (txt "instance"))|exists (its_not (txt "options"))
    |exists its_empty_object|exists its_console|exists its_unused
    |destruct H];
    (split; [reflexivity|split; [reflexivity|simpl; lia]]).
Qed.

(** X7: no pattern of the rule set matches the empty string: a match
    of any rule, at any position of any text, consumes at least one
    character. *)
Lemma rules_match_nonempty (rl : rule) (prev : option char) (s : text)
  (n : nat) (caps : captures) :
  In rl rules -> match_at (fst rl) prev s = Some (n, caps) -> 0 < n.
Proof.
  intros Hin H. destruct (rules_linear rl Hin) as [its [E [G Hmin]]].
  rewrite E, match_at_compile in H by exact G.
  unfold lin_matcher in H.
  destruct (lin its _) as [st|] eqn:El; [|discriminate].
  inversion H; subst. apply lin_min_len in El. simpl in El. lia.
Qed.

Lemma text_eqb_eq (a b : text) : text_eqb a b = true <-> a = b.
Proof.
  revert b; induction a as [|x a IH]; intros [|y b]; simpl;
    try (split; discriminate); [split; reflexivity|].
  rewrite andb_true_iff, N.eqb_eq, IH. split.
  - intros [-> ->]. reflexivity.
  - intros H. injection H. auto.
Qed.

Lemma fold_rules_clean (rls : list rule) (s : text) :
  forallb (fun rl => negb (search (match_at (fst rl)) None s)) rls = true ->
  fold_left (fun acc rl => apply_rule rl acc) rls s = s.
Proof.
  induction rls as [|rl rls IH]; intros H; [reflexivity|].
  simpl in H. apply andb_true_iff in H as [H1 H2].
  apply negb_true_iff in H1. simpl.
  unfold apply_rule at 2, sub. rewrite scan_no_match by exact H1.
  apply IH, H2.
Qed.

Lemma fix_text_clean (s : text) : clean s = true -> fix_text s = s.
Proof. apply fold_rules_clean. Qed.

(** C4: a text in which no pattern of the rule set has a match comes
    out of the pipeline as it went in; and when the text comes out
    equal to the original, [fix_file] only reads: no file is written,
    nothing is printed, the files are as they were. *)
Theorem no_pattern_no_change :
  (forall s : text, clean s = true -> fix_text s = s)
  /\ (forall (p : path) (w : world) (content : text) (wm : wmode),
        w_files w p = File content wm ->
        fix_text content = content ->
        fix_file p w = (None, log (ERead p) w)
        /\ writes (w_trace (snd (fix_file p w))) = writes (w_trace w)
        /\ printed (w_trace (snd (fix_file p w))) = printed (w_trace w)
        /\ w_files (snd (fix_file p w)) = w_files w).
Proof.
  split; [exact fix_text_clean|].
  intros p w content wm Hfile Hsame.
  assert (E : fix_file p w = (None, log (ERead p) w)).
  { unfold fix_file. rewrite Hfile.
    now rewrite (proj2 (text_eqb_eq _ _) Hsame). }
  rewrite E. repeat split.
Qed.

(** ** [fix_file] and [main] *)

Lemma reads_app (evs tr : list event) :
  reads (evs ++ tr) = reads tr ++ reads evs.
Proof. unfold reads. now rewrite flat_map_app, rev_app_distr. Qed.

Lemma writes_app (evs tr : list event) :
  writes (evs ++ tr) = writes tr ++ writes evs.
Proof. unfold writes. now rewrite flat_map_app, rev_app_distr. Qed.

Lemma printed_app (evs tr : list event) :
  printed (evs ++ tr) = printed tr ++ printed evs.
Proof. unfold printed. now rewrite flat_map_app, rev_app_distr. Qed.

Lemma attempted_app (evs tr : list event) :
  attempted (evs ++ tr) = attempted tr ++ attempted evs.
Proof. unfold attempted. now rewrite flat_map_app, rev_app_distr. Qed.

Lemma failed_writes_app (evs tr : list event) :
  failed_writes (evs ++ tr) = failed_writes tr ++ failed_writes evs.
Proof. unfold failed_writes. now rewrite flat_map_app, rev_app_distr. Qed.

Lemma fixed_prefix (p : path) :
  String.prefix "Fixed: " ("Fixed: " ++ p) = true.
Proof. apply String.prefix_correct. now destruct p. Qed.

Lemma error_not_fixed (p : path) (e : exn) :
  String.prefix "Fixed: " (error_line p e) = false.
Proof.
  destruct (String.prefix _ _) eqn:E; [|reflexivity].
  apply String.prefix_correct in E. discriminate E.
Qed.

(** [print] touches nothing but the trace. *)
Lemma print_frame (line : string) (w : world) :
  w_name (snd (print line w)) = w_name w
  /\ w_disk (snd (print line w)) = w_disk w
  /\ w_stdout (snd (print line w)) = w_stdout w.
Proof. unfold print. now destruct (w_stdout w (w_trace w) line). Qed.

Lemma fix_file_frame (p : path) (w : world) :
  w_name (snd (fix_file p w)) = w_name w
  /\ w_stdout (snd (fix_file p w)) = w_stdout w.
Proof.
  unfold fix_file. destruct (w_files w p) as [c wm|e]; [|now split].
  destruct (text_eqb _ _); [now split|].
  destruct wm; [|now split|now split].
  unfold print. now destruct (w_stdout _ _ _).
Qed.

Lemma main_step_frame (w : world) (p : path) :
  w_name (snd (main_step w p)) = w_name w
  /\ w_stdout (snd (main_step w p)) = w_stdout w.
Proof.
  unfold main_step. pose proof (fix_file_frame p w) as [H1 H2].
  destruct (fix_file p w) as [[e|] w']; [|now split].
  cbn [snd] in *. pose proof (print_frame (error_line p e) w') as [K1 [_ K3]].
  unfold error_line in *. now rewrite K1, K3.
Qed.





Lemma opened_prefix (argv : list path) :
  forall w,
    exists rest,
      argv = opened argv w ++ rest
      /\ (fst (main argv w) = None -> rest = []).
Proof.
  induction argv as [|p argv IH]; intros w.
  - exists []. now split.
  - cbn [main opened]. destruct (main_step w p) as [[e|] w'].
    + exists argv. split; [reflexivity|discriminate].
    + destruct (IH w') as [rest [E H]]. exists rest.
      split; [|exact H]. cbn [app]. now rewrite <- E.
Qed.



Ltac evs_cbn :=
  cbn [attempted writes printed reads failed_writes flat_map rev app
       filter List.map fst length].

Ltac evs_done tac :=
  (split; [reflexivity|]); (split; [reflexivity|]);
  (split; [simpl; lia|]); (split; [tac|]);
  let q := fresh "q" in
  let H := fresh "H" in
  intros q H;
  first [now destruct H | now destruct H as [<-|[]]].

Ltac no_writes := now intros ? ? [].

(** The operations of one round of the loop. *)
Lemma main_step_events (w : world) (p : path) :
  exists evs,
    w_trace (snd (main_step w p)) = evs ++ w_trace w
    /\ reads evs = [p]
    /\ filter (String.prefix "Fixed: ") (attempted evs)
       = List.map (fun pc => ("Fixed: " ++ fst pc)%string) (writes evs)
    /\ length (printed evs) <= 1
    /\ (forall q c',
          In (q, c') (writes evs) ->
          q = p
          /\ exists c,
               w_files w p = File c WriteOk
               /\ c' = fix_text c /\ fix_text c <> c)
    /\ (forall q, In q (failed_writes evs) -> q = p).
Proof.
  pose proof (error_not_fixed p) as NF. unfold error_line in NF.
  pose proof (fixed_prefix p) as FP.
  unfold main_step, fix_file.
  destruct (w_files w p) as [c wm|e] eqn:En.
  - destruct (text_eqb (fix_text c) c) eqn:E.
    + exists [ERead p]. split; [reflexivity|]. evs_cbn. evs_done no_writes.
    + assert (Hne : fix_text c <> c).
      { intros Heq. apply text_eqb_eq in Heq. congruence. }
      assert (W : forall q c',
                 In (q, c') [(p, fix_text c)] ->
                 q = p
                 /\ exists c0,
                      File c WriteOk = File c0 WriteOk
                      /\ c' = fix_text c0 /\ fix_text c0 <> c0).
      { intros q c' [H|[]]. inversion H; subst. split; [reflexivity|].
        now exists c. }
      destruct wm as [|e|e]; unfold print;
        cbn [w_stdout w_trace log set_file].
      * destruct (w_stdout w _ _) as [e|].
        -- cbn [w_stdout w_trace log set_file].
           destruct (w_stdout w _ _) as [e'|];
             eexists [_; _; _; _]; (split; [reflexivity|]);
             evs_cbn; rewrite FP, ?NF; evs_cbn; evs_done ltac:(exact W).
        -- eexists [_; _; _]; (split; [reflexivity|]);
             evs_cbn; rewrite FP; evs_cbn; evs_done ltac:(exact W).
      * destruct (w_stdout w _ _) as [e'|];
          eexists [_; _; _]; (split; [reflexivity|]);
          evs_cbn; rewrite ?NF; evs_cbn; evs_done no_writes.
      * destruct (w_stdout w _ _) as [e'|];
          eexists [_; _; _]; (split; [reflexivity|]);
          evs_cbn; rewrite ?NF; evs_cbn; evs_done no_writes.
  - unfold print; cbn [w_stdout w_trace log].
    destruct (w_stdout w _ _) as [e'|];
      eexists [_; _]; (split; [reflexivity|]);
      evs_cbn; rewrite ?NF; evs_cbn; evs_done no_writes.
Qed.

Lemma main_app (l1 l2 : list path) :
  forall w w1, main l1 w = (None, w1) -> main (l1 ++ l2) w = main l2 w1.
Proof.
  induction l1 as [|p l1 IH]; intros w w1 H; cbn [main app] in *.
  - now inversion H.
  - destruct (main_step w p) as [[e|] w']; [discriminate|].
    now apply IH.
Qed.

(** The operations of a run. *)
Lemma main_events (argv : list path) :
  forall w,
    exists evs,
      w_trace (snd (main argv w)) = evs ++ w_trace w
      /\ reads evs = opened argv w
      /\ filter (String.prefix "Fixed: ") (attempted evs)
         = List.map (fun pc => ("Fixed: " ++ fst pc)%string) (writes evs)
      /\ length (printed evs) <= length (opened argv w)
      /\ (forall q c',
            In (q, c') (writes evs) ->
            In q (opened argv w)
            /\ exists c, c' = fix_text c /\ fix_text c <> c)
      /\ (forall q, In q (failed_writes evs) -> In q (opened argv w)).
Proof.
  induction argv as [|p argv IH]; intros w.
  - exists []. cbn. repeat split; try lia; intros; tauto.
  - cbn [main opened].
    destruct (main_step_events w p)
      as [evs1 [T1 [R1 [F1 [P1 [W1 X1]]]]]].
    destruct (main_step w p) as [[e|] w']; cbn [snd] in *.
    + exists evs1. split; [exact T1|]. split; [exact R1|].
      split; [exact F1|]. split; [exact P1|]. split.
      * intros q c' H. destruct (W1 q c' H) as [-> [c [_ Hc]]].
        split; [now left|now exists c].
      * intros q H. rewrite (X1 q H). now left.
    + destruct (IH w') as [evs2 [T2 [R2 [F2 [P2 [W2 X2]]]]]].
      exists (evs2 ++ evs1). split; [now rewrite T2, T1, app_assoc|].
      split; [now rewrite reads_app, R1, R2|].
      split.
      { now rewrite attempted_app, writes_app, filter_app, map_app, F1, F2. }
      split.
      { rewrite printed_app, length_app. simpl. lia. }
      split.
      * intros q c' H. rewrite writes_app in H.
        apply in_app_or in H. destruct H as [H|H].
        -- destruct (W1 q c' H) as [-> [c [_ Hc]]].
           split; [now left|now exists c].
        -- destruct (W2 q c' H) as [Hq Hc]. split; [now right|exact Hc].
      * intros q H. rewrite failed_writes_app in H.
        apply in_app_or in H. destruct H as [H|H].
        -- rewrite (X1 q H). now left.
        -- right. now apply X2.
Qed.

Lemma main_reads (argv : list path) (w : world) :
  reads (w_trace (snd (main argv w)))
  = reads (w_trace w) ++ opened argv w.
Proof.
  destruct (main_events argv w) as [evs [T [R _]]].
  now rewrite T, reads_app, R.
Qed.

(** When the output takes every line the handler may print about a
    path of the list, the run opens every path and ends without an
    exception. *)
Lemma main_completes (argv : list path) :
  forall w,
    (forall tr p e, In p argv -> w_stdout w tr (error_line p e) = None) ->
    fst (main argv w) = None /\ opened argv w = argv.
Proof.
  induction argv as [|p argv IH]; intros w H; [now split|].
  cbn [main opened].
  assert (S : exists w', main_step w p = (None, w')).
  { unfold main_step. pose proof (fix_file_frame p w) as [_ O].
    destruct (fix_file p w) as [[e|] w']; [|now exists w'].
    cbn [snd] in O. unfold print.
    change ("Error fixing " ++ p ++ ": " ++ exn_str e)%string
      with (error_line p e).
    rewrite O, (H _ p e) by now left. eexists. reflexivity. }
  destruct S as [w' S]. pose proof (main_step_frame w p) as [_ O].
  rewrite S in *. cbn [snd] in O.
  destruct (IH w') as [I1 I2].
  - intros tr q e Hq. rewrite O. apply H. now right.
  - split; [exact I1|now rewrite I2].
Qed.





(** C5, as the code has it: when the output takes the lines of the
    handler, every path of the argument list is opened for reading, in
    order, and the run ends without an exception; when [fix_file]
    raises on a path and the handler's line can be printed, the line
    with the path and the message is printed and the run goes on with
    the rest of the list; when the handler's [print] raises, the run
    ends there.  With three paths of which the second is missing, the
    two files are fixed and reported and the missing one yields one
    error line. *)
Theorem main_isolates_errors :
  (forall (argv : list path) (w : world),
     (forall tr p e, In p argv -> w_stdout w tr (error_line p e) = None) ->
     fst (main argv w) = None
     /\ reads (w_trace (snd (main argv w))) = reads (w_trace w) ++ argv)
  /\ (forall (l1 l2 : list path) (p : path) (w w1 w' : world) (e : exn),
        main l1 w = (None, w1) ->
        fix_file p w1 = (Some e, w') ->
        w_stdout w' (w_trace w') (error_line p e) = None ->
        main (l1 ++ p :: l2) w
        = main l2 (log (EPrint (error_line p e)) w')
        /\ In (error_line p e)
             (printed (w_trace (snd (main (l1 ++ p :: l2) w)))))
  /\ (forall (l1 l2 : list path) (p : path) (w w1 w' : world)
        (e e' : exn),
        main l1 w = (None, w1) ->
        fix_file p w1 = (Some e, w') ->
        w_stdout w' (w_trace w') (error_line p e) = Some e' ->
        main (l1 ++ p :: l2) w
        = (Some e', log (EPrintFailed (error_line p e)) w'))
  /\ (let r := main ["a.js"; "missing.js"; "b.js"]%string sample_world in
      fst r = None
      /\ printed (w_trace (snd r))
         = ["Fixed: a.js";
            "Error fixing missing.js: [Errno 2] No such file or directory: 'missing.js'";
            "Fixed: b.js"]%string
      /\ w_files (snd r) "a.js"%string
         = File (txt "console.warn(1);") WriteOk
      /\ w_files (snd r) "b.js"%string
         = File (txt "if (options == null) {}") WriteOk).
Proof.
  split; [|split; [|split]].
  - intros argv w H. destruct (main_completes argv w H) as [C O].
    split; [exact C|]. now rewrite main_reads, O.
  - intros l1 l2 p w w1 w' e H1 H2 H3.
    assert (E : main (l1 ++ p :: l2) w
                = main l2 (log (EPrint (error_line p e)) w')).
    { rewrite (main_app l1 (p :: l2) w w1 H1). cbn [main].
      unfold main_step. rewrite H2. unfold print.
      change ("Error fixing " ++ p ++ ": " ++ exn_str e)%string
        with (error_line p e).
      now rewrite H3. }
    split; [exact E|]. rewrite E.
    destruct (main_events l2 (log (EPrint (error_line p e)) w'))
      as [evs [T _]].
    rewrite T, printed_app. apply in_or_app. left.
    cbn [w_trace log]. change (EPrint (error_line p e) :: w_trace w')
      with ([EPrint (error_line p e)] ++ w_trace w').
    rewrite printed_app. apply in_or_app. right. now left.
  - intros l1 l2 p w w1 w' e e' H1 H2 H3.
    rewrite (main_app l1 (p :: l2) w w1 H1). cbn [main].
    unfold main_step. rewrite H2. unfold print.
    change ("Error fixing " ++ p ++ ": " ++ exn_str e)%string
      with (error_line p e).
    now rewrite H3.
  - vm_compute. repeat split.
Qed.


(** C10: when the read raises, [fix_file] raises the same exception
    having done nothing but the read; and the files differ after a
    call only if the read had succeeded and the pipeline, run to its
    end, produced a text different from the one read. *)
Theorem failed_read_leaves_file :
  (forall (p : path) (w : world) (e : exn),
     w_files w p = Bad e ->
     fix_file p w = (Some e, log (ERead p) w)
     /\ w_files (snd (fix_file p w)) = w_files w
     /\ writes (w_trace (snd (fix_file p w))) = writes (w_trace w))
  /\ (forall (p : path) (w : world),
        w_files (snd (fix_file p w)) = w_files w
        \/ exists content wm,
             w_files w p = File content wm
             /\ fix_text content <> content).
Proof.
  split.
  - intros p w e H. unfold fix_file. rewrite H. repeat split.
  - intros p w. unfold fix_file.
    destruct (w_files w p) as [content wm|e] eqn:H; [|now left].
    destruct (text_eqb (fix_text content) content) eqn:E; [now left|].
    right. exists content, wm. split; [reflexivity|].
    intros Heq. apply text_eqb_eq in Heq. congruence.
Qed.

(** The second pass is not the identity on every fixed text: the
    double negation [!!text] loses one [!] per pass. *)
Lemma double_negation_twice :
  fix_text (txt "!!text") = txt "!text == null"
  /\ fix_text (txt "!text == null") = txt "text == null == null".
Proof. split; vm_compute; reflexivity. Qed.

Lemma unused_alone :
  fix_text (txt "unused") = txt "unused"
  /\ fix_text (txt "let unused = 1;") = txt "let unused = 1;".
Proof. split; vm_compute; reflexivity. Qed.

(** ** More on [fix_file] and the loop *)


Lemma opened_length (argv : list path) (w : world) :
  length (opened argv w) <= length argv.
Proof.
  destruct (opened_prefix argv w) as [rest [E _]].
  rewrite E at 2. rewrite length_app. lia.
Qed.






(** X3: among the operations of a run, the calls of [print] on a
    string beginning with [Fixed: ], returned or not, are in order one
    for each write, each with the path written; and at most one call
    of [print] returns for each path opened. *)
Theorem fixed_reports_are_writes (argv : list path) (w : world) :
  exists evs,
    w_trace (snd (main argv w)) = evs ++ w_trace w
    /\ filter (String.prefix "Fixed: ") (attempted evs)
       = List.map (fun pc => ("Fixed: " ++ fst pc)%string) (writes evs)
    /\ length (printed evs) <= length (reads evs)
    /\ length (reads evs) <= length argv.
Proof.
  destruct (main_events argv w) as [evs [T [R [F [P _]]]]].
  exists evs. split; [exact T|]. split; [exact F|].
  rewrite R. split; [exact P|apply opened_length].
Qed.


(** ** What a scan leaves behind *)

Lemma search_cons (m : matcher) (prev : option char) (c : char) (s : text) :
  search m prev (c :: s)
  = match m prev (c :: s) with
    | Some _ => true
    | None => search m (Some c) s
    end.
Proof. reflexivity. Qed.

Lemma search_miss (m : matcher) (v : text) :
  forall u prev,
    (forall u1 u2, u = u1 ++ u2 -> u2 <> [] ->
       m (ctx prev u1) (u2 ++ v) = None) ->
    search m prev (u ++ v) = search m (ctx prev u) v.
Proof.
  induction u as [|c u IH]; intros prev H; [reflexivity|].
  assert (E : m prev (c :: u ++ v) = None)
    by (apply (H [] (c :: u)); [reflexivity|discriminate]).
  rewrite ctx_cons. simpl app. rewrite search_cons, E. apply IH.
  intros u1 u2 -> Hu2. rewrite <- ctx_cons with (prev := prev).
  apply (H (c :: u1) u2); [reflexivity|exact Hu2].
Qed.

Lemma search_prev_free (m : matcher) :
  (forall p p' s, m p s = m p' s) ->
  forall s p p', search m p s = search m p' s.
Proof.
  intros F. destruct s as [|c s]; intros p p'; simpl; now rewrite (F p p').
Qed.

(** When a replacement followed by clean text is clean, and a failed
    attempt stays failed on the scanned text, the scan leaves no
    match. *)
Lemma scan_settled (m : matcher) (t : template) :
  (forall p s caps, m p s <> Some (0, caps)) ->
  (forall p s n caps, m p s = Some (n, caps) -> n <= length s) ->
  (forall prev x rest caps y,
     x <> [] -> m prev (x ++ rest) = Some (length x, caps) ->
     search m (ctx prev x) y = false ->
     search m prev (expand t caps ++ y) = false) ->
  (forall prev c s,
     m prev (c :: s) = None ->
     m prev (c :: scan m t (Some c) s 0) = None) ->
  forall s prev skip,
    skip <= length s ->
    search m (ctx prev (firstn skip s)) (scan m t prev s skip) = false.
Proof.
  intros Hne Hfit Hhit Hmiss.
  induction s as [|c s IH]; intros prev skip Hskip.
  - simpl in Hskip. replace skip with 0 by lia. simpl.
    destruct (m prev []) as [[n caps]|] eqn:E; [|reflexivity].
    pose proof (Hfit _ _ _ _ E) as Hn. simpl in Hn.
    replace n with 0 in E by lia. now apply Hne in E.
  - destruct skip as [|n].
    + cbn [firstn ctx scan].
      destruct (m prev (c :: s)) as [[[|n] caps]|] eqn:E.
      * now apply Hne in E.
      * pose proof (Hfit _ _ _ _ E) as Hn. simpl in Hn.
        apply (Hhit prev (c :: firstn n s) (skipn n s)).
        -- discriminate.
        -- simpl app. rewrite firstn_skipn. simpl length.
           rewrite length_firstn, Nat.min_l by lia. exact E.
        -- rewrite ctx_cons. apply IH. lia.
      * rewrite search_cons, (Hmiss _ _ _ E).
        apply (IH (Some c) 0). lia.
    + simpl in Hskip. cbn [firstn scan]. rewrite ctx_cons.
      apply IH. lia.
Qed.

Lemma scan_twice (m : matcher) (t : template) (s : text) :
  (forall p s caps, m p s <> Some (0, caps)) ->
  (forall p s n caps, m p s = Some (n, caps) -> n <= length s) ->
  (forall prev x rest caps y,
     x <> [] -> m prev (x ++ rest) = Some (length x, caps) ->
     search m (ctx prev x) y = false ->
     search m prev (expand t caps ++ y) = false) ->
  (forall prev c s,
     m prev (c :: s) = None ->
     m prev (c :: scan m t (Some c) s 0) = None) ->
  scan m t None (scan m t None s 0) 0 = scan m t None s 0.
Proof.
  intros Hne Hfit Hhit Hmiss. apply scan_no_match.
  apply (scan_settled m t Hne Hfit Hhit Hmiss s None 0). lia.
Qed.

Lemma lin_matcher_nonempty (its : list item) (p : option char) (s : text)
  (caps : captures) :
  0 < min_len its -> lin_matcher its p s <> Some (0, caps).
Proof.
  intros Hmin H. unfold lin_matcher in H.
  destruct (lin its _) as [st|] eqn:E; [|discriminate].
  apply lin_min_len in E. simpl in E. inversion H. lia.
Qed.

Lemma lin_matcher_block (its : list item) (c0 : char) (x : text)
  (prev : option char) (a : text) :
  blocks c0 its = true ->
  lin_matcher its prev (a ++ c0 :: x) = lin_matcher its prev a.
Proof.
  intros B. unfold lin_matcher.
  change (MState prev (a ++ c0 :: x) 0 [])
    with (extend (c0 :: x) (MState prev a 0 [])).
  rewrite lin_extend by exact B. now destruct (lin its _).
Qed.

(** When every match and every replacement begin with [c0], the
    scanned text and the text agree up to a first [c0]. *)
Lemma scan_first (m : matcher) (t : template) (c0 : char) :
  (forall p c s n caps, m p (c :: s) = Some (S n, caps) -> c = c0) ->
  (forall caps, exists e, expand t caps = c0 :: e) ->
  forall s p,
    scan m t p s 0 = s
    \/ exists u a b, s = u ++ c0 :: a /\ scan m t p s 0 = u ++ c0 :: b.
Proof.
  intros Hin Hout. induction s as [|c s IH]; intros p; [now left|].
  cbn [scan]. destruct (m p (c :: s)) as [[[|n] caps]|] eqn:E.
  - destruct (IH (Some c)) as [->|[u [a [b [Hs Ho]]]]]; [now left|].
    right. exists (c :: u), a, b. now rewrite Hs at 1; rewrite Ho.
  - right. apply Hin in E. subst c. destruct (Hout caps) as [e ->].
    exists [], s, (e ++ scan m t (Some c0) s n). split; reflexivity.
  - destruct (IH (Some c)) as [->|[u [a [b [Hs Ho]]]]]; [now left|].
    right. exists (c :: u), a, b. now rewrite Hs at 1; rewrite Ho.
Qed.

Lemma first_char_miss (c0 : char) (l : text) (its : list item)
  (t : template) :
  blocks c0 (ILit l :: its) = true ->
  (forall caps, exists e, expand t caps = c0 :: e) ->
  forall prev c s,
    lin_matcher (ILit (c0 :: l) :: its) prev (c :: s) = None ->
    lin_matcher (ILit (c0 :: l) :: its) prev
      (c :: scan (lin_matcher (ILit (c0 :: l) :: its)) t (Some c) s 0)
    = None.
Proof.
  intros B Hout prev c s. unfold lin_matcher at 1 2.
  rewrite !lin_lit_cons. destruct (c0 =? c)%N; [|reflexivity].
  intros H.
  destruct (scan_first (lin_matcher (ILit (c0 :: l) :: its)) t c0)
    with (s := s) (p := Some c) as [->|[u [a [b [Hs ->]]]]];
    [| |exact H|].
  - intros p c1 s1 n caps E. unfold lin_matcher in E.
    rewrite lin_lit_cons in E.
    destruct (N.eqb_spec c0 c1); [congruence|discriminate].
  - exact Hout.
  - rewrite Hs in H.
    change (MState (Some c) (u ++ c0 :: a) 1 [])
      with (extend (c0 :: a) (MState (Some c) u 1 [])) in H.
    change (MState (Some c) (u ++ c0 :: b) 1 [])
      with (extend (c0 :: b) (MState (Some c) u 1 [])).
    rewrite lin_extend in * by exact B.
    now destruct (lin (ILit l :: its) (MState (Some c) u 1 [])).
Qed.

Lemma console_settled (s : text) :
  search (lin_matcher its_console) None
    (scan (lin_matcher its_console) (snd rule_console) None s 0) = false.
Proof.
  apply (scan_settled (lin_matcher its_console) (snd rule_console))
    with (s := s) (prev := None) (skip := 0); [| | | |simpl; lia].
  - intros p s' caps. apply lin_matcher_nonempty. simpl. lia.
  - intros p s' n caps. apply lin_matcher_fits.
  - intros prev x rest caps y _ _ H. unfold rule_console.
    cbn [snd expand].
    rewrite (search_prev_free _
               (lin_matcher_prev_free its_console eq_refl)
               y _ (Some 40%N)) in H.
    unfold its_console in *. cbn. exact H.
  - intros prev c s'. unfold its_console.
    change (txt "console.log(") with (99%N :: txt "onsole.log(").
    apply first_char_miss; [reflexivity|].
    intros caps. eexists. reflexivity.
Qed.

Lemma console_twice (s : text) :
  apply_rule rule_console (apply_rule rule_console s)
  = apply_rule rule_console s.
Proof.
  rewrite !(apply_rule_lin rule_console its_console) by reflexivity.
  apply scan_no_match, console_settled.
Qed.

Lemma empty_object_twice (s : text) :
  apply_rule rule_empty_object (apply_rule rule_empty_object s)
  = apply_rule rule_empty_object s.
Proof.
  rewrite !(apply_rule_lin rule_empty_object its_empty_object)
    by reflexivity.
  apply scan_twice.
  - intros p s' caps. apply lin_matcher_nonempty. simpl. lia.
  - intros p s' n caps. apply lin_matcher_fits.
  - intros prev x rest caps y _ _ H. unfold rule_empty_object.
    cbn [snd expand].
    rewrite (search_prev_free _
               (lin_matcher_prev_free its_empty_object eq_refl)
               y _ (Some 41%N)) in H.
    unfold its_empty_object in *. cbn. exact H.
  - intros prev c s'. unfold its_empty_object.
    change (txt "if") with (105%N :: txt "f").
    apply first_char_miss; [reflexivity|].
    intros caps. eexists. reflexivity.
Qed.

Lemma capture_eval (l : text) (p : option char) (x : text) :
  lin_matcher (its_capture l) p x
  = match fst (span is_word x) with
    | [] => None
    | w =>
        match strip l (snd (span is_word x)) with
        | Some _ => Some (length l + (length w + 0), [(1, w)])
        | None => None
        end
    end.
Proof.
  unfold lin_matcher, its_capture. cbn [lin]. unfold eat_run, skip_span.
  cbn [m_rest m_prev m_pos m_caps]. change (in_class CWord) with is_word.
  destruct (span is_word x) as [[|c w] r]; [reflexivity|].
  cbn [fst snd]. unfold eat_lit, set_group.
  cbn [m_rest m_prev m_pos m_caps].
  now destruct (strip l r).
Qed.

Lemma capture_nonword (l : text) (p : option char) (y : char) (s : text) :
  is_word y = false -> lin_matcher (its_capture l) p (y :: s) = None.
Proof. intros Hy. rewrite capture_eval. simpl. now rewrite Hy. Qed.

(** A word whose continuation does not begin with the literal is
    copied by the scan. *)
Lemma capture_run_miss (l : text) (t : template) (w r : text)
  (p : option char) :
  forallb is_word w = true ->
  match r with c :: _ => is_word c = false | [] => True end ->
  strip l r = None ->
  scan (lin_matcher (its_capture l)) t p (w ++ r) 0
  = w ++ scan (lin_matcher (its_capture l)) t (ctx p w) r 0.
Proof.
  intros Hw Hr Hl. apply scan_miss. intros u1 u2 -> Hu2.
  rewrite forallb_app in Hw. apply andb_true_iff in Hw as [_ Hw].
  rewrite capture_eval, span_run by assumption. cbn [fst snd].
  rewrite Hl. now destruct u2.
Qed.

Lemma capture_strip_scan (h : char) (e : text) (l : text) (t : template) :
  (forall w, expand t [(1, w)] = w ++ h :: e) ->
  forall x,
    existsb (N.eqb h) x = false ->
    (x = [] \/ is_word (last x 0%N) = false) ->
    forall s p,
      strip x s = None ->
      strip x (scan (lin_matcher (its_capture l)) t p s 0) = None.
Proof.
  intros Ht. induction x as [|x0 x IH]; intros Hh Hlast s p H;
    [discriminate|].
  assert (Hx : existsb (N.eqb h) x = false
               /\ (x = [] \/ is_word (last x 0%N) = false)).
  { simpl in Hh. apply orb_false_iff in Hh as [_ Hh]. split; [exact Hh|].
    destruct x as [|x1 x]; [now left|right].
    destruct Hlast as [Hlast|Hlast]; [discriminate|exact Hlast]. }
  destruct Hx as [Hh' Hlast'].
  destruct s as [|c s]; [reflexivity|]. cbn [scan].
  assert (Hcopy :
    strip (x0 :: x)
      (c :: scan (lin_matcher (its_capture l)) t (Some c) s 0) = None).
  { simpl in *. destruct (x0 =? c)%N; [|reflexivity].
    now apply IH. }
  destruct (lin_matcher (its_capture l) p (c :: s))
    as [[[|n] caps]|] eqn:E; try exact Hcopy.
  rewrite capture_eval in E.
  pose proof (span_all is_word (c :: s)) as Hall.
  destruct (fst (span is_word (c :: s))) as [|c1 w] eqn:Ew; [discriminate|].
  destruct (strip l _); [|discriminate].
  inversion E; subst. rewrite Ht.
  pose proof (strip_behind_word h (c1 :: w)
                (e ++ scan (lin_matcher (its_capture l)) t (Some c) s n))
    as S.
  specialize (S ltac:(discriminate) Hall (x0 :: x) [] Hh Hlast).
  simpl app in S. rewrite <- app_assoc. simpl app. exact S.
Qed.

Lemma capture_miss (h : char) (l e : text) (t : template) :
  is_word h = false -> existsb (N.eqb h) l = false ->
  is_word (last (h :: l) 0%N) = false ->
  (forall w, expand t [(1, w)] = w ++ h :: e) ->
  forall prev c s,
    lin_matcher (its_capture (h :: l)) prev (c :: s) = None ->
    lin_matcher (its_capture (h :: l)) prev
      (c :: scan (lin_matcher (its_capture (h :: l))) t (Some c) s 0)
    = None.
Proof.
  intros Hh Hl Hlast Ht prev c s H.
  destruct (is_word c) eqn:Hc; [|now apply capture_nonword].
  rewrite capture_eval in H. rewrite capture_eval.
  pose proof (span_app is_word s) as Es.
  pose proof (span_all is_word s) as Hall.
  pose proof (span_stop is_word s) as Hstop.
  simpl span in H. rewrite Hc in H.
  destruct (span is_word s) as [w r]. cbn [fst snd] in *.
  destruct (strip (h :: l) r) eqn:Er; [discriminate|].
  rewrite Es, capture_run_miss by assumption.
  assert (Hout :
    exists r', scan (lin_matcher (its_capture (h :: l))) t
                 (ctx (Some c) w) r 0 = r'
               /\ match r' with y :: _ => is_word y = false | [] => True end
               /\ strip (h :: l) r' = None).
  { destruct r as [|y r]; [exists []; repeat split|].
    cbn [scan]. rewrite capture_nonword by exact Hstop.
    eexists. split; [reflexivity|]. split; [exact Hstop|].
    simpl in *. destruct (h =? y)%N; [|reflexivity].
    apply (capture_strip_scan h e (h :: l) t Ht); try assumption.
    destruct l as [|l0 l]; [now left|right; exact Hlast]. }
  destruct Hout as [r' [-> [Hr' Hs']]].
  simpl span. rewrite Hc, span_run by assumption.
  cbn [fst snd]. now rewrite Hs'.
Qed.

Lemma capture_hit (h : char) (l e : text) (t : template) :
  is_word h = false ->
  (forall w, expand t [(1, w)] = w ++ h :: e) ->
  (forall y, strip (h :: l) (h :: e ++ y) = None) ->
  (forall y p,
     search (lin_matcher (its_capture (h :: l))) p (h :: e ++ y)
     = search (lin_matcher (its_capture (h :: l))) None y) ->
  forall prev x rest caps y,
    x <> [] ->
    lin_matcher (its_capture (h :: l)) prev (x ++ rest)
    = Some (length x, caps) ->
    search (lin_matcher (its_capture (h :: l))) (ctx prev x) y = false ->
    search (lin_matcher (its_capture (h :: l))) prev (expand t caps ++ y)
    = false.
Proof.
  intros Hh Ht Hstrip Hsearch prev x rest caps y _ E H.
  rewrite capture_eval in E.
  pose proof (span_all is_word (x ++ rest)) as Hall.
  destruct (fst (span is_word (x ++ rest))) as [|c1 w]; [discriminate|].
  destruct (strip (h :: l) _); [|discriminate].
  inversion E; subst caps. rewrite Ht, <- app_assoc.
  change ((h :: e) ++ y) with (h :: e ++ y).
  rewrite search_miss.
  - rewrite Hsearch. rewrite <- H.
    apply search_prev_free.
    apply (lin_matcher_prev_free (its_capture (h :: l)) eq_refl).
  - intros u1 u2 Hu Hu2. rewrite Hu, forallb_app in Hall.
    apply andb_true_iff in Hall as [_ Hall].
    rewrite capture_eval, span_run by assumption.
    cbn [fst snd]. rewrite Hstrip. now destruct u2.
Qed.

Lemma name_twice (s : text) :
  apply_rule rule_name (apply_rule rule_name s) = apply_rule rule_name s.
Proof.
  rewrite !(apply_rule_lin rule_name its_name) by reflexivity.
  unfold its_name. change (txt "[name] ||") with (91%N :: txt "name] ||").
  apply scan_twice.
  - intros p s' caps. apply lin_matcher_nonempty. simpl. lia.
  - intros p s' n caps. apply lin_matcher_fits.
  - apply (capture_hit 91%N (txt "name] ||") (txt "name] ??"));
      try reflexivity.
    intros y p. cbn. apply search_prev_free.
    apply (lin_matcher_prev_free (its_capture _) eq_refl).
  - apply (capture_miss 91%N (txt "name] ||") (txt "name] ??"));
      reflexivity.
Qed.

Lemma value_twice (s : text) :
  apply_rule rule_value (apply_rule rule_value s) = apply_rule rule_value s.
Proof.
  rewrite !(apply_rule_lin rule_value its_value) by reflexivity.
  unfold its_value. change (txt "[value] ||") with (91%N :: txt "value] ||").
  apply scan_twice.
  - intros p s' caps. apply lin_matcher_nonempty. simpl. lia.
  - intros p s' n caps. apply lin_matcher_fits.
  - apply (capture_hit 91%N (txt "value] ||") (txt "name] ??"));
      try reflexivity.
    intros y p. cbn. apply search_prev_free.
    apply (lin_matcher_prev_free (its_capture _) eq_refl).
  - apply (capture_miss 91%N (txt "value] ||") (txt "name] ??"));
      reflexivity.
Qed.

Lemma unused_word_prev (p : option char) (x : text) :
  word_opt p = true -> lin_matcher its_unused p x = None.
Proof.
  intros Hp. destruct x as [|c x].
  - unfold lin_matcher, its_unused. cbn [lin m_prev m_rest].
    now destruct (at_boundary p []).
  - destruct (is_word c) eqn:Hc; [|now apply unused_nonword_head].
    unfold lin_matcher, its_unused. cbn [lin m_prev m_rest].
    unfold at_boundary. simpl. now rewrite Hp, Hc.
Qed.

(** An attempt of [\bunused(\w+)\b] sees the word at the position: it
    gives on a text what it gives on the text's leading word. *)
Lemma unused_run (p : option char) (x : text) :
  lin_matcher its_unused p x
  = lin_matcher its_unused p (fst (span is_word x)).
Proof.
  pose proof (span_app is_word x) as E.
  pose proof (span_stop is_word x) as Hstop.
  destruct (span is_word x) as [w r]. cbn [fst snd] in *. subst x.
  destruct r as [|y r]; [now rewrite app_nil_r|].
  apply lin_matcher_block, unused_blocks, Hstop.
Qed.

Lemma unused_hit (prev : option char) (z : text) (n : nat)
  (caps : captures) :
  lin_matcher its_unused prev z = Some (n, caps) ->
  exists w,
    w <> [] /\ forallb is_word w = true
    /\ fst (span is_word z) = txt "unused" ++ w
    /\ n = length (txt "unused" ++ w) /\ caps = [(1, w)].
Proof.
  unfold lin_matcher, its_unused. cbn [lin m_prev m_rest]. intros H.
  destruct (at_boundary prev z); [|discriminate].
  unfold eat_lit in H. cbn [m_rest] in H.
  destruct (strip (txt "unused") z) as [r|] eqn:Ez; [|discriminate].
  apply strip_Some in Ez. subst z.
  unfold eat_run, skip_span in H. cbn [m_rest m_prev m_pos m_caps] in H.
  change (in_class CWord) with is_word in H.
  pose proof (span_all is_word r) as Hall.
  destruct (span is_word r) as [[|c w] r'] eqn:Er; [discriminate|].
  cbn [fst] in H, Hall. unfold set_group in H.
  cbn [m_prev m_rest m_pos m_caps] in H.
  destruct (at_boundary _ _); [|discriminate].
  inversion H; subst. exists (c :: w).
  split; [discriminate|]. split; [exact Hall|].
  split; [|split; [rewrite length_app; simpl; lia|reflexivity]].
  simpl. now rewrite Er.
Qed.

Lemma unused_other_head (p : option char) (c : char) (s : text) :
  (117 =? c)%N = false -> lin_matcher its_unused p (c :: s) = None.
Proof.
  intros Hc. unfold lin_matcher, its_unused.
  change (txt "unused") with (117%N :: txt "nused").
  cbn [lin m_prev m_rest]. destruct (at_boundary _ _); [|reflexivity].
  unfold eat_lit. cbn [m_rest strip]. now rewrite Hc.
Qed.

Lemma app_same_length (x u r1 r2 : text) :
  x ++ r1 = u ++ r2 -> length x = length u -> x = u.
Proof.
  revert u; induction x as [|a x IH]; intros [|b u] E L;
    try discriminate; [reflexivity|].
  simpl in *. injection E as -> E. f_equal. apply IH; [exact E|lia].
Qed.

Lemma ctx_nonempty (q q' : option char) (w : text) :
  w <> [] -> ctx q w = ctx q' w.
Proof. destruct w; [congruence|reflexivity]. Qed.

Lemma unused_settled (s : text) :
  search (lin_matcher its_unused) None
    (scan (lin_matcher its_unused) (snd rule_unused) None s 0) = false.
Proof.
  apply (scan_settled (lin_matcher its_unused) (snd rule_unused))
    with (s := s) (prev := None) (skip := 0); [| | | |simpl; lia].
  - intros p s' caps. apply lin_matcher_nonempty. simpl. lia.
  - intros p s' n caps. apply lin_matcher_fits.
  - intros prev x rest caps y _ E H.
    destruct (unused_hit _ _ _ _ E) as [w [Hw [Hall [Erun [En ->]]]]].
    assert (Ex : x = txt "unused" ++ w).
    { pose proof (span_app is_word (x ++ rest)) as Ez.
      rewrite Erun in Ez. exact (app_same_length _ _ _ _ Ez En). }
    subst x. rewrite ctx_app in H.
    rewrite (ctx_nonempty _ (Some 95%N) w Hw) in H.
    unfold rule_unused. cbn [snd expand group Nat.eqb].
    rewrite app_nil_r. change (txt "_" ++ w) with (95%N :: w).
    simpl app.
    rewrite search_cons, unused_other_head by reflexivity.
    rewrite search_miss; [exact H|].
    intros u1 u2 Hu Hu2. apply unused_word_prev.
    destruct u1 as [|c u1]; [reflexivity|].
    apply word_ctx; [discriminate|].
    rewrite Hu, forallb_app in Hall.
    now apply andb_true_iff in Hall as [Hall _].
  - intros prev c s' H.
    rewrite unused_run in H. rewrite unused_run.
    destruct (is_word c) eqn:Hc; [|simpl in *; now rewrite Hc in *].
    pose proof (span_app is_word s') as Es.
    pose proof (span_all is_word s') as Hall.
    pose proof (span_stop is_word s') as Hstop.
    simpl span in H. rewrite Hc in H.
    destruct (span is_word s') as [w r]. cbn [fst snd] in *.
    rewrite Es at 1. rewrite scan_miss.
    + assert (Hout :
        match scan (lin_matcher its_unused) (snd rule_unused)
                (ctx (Some c) w) r 0
        with y :: _ => is_word y = false | [] => True end).
      { destruct r as [|y r]; [exact I|]. cbn [scan].
        now rewrite unused_nonword_head by exact Hstop. }
      simpl span. rewrite Hc, span_run by assumption. exact H.
    + intros u1 u2 Hu Hu2. apply unused_word_prev.
      destruct u1 as [|c1 u1]; [exact Hc|].
      apply word_ctx; [discriminate|].
      rewrite Hu, forallb_app in Hall.
      now apply andb_true_iff in Hall as [Hall _].
Qed.

Lemma unused_twice (s : text) :
  apply_rule rule_unused (apply_rule rule_unused s)
  = apply_rule rule_unused s.
Proof.
  rewrite !(apply_rule_lin rule_unused its_unused) by reflexivity.
  apply scan_no_match, unused_settled.
Qed.

Lemma search_ext (m m' : matcher) :
  (forall p s, m p s = m' p s) ->
  forall s p, search m p s = search m' p s.
Proof.
  intros E. induction s as [|c s IH]; intros p; simpl; rewrite E;
    [reflexivity|].
  destruct (m' p (c :: s)); [reflexivity|apply IH].
Qed.

(** X8: in the text the pipeline returns, the last pattern,
    [\bunused(\w+)\b], has no match left, whatever the input was. *)
Theorem no_unused_left (s : text) :
  search (match_at (fst rule_unused)) None (fix_text s) = false.
Proof.
  unfold fix_text, rules, nullable_idents.
  cbn [List.map app fold_left].
  rewrite (apply_rule_lin rule_unused its_unused) by reflexivity.
  rewrite (search_ext _ (lin_matcher its_unused)).
  - apply unused_settled.
  - intros p x. now apply (match_at_compile its_unused).
Qed.

(** X5: each rule other than the six negations is idempotent on every
    text: applied to its own output it changes nothing.  Each negation
    rule is not: on [!!name] it removes one [!] per application. *)
Theorem settled_rules_idempotent :
  (forall (rl : rule) (s : text),
     In rl settled_rules ->
     apply_rule rl (apply_rule rl s) = apply_rule rl s)
  /\ (forall ident : text,
        In ident nullable_idents ->
        apply_rule (rule_not ident) (txt "!!" ++ ident)
        = txt "!" ++ ident ++ txt " == null"
        /\ apply_rule (rule_not ident) (txt "!" ++ ident ++ txt " == null")
           = ident ++ txt " == null == null").
Proof.
  split.
  - intros rl s H. unfold settled_rules in H.
    destruct H as [<-|[<-|[<-|[<-|[<-|[]]]]]].
    + apply name_twice.
    + apply value_twice.
    + apply empty_object_twice.
    + apply console_twice.
    + apply unused_twice.
  - intros ident H. unfold nullable_idents in H.
    repeat (destruct H as [<-|H]; [split; vm_compute; reflexivity|]).
    destruct H.
Qed.

(** ** Texts that cannot match *)

Lemma occurs_cons (l : text) (c : char) (s : text) :
  occurs l s = true -> occurs l (c :: s) = true.
Proof. intros H. simpl. now destruct (strip l (c :: s)). Qed.

Lemma occurs_app_r (l a b : text) :
  occurs l b = true -> occurs l (a ++ b) = true.
Proof.
  intros H. induction a as [|c a IH]; [exact H|].
  now apply occurs_cons.
Qed.

Lemma occurs_here (l s r : text) : strip l s = Some r -> occurs l s = true.
Proof. intros H. destruct s; simpl; now rewrite H. Qed.

(** A successful attempt has every literal of the pattern in the text
    it started on. *)
Lemma lin_needs (l : text) (its : list item) :
  In (ILit l) its ->
  forall st st', lin its st = Some st' -> occurs l (m_rest st) = true.
Proof.
  induction its as [|it its IH]; intros Hin st st' H; [destruct Hin|].
  assert (Hstep : forall st1 a,
            m_rest st = a ++ m_rest st1 -> lin its st1 = Some st' ->
            In (ILit l) its -> occurs l (m_rest st) = true).
  { intros st1 a -> H1 Hin1. apply occurs_app_r. exact (IH Hin1 st1 st' H1). }
  destruct Hin as [->|Hin].
  - cbn [lin] in H. unfold eat_lit in H.
    destruct (strip l (m_rest st)) eqn:E; [|discriminate].
    now apply occurs_here in E.
  - destruct it as [l0|cl|n cl|]; cbn [lin] in H.
    + unfold eat_lit in H.
      destruct (strip l0 (m_rest st)) as [r|] eqn:E; [|discriminate].
      apply strip_Some in E.
      exact (Hstep (MState (ctx (m_prev st) l0) r
                      (length l0 + m_pos st) (m_caps st)) l0 E H Hin).
    + apply (Hstep (skip_span cl st)
               (fst (span (in_class cl) (m_rest st)))); [|exact H|exact Hin].
      unfold skip_span. pose proof (span_app (in_class cl) (m_rest st)) as E.
      now destruct (span (in_class cl) (m_rest st)).
    + unfold eat_run in H.
      destruct (fst (span (in_class cl) (m_rest st))) as [|c w] eqn:Ew;
        [discriminate|].
      apply (Hstep (set_group n (c :: w) (skip_span cl st))
               (fst (span (in_class cl) (m_rest st)))); [|exact H|exact Hin].
      unfold set_group, skip_span. cbn [m_rest].
      pose proof (span_app (in_class cl) (m_rest st)) as E.
      now destruct (span (in_class cl) (m_rest st)).
    + destruct (at_boundary _ _); [|discriminate].
      exact (Hstep st [] eq_refl H Hin).
Qed.

Lemma search_needs (l : text) (its : list item) :
  In (ILit l) its ->
  forall s p, occurs l s = false -> search (lin_matcher its) p s = false.
Proof.
  intros Hin. induction s as [|c s IH]; intros p H.
  - simpl. unfold lin_matcher.
    destruct (lin its _) as [st|] eqn:E; [|reflexivity].
    apply (lin_needs l its Hin) in E. cbn [m_rest] in E.
    destruct (eq_true_false_abs _ E H).
  - rewrite search_cons. unfold lin_matcher at 1.
    destruct (lin its _) as [st|] eqn:E.
    + apply (lin_needs l its Hin) in E. cbn [m_rest] in E.
      destruct (eq_true_false_abs _ E H).
    + apply IH. simpl in H. now destruct (strip l (c :: s)).
Qed.

Lemma rule_needs (rl : rule) (its : list item) (l s : text) :
  fst rl = compile its -> guarded its = true -> In (ILit l) its ->
  occurs l s = false -> apply_rule rl s = s.
Proof.
  intros E G Hin H. rewrite (apply_rule_lin rl its) by assumption.
  apply scan_no_match. now apply (search_needs l).
Qed.

(** X6: a text in which none of the eleven trigger tokens occurs
    passes through the pipeline unchanged. *)
Theorem no_token_no_change (s : text) :
  forallb (fun tok => negb (occurs tok s)) trigger_tokens = true ->
  fix_text s = s.
Proof.
  intros H. unfold trigger_tokens in H. cbn [forallb] in H.
  repeat (apply andb_true_iff in H as [?H H]).
  repeat match goal with
         | K : negb _ = true |- _ => apply negb_true_iff in K
         end.
  unfold fix_text, rules, nullable_idents.
  cbn [List.map app fold_left].
  rewrite (rule_needs rule_name its_name (txt "[name] ||"));
    [|reflexivity|reflexivity|right; now left|assumption].
  rewrite (rule_needs rule_value its_value (txt "[value] ||"));
    [|reflexivity|reflexivity|right; now left|assumption].
  rewrite (rule_needs (rule_not (txt "text")) (its_not (txt "text"))
             (txt "!text"));
    [|reflexivity|reflexivity|now left|assumption].
  rewrite (rule_needs (rule_not (txt "result")) (its_not (txt "result"))
             (txt "!result"));
    [|reflexivity|reflexivity|now left|assumption].
  rewrite (rule_needs (rule_not (txt "response")) (its_not (txt "response"))
             (txt "!response"));
    [|reflexivity|reflexivity|now left|assumption].
  rewrite (rule_needs (rule_not (txt "jsonData")) (its_not (txt "jsonData"))
             (txt "!jsonData"));
    [|reflexivity|reflexivity|now left|assumption].
  rewrite (rule_needs (rule_not (txt "instance")) (its_not (txt "instance"))
             (txt "!instance"));
    [|reflexivity|reflexivity|now left|assumption].
  rewrite (rule_needs (rule_not (txt "options")) (its_not (txt "options"))
             (txt "!options"));
    [|reflexivity|reflexivity|now left|assumption].
  rewrite (rule_needs rule_empty_object its_empty_object (txt "if"));
    [|reflexivity|reflexivity|now left|assumption].
  rewrite (rule_needs rule_console its_console (txt "console.log("));
    [|reflexivity|reflexivity|now left|assumption].
  apply (rule_needs rule_unused its_unused (txt "unused"));
    [reflexivity|reflexivity|right; now left|assumption].
Qed.

(** ** No [console.log(] survives the pipeline *)

Lemma occurs_strip (l s : text) : occurs l s = false -> strip l s = None.
Proof. destruct s; simpl; now destruct (strip l _). Qed.

Lemma occurs_tail (l a b : text) :
  occurs l (a ++ b) = false -> occurs l b = false.
Proof.
  intros H. destruct (occurs l b) eqn:E; [|reflexivity].
  now rewrite (occurs_app_r l a b E) in H.
Qed.

Lemma occurs_build (l y : text) :
  forall u,
    (forall u1 u2, u = u1 ++ u2 -> u2 <> [] -> strip l (u2 ++ y) = None) ->
    occurs l y = false -> occurs l (u ++ y) = false.
Proof.
  induction u as [|c u IH]; intros H Hy; [exact Hy|].
  assert (E : strip l (c :: u ++ y) = None)
    by (apply (H [] (c :: u)); [reflexivity|discriminate]).
  simpl app. cbn [occurs]. rewrite E.
  apply IH; [|exact Hy]. intros u1 u2 -> Hu2.
  apply (H (c :: u1) u2); [reflexivity|exact Hu2].
Qed.

Lemma search_lit_occurs (l : text) :
  forall s p, search (lin_matcher [ILit l]) p s = occurs l s.
Proof.
  assert (E : forall p s,
            lin_matcher [ILit l] p s
            = match strip l s with
              | Some _ => Some (length l + 0, [])
              | None => None
              end).
  { intros p s. unfold lin_matcher. cbn [lin]. unfold eat_lit.
    cbn [m_rest]. now destruct (strip l s). }
  induction s as [|c s IH]; intros p.
  - simpl. rewrite E. now destruct (strip l []).
  - rewrite search_cons, E. cbn [occurs].
    destruct (strip l (c :: s)); [reflexivity|apply IH].
Qed.

(** A literal without underscore that does not begin the text does
    not begin what the last rule makes of the text. *)
Lemma unused_keeps_strip (x : text) :
  existsb (N.eqb 95) x = false ->
  forall u s p,
    strip x (u ++ s) = None ->
    strip x (u ++ scan (lin_matcher its_unused) (snd rule_unused) p s 0)
    = None.
Proof.
  induction x as [|x0 x IH]; intros Hx u s p H; [discriminate|].
  cbn [existsb] in Hx. apply orb_false_iff in Hx as [Hx0 Hx].
  destruct u as [|u0 u].
  - cbn [app] in *. destruct s as [|c s]; [reflexivity|]. cbn [scan].
    destruct (lin_matcher its_unused p (c :: s)) as [[[|n] caps]|].
    + cbn [strip] in *. destruct (x0 =? c)%N; [|reflexivity].
      apply (IH Hx [] s (Some c) H).
    + unfold rule_unused. cbn [snd expand].
      change (txt "_") with [95%N]. cbn [app strip].
      now rewrite N.eqb_sym, Hx0.
    + cbn [strip] in *. destruct (x0 =? c)%N; [|reflexivity].
      apply (IH Hx [] s (Some c) H).
  - cbn [app strip] in *. destruct (x0 =? u0)%N; [|reflexivity].
    now apply IH.
Qed.

Lemma unused_keeps_absent (x : text) :
  existsb (N.eqb 95) x = false -> x <> [] ->
  forall s prev skip,
    skip <= length s ->
    occurs x s = false ->
    occurs x (scan (lin_matcher its_unused) (snd rule_unused) prev s skip)
    = false.
Proof.
  intros Hx Hne. induction s as [|c s IH]; intros prev skip Hskip H.
  - simpl. destruct x; [congruence|reflexivity].
  - assert (Hs : occurs x s = false) by exact (occurs_tail x [c] s H).
    destruct skip as [|n]; [|simpl in Hskip; apply IH; [lia|exact Hs]].
    assert (Hcopy :
      occurs x
        (c :: scan (lin_matcher its_unused) (snd rule_unused) (Some c) s 0)
      = false).
    { cbn [occurs].
      pose proof (unused_keeps_strip x Hx [c] s (Some c)
                    (occurs_strip _ _ H)) as K.
      cbn [app] in K. rewrite K. apply (IH _ 0); [lia|exact Hs]. }
    destruct (lin_matcher its_unused prev (c :: s))
      as [[[|n] caps]|] eqn:E;
      [cbn [scan]; rewrite E; exact Hcopy| |cbn [scan]; rewrite E;
                                            exact Hcopy].
    destruct (unused_hit _ _ _ _ E) as [w [Hw [Hall [Erun [En ->]]]]].
    pose proof (span_app is_word (c :: s)) as Ez. rewrite Erun in Ez.
    remember (snd (span is_word (c :: s))) as r eqn:Er. clear Er Erun.
    assert (Es : c = 117%N /\ s = (txt "nused" ++ w) ++ r).
    { change (txt "unused" ++ w) with (117%N :: (txt "nused" ++ w)) in Ez.
      cbn [app] in Ez. injection Ez as Ec Es. now split. }
    destruct Es as [Ec Es].
    rewrite Ez, En in E. rewrite Ez in H |- *.
    rewrite (scan_hit _ _ prev (txt "unused" ++ w) r [(1, w)]);
      [|simpl; discriminate|exact E].
    assert (E0 : forall y, strip x (95%N :: y) = None).
    { intros y. destruct x as [|x0 x]; [congruence|]. cbn [existsb] in Hx.
      apply orb_false_iff in Hx as [Hx0 _]. cbn [strip].
      now rewrite N.eqb_sym, Hx0. }
    assert (Ex : expand (snd rule_unused) [(1, w)] = 95%N :: w).
    { unfold rule_unused. cbn [snd expand group Nat.eqb].
      now rewrite app_nil_r. }
    rewrite Ex. cbn [app occurs]. rewrite E0.
    apply occurs_build.
    + intros u1 u2 Hu Hu2.
      apply (unused_keeps_strip x Hx u2 r). apply occurs_strip.
      apply (occurs_tail x (txt "unused" ++ u1)).
      rewrite Hu in H. now rewrite <- !app_assoc in *.
    + assert (Ek :
        scan (lin_matcher its_unused) (snd rule_unused)
          (ctx prev (txt "unused" ++ w)) r 0
        = scan (lin_matcher its_unused) (snd rule_unused) (Some c) s
            (length (txt "nused" ++ w))).
      { rewrite Es, scan_skip, Ec. f_equal. }
      rewrite Ek. apply IH; [|exact Hs].
      rewrite Es, (length_app (txt "nused" ++ w) r). apply Nat.le_add_r.
Qed.

(** X9: the text the pipeline returns contains no [console.log(],
    whatever the input was: the tenth rule replaces every occurrence
    and the last rule, which only removes [unused] and adds [_], cannot
    build a new one. *)
Theorem no_console_log_left (s : text) :
  occurs (txt "console.log(") (fix_text s) = false.
Proof.
  unfold fix_text, rules, nullable_idents.
  cbn [List.map app fold_left].
  rewrite (apply_rule_lin rule_unused its_unused) by reflexivity.
  apply unused_keeps_absent; [reflexivity|discriminate|simpl; lia|].
  rewrite (apply_rule_lin rule_console its_console) by reflexivity.
  rewrite <- (search_lit_occurs (txt "console.log(") _ None).
  apply console_settled.
Qed.

(** ** The negation rules applied twice *)

Lemma not_matcher (ident : text) (prev : option char) (s : text) :
  lin_matcher (its_not ident) prev s
  = match strip (33%N :: ident) s with
    | Some post =>
        if at_boundary (ctx prev (33%N :: ident)) post
        then Some (S (length ident), [])
        else None
    | None => None
    end.
Proof.
  unfold lin_matcher, its_not. change (txt "!" ++ ident) with (33%N :: ident).
  cbn [lin]. unfold eat_lit. cbn [m_rest m_prev m_pos m_caps].
  destruct (strip (33%N :: ident) s) as [post|]; [|reflexivity].
  cbn [m_rest m_prev]. destruct (at_boundary _ _); [|reflexivity].
  cbn [m_pos m_caps]. simpl length. now rewrite Nat.add_0_r.
Qed.

Lemma scan_first_hit (m : matcher) (t : template) :
  forall s p,
    scan m t p s 0 = s
    \/ exists u r n caps tail,
         s = u ++ r
         /\ m (ctx p u) r = Some (S n, caps)
         /\ scan m t p s 0 = u ++ expand t caps ++ tail.
Proof.
  induction s as [|c s IH]; intros p; [now left|].
  cbn [scan]. destruct (m p (c :: s)) as [[[|n] caps]|] eqn:E.
  - destruct (IH (Some c)) as [->|[u [r [n [caps' [tail [Hs [Hm Ho]]]]]]]];
      [now left|].
    right. exists (c :: u), r, n, caps', tail.
    rewrite ctx_cons. now rewrite Hs at 1; rewrite Ho.
  - right. exists [], (c :: s), n, caps, (scan m t (Some c) s n).
    now repeat split.
  - destruct (IH (Some c)) as [->|[u [r [n [caps' [tail [Hs [Hm Ho]]]]]]]];
      [now left|].
    right. exists (c :: u), r, n, caps', tail.
    rewrite ctx_cons. now rewrite Hs at 1; rewrite Ho.
Qed.

Lemma app_longer (A : Type) (a b c : list A) :
  a <> [] -> b = a ++ b ++ c -> False.
Proof.
  intros Ha E. apply (f_equal (@length A)) in E.
  rewrite !length_app in E. destruct a; [congruence|]. simpl in E. lia.
Qed.

Lemma hd_word (w y : text) :
  w <> [] -> forallb is_word w = true -> word_opt (hd_error (w ++ y)) = true.
Proof.
  destruct w as [|c w]; [congruence|]. intros _ H. simpl in *.
  now apply andb_true_iff in H as [H _].
Qed.

(** [!ident\b] for a name made of word characters: the idiom, not
    followed by a word character. *)
Lemma not_matcher_word (ident : text) (prev : option char) (s : text) :
  ident <> [] -> forallb is_word ident = true ->
  lin_matcher (its_not ident) prev s
  = match strip (33%N :: ident) s with
    | Some post =>
        if word_opt (hd_error post) then None
        else Some (S (length ident), [])
    | None => None
    end.
Proof.
  intros Hne Hword. rewrite not_matcher.
  destruct (strip (33%N :: ident) s) as [post|]; [|reflexivity].
  rewrite ctx_cons. unfold at_boundary.
  rewrite (word_ctx _ _ Hne Hword).
  now destruct (word_opt (hd_error post)).
Qed.

Lemma double_not_matcher (ident : text) (prev p : option char) (s : text) :
  ident <> [] -> forallb is_word ident = true ->
  lin_matcher (its_not (33%N :: ident)) prev (33%N :: s) = None ->
  lin_matcher (its_not ident) p s = None.
Proof.
  intros Hne Hword H. rewrite not_matcher in H.
  rewrite not_matcher_word by assumption.
  change (strip (33%N :: 33%N :: ident) (33%N :: s))
    with (strip (33%N :: ident) s) in H.
  destruct (strip (33%N :: ident) s) as [post|]; [|reflexivity].
  rewrite !ctx_cons in H. unfold at_boundary in H.
  rewrite (word_ctx _ _ Hne Hword) in H.
  now destruct (word_opt (hd_error post)).
Qed.

(** A failed attempt stays failed on the scanned text, unless the
    attempt stands on a [!] in front of the idiom. *)
Lemma not_miss_stays (ident : text) :
  ident <> [] -> existsb (N.eqb 33%N) ident = false ->
  forallb is_word ident = true ->
  forall prev c s,
    lin_matcher (its_not (33%N :: ident)) prev (c :: s) = None ->
    lin_matcher (its_not ident) prev (c :: s) = None ->
    lin_matcher (its_not ident) prev
      (c :: scan (lin_matcher (its_not ident)) (snd (rule_not ident))
              (Some c) s 0)
    = None.
Proof.
  intros Hne Hbang Hword prev c s H1 H2.
  destruct (N.eqb_spec 33%N c) as [<-|Hc];
    [|apply lin_matcher_head_mismatch; now apply N.eqb_neq].
  apply (double_not_matcher ident prev (Some 33%N) s Hne Hword) in H1.
  rewrite not_matcher_word in * by assumption.
  change (strip (33%N :: ident) (33%N :: ?x)) with (strip ident x) in *.
  destruct (strip ident (scan _ _ _ s 0)) as [post'|] eqn:Es';
    [|reflexivity].
  destruct (word_opt (hd_error post')) eqn:Eb; [reflexivity|exfalso].
  apply strip_Some in Es'.
  destruct (scan_first_hit (lin_matcher (its_not ident))
              (snd (rule_not ident)) s (Some 33%N))
    as [E|[u [r [n [caps [tail [Hs [Hm Ho]]]]]]]].
  - pose proof (eq_trans (eq_sym E) Es') as Es2.
    rewrite Es2, strip_app, Eb in H2. discriminate.
  - destruct u as [|c0 u0].
    + simpl in Hs, Hm. subst r.
      rewrite (not_matcher_word ident _ s Hne Hword) in Hm.
      rewrite Hm in H1. discriminate.
    + rewrite not_matcher_word in Hm by assumption.
      destruct (strip (33%N :: ident) r) as [post0|]; [|discriminate].
      destruct (word_opt (hd_error post0)); [discriminate|].
      inversion Hm; subst n caps. clear Hm.
      pose proof (eq_trans (eq_sym Ho) Es') as Ho2.
      unfold rule_not in Ho2. cbn [snd expand] in Ho2.
      rewrite app_nil_r, <- app_assoc in Ho2.
      apply app_eq_app in Ho2 as [l [[Hu Hp]|[Hi Hx]]].
      * destruct l as [|c' l'].
        -- simpl in Hp. subst post'.
           now rewrite (hd_word ident _ Hne Hword) in Eb.
        -- rewrite Hs, Hu, <- app_assoc, strip_app in H2.
           subst post'. simpl in Eb, H2. rewrite Eb in H2. discriminate.
      * apply app_eq_app in Hx as [l2 [[Hi2 Hp]|[Hl Hy]]].
        -- destruct l2 as [|c2 l2'].
           ++ rewrite app_nil_r in Hi2. subst l.
              apply (app_longer _ (c0 :: u0) ident []); [discriminate|].
              now rewrite app_nil_r.
           ++ assert (Hc2 : is_word c2 = true).
              { apply (proj1 (forallb_forall _ _) Hword).
                rewrite Hi2. apply in_or_app. right. now left. }
              subst post'. simpl in Eb. congruence.
        -- subst l. apply (app_longer _ (c0 :: u0) ident l2);
             [discriminate|exact Hi].
Qed.

(** [scan_settled] for a text in which a second pattern has no match:
    a failed attempt need stay failed only where the second pattern
    fails too. *)
Lemma scan_settled_when (m d : matcher) (t : template) :
  (forall p s caps, m p s <> Some (0, caps)) ->
  (forall p s n caps, m p s = Some (n, caps) -> n <= length s) ->
  (forall prev x rest caps y,
     x <> [] -> m prev (x ++ rest) = Some (length x, caps) ->
     search m (ctx prev x) y = false ->
     search m prev (expand t caps ++ y) = false) ->
  (forall prev c s,
     d prev (c :: s) = None ->
     m prev (c :: s) = None ->
     m prev (c :: scan m t (Some c) s 0) = None) ->
  forall s prev skip,
    skip <= length s ->
    search d prev s = false ->
    search m (ctx prev (firstn skip s)) (scan m t prev s skip) = false.
Proof.
  intros Hne Hfit Hhit Hmiss.
  induction s as [|c s IH]; intros prev skip Hskip Hd.
  - simpl in Hskip. replace skip with 0 by lia. simpl.
    destruct (m prev []) as [[n caps]|] eqn:E; [|reflexivity].
    pose proof (Hfit _ _ _ _ E) as Hn. simpl in Hn.
    replace n with 0 in E by lia. now apply Hne in E.
  - rewrite search_cons in Hd.
    destruct (d prev (c :: s)) eqn:Ed; [discriminate|].
    destruct skip as [|n].
    + cbn [firstn ctx scan].
      destruct (m prev (c :: s)) as [[[|n] caps]|] eqn:E.
      * now apply Hne in E.
      * pose proof (Hfit _ _ _ _ E) as Hn. simpl in Hn.
        apply (Hhit prev (c :: firstn n s) (skipn n s)).
        -- discriminate.
        -- simpl app. rewrite firstn_skipn. simpl length.
           rewrite length_firstn, Nat.min_l by lia. exact E.
        -- rewrite ctx_cons. apply IH; [lia|exact Hd].
      * rewrite search_cons, (Hmiss _ _ _ Ed E).
        apply (IH (Some c) 0); [lia|exact Hd].
    + simpl in Hskip. cbn [firstn scan]. rewrite ctx_cons.
      apply IH; [lia|exact Hd].
Qed.

Lemma not_head (ident : text) (p : option char) (c : char) (s : text) :
  (33 =? c)%N = false -> lin_matcher (its_not ident) p (c :: s) = None.
Proof. intros H. now apply lin_matcher_head_mismatch. Qed.

(** Where no [!] stands in front of the idiom, the negation rule
    leaves no match. *)
Lemma not_settled (ident : text) :
  ident <> [] -> existsb (N.eqb 33%N) ident = false ->
  forallb is_word ident = true ->
  forall s,
    search (lin_matcher (its_not (33%N :: ident))) None s = false ->
    search (lin_matcher (its_not ident)) None
      (scan (lin_matcher (its_not ident)) (snd (rule_not ident)) None s 0)
    = false.
Proof.
  intros Hne Hbang Hword s Hd.
  apply (scan_settled_when (lin_matcher (its_not ident))
           (lin_matcher (its_not (33%N :: ident)))
           (snd (rule_not ident)))
    with (s := s) (prev := None) (skip := 0); [| | | |simpl; lia|exact Hd].
  - intros p s' caps. apply lin_matcher_nonempty.
    unfold its_not. simpl. lia.
  - intros p s' n caps. apply lin_matcher_fits.
  - intros prev x rest caps y _ _ H. unfold rule_not.
    cbn [snd expand]. rewrite app_nil_r, <- app_assoc.
    rewrite search_miss.
    + rewrite search_miss.
      * rewrite (search_prev_free _
                   (lin_matcher_prev_free (its_not ident) eq_refl)
                   y _ (ctx prev x)). exact H.
      * intros u1 [|c u2] Hu Hu2; [congruence|].
        simpl app. apply not_head.
        assert (Hin : In c (txt " == null"))
          by (rewrite Hu; apply in_or_app; right; now left).
        simpl in Hin.
        repeat (destruct Hin as [<-|Hin]; [reflexivity|]). destruct Hin.
    + intros u1 [|c u2] Hu Hu2; [congruence|].
      simpl app. apply not_head.
      apply (existsb_eqb_In _ _ Hbang). rewrite Hu.
      apply in_or_app. right. now left.
  - intros prev c s'. now apply not_miss_stays.
Qed.

Lemma search_split (m : matcher) :
  forall s p,
    search m p s = true ->
    exists a b hit, s = a ++ b /\ m (ctx p a) b = Some hit.
Proof.
  induction s as [|c s IH]; intros p H.
  - simpl in H. destruct (m p []) as [hit|] eqn:E; [|discriminate].
    now exists [], [], hit.
  - rewrite search_cons in H.
    destruct (m p (c :: s)) as [hit|] eqn:E.
    + now exists [], (c :: s), hit.
    + destruct (IH _ H) as [a [b [hit [Hs Hm]]]].
      exists (c :: a), b, hit. rewrite ctx_cons. now rewrite Hs.
Qed.

Lemma search_at (m : matcher) (b : text) (hit : nat * captures) :
  forall a p, m (ctx p a) b = Some hit -> search m p (a ++ b) = true.
Proof.
  induction a as [|c a IH]; intros p H.
  - simpl in *. destruct b; simpl; now rewrite H.
  - simpl app. rewrite search_cons.
    destruct (m p (c :: a ++ b)); [reflexivity|].
    apply IH. now rewrite <- ctx_cons with (prev := p).
Qed.

(** Where every replacement is longer than what it replaces, a text
    with a match grows. *)
Lemma scan_longer (m : matcher) (t : template) :
  (forall p s caps, m p s <> Some (0, caps)) ->
  (forall p s n caps,
     m p s = Some (n, caps) ->
     n <= length s /\ n < length (expand t caps)) ->
  forall s prev skip,
    skip <= length s ->
    length s <= skip + length (scan m t prev s skip)
    /\ (search m (ctx prev (firstn skip s)) (skipn skip s) = true ->
        length s < skip + length (scan m t prev s skip)).
Proof.
  intros Hne Hfit. induction s as [|c s IH]; intros prev skip Hskip.
  - simpl in Hskip. replace skip with 0 by lia. simpl.
    split; [lia|]. destruct (m prev []) as [[n caps]|] eqn:E;
      [|discriminate].
    destruct (Hfit _ _ _ _ E) as [Hn _]. simpl in Hn.
    replace n with 0 in E by lia. now apply Hne in E.
  - destruct skip as [|n].
    + cbn [firstn skipn ctx scan]. rewrite search_cons.
      destruct (m prev (c :: s)) as [[[|n] caps]|] eqn:E.
      * now apply Hne in E.
      * destruct (Hfit _ _ _ _ E) as [Hn He]. simpl in Hn.
        destruct (IH (Some c) n) as [I1 _]; [lia|].
        rewrite length_app. simpl. split; [lia|]. intros _. lia.
      * destruct (IH (Some c) 0) as [I1 I2]; [lia|].
        simpl in *. split; [lia|]. intros H. apply I2 in H. lia.
    + simpl in Hskip. cbn [firstn skipn scan]. rewrite ctx_cons.
      destruct (IH (Some c) n) as [I1 I2]; [lia|].
      simpl. split; [lia|]. intros H. apply I2 in H. lia.
Qed.

Lemma not_grows (ident : text) (s : text) :
  search (lin_matcher (its_not ident)) None s = true ->
  scan (lin_matcher (its_not ident)) (snd (rule_not ident)) None s 0 <> s.
Proof.
  intros H E.
  destruct (fun A B =>
              scan_longer (lin_matcher (its_not ident))
                (snd (rule_not ident)) A B s None 0 (Nat.le_0_l _))
    as [_ L].
  - intros p s' caps. apply lin_matcher_nonempty.
    unfold its_not. simpl. lia.
  - intros p s' n caps Hm. split; [now apply lin_matcher_fits in Hm|].
    rewrite not_matcher in Hm.
    destruct (strip _ s'); [|discriminate].
    destruct (at_boundary _ _); [|discriminate].
    inversion Hm; subst. unfold rule_not. cbn [snd expand].
    rewrite app_nil_r, length_app. simpl. lia.
  - cbn [firstn skipn ctx Nat.add] in L. apply L in H.
    rewrite E in H. lia.
Qed.

(** Where a [!] stands in front of the idiom, the negation rule leaves
    the idiom behind that [!]: its own output holds a match. *)
Lemma not_unsettled (ident : text) :
  ident <> [] -> existsb (N.eqb 33%N) ident = false ->
  forallb is_word ident = true ->
  forall s,
    search (lin_matcher (its_not (33%N :: ident))) None s = true ->
    search (lin_matcher (its_not ident)) None
      (apply_rule (rule_not ident) s) = true.
Proof.
  intros Hne Hbang Hword s H.
  destruct (search_split _ _ _ H) as [a [b [hit [Hs Hm]]]].
  rewrite not_matcher in Hm.
  destruct (strip (33%N :: 33%N :: ident) b) as [post|] eqn:Eb;
    [|discriminate].
  apply strip_Some in Eb. rewrite !ctx_cons in Hm.
  unfold at_boundary in Hm. rewrite (word_ctx _ _ Hne Hword) in Hm.
  destruct (word_opt (hd_error post)) eqn:Ep; [discriminate|]. clear Hm.
  assert (Hlast : word_opt (ctx None (33%N :: ident)) = true)
    by (rewrite ctx_cons; now apply word_ctx).
  assert (E1 : s = (a ++ [33%N]) ++ txt "!" ++ ident ++ post).
  { rewrite Hs, Eb, <- app_assoc. reflexivity. }
  rewrite E1.
  rewrite (proj1 (not_rule ident Hbang Hlast (a ++ [33%N]) post) Ep).
  assert (E2 : apply_rule (rule_not ident) (a ++ [33%N])
               = apply_rule (rule_not ident) a ++ [33%N]).
  { rewrite !(@apply_rule_lin (rule_not ident) (its_not ident))
      by reflexivity.
    assert (B : blocks_tail 33%N (its_not ident) = true).
    { unfold its_not. change (txt "!" ++ ident) with (33%N :: ident).
      simpl. now rewrite Hbang. }
    assert (M : forall u1 u2 : text,
               [33%N] = u1 ++ u2 -> u2 <> [] ->
               lin_matcher (its_not ident) None (u2 ++ []) = None).
    { intros [|c u1] u2 Hu Hu2.
      - simpl in Hu. subst u2. rewrite not_matcher_word by assumption.
        destruct ident; [congruence|reflexivity].
      - inversion Hu as [[Hc Hn]]. destruct u1; [|discriminate].
        simpl in Hn. destruct (Hu2 (eq_sym Hn)). }
    exact (scan_no_occurrence (its_not ident) (snd (rule_not ident))
             33%N [] a [] B eq_refl M). }
  rewrite E2, <- app_assoc.
  apply (search_at _ _ (S (length ident), [])).
  rewrite not_matcher_word by assumption.
  change ([33%N] ++ ident ++ txt " == null" ++ ?x)
    with ((33%N :: ident) ++ txt " == null" ++ x).
  now rewrite strip_app.
Qed.

(** A negation rule applied twice gives what it gives applied once
    exactly on the texts in which [!!ident\b] has no match. *)
Lemma not_twice (ident : text) :
  ident <> [] -> existsb (N.eqb 33%N) ident = false ->
  forallb is_word ident = true ->
  forall s,
    apply_rule (rule_not ident) (apply_rule (rule_not ident) s)
    = apply_rule (rule_not ident) s
    <-> search (match_at (double_not ident)) None s = false.
Proof.
  intros Hne Hbang Hword s.
  assert (D : search (match_at (double_not ident)) None s
              = search (lin_matcher (its_not (33%N :: ident))) None s).
  { apply search_ext. intros p x.
    now apply (match_at_compile (its_not (33%N :: ident))). }
  rewrite D. split.
  - intros H.
    destruct (search (lin_matcher (its_not (33%N :: ident))) None s)
      eqn:E; [exfalso|reflexivity].
    apply (not_unsettled ident Hne Hbang Hword) in E.
    apply (not_grows ident _ E).
    now rewrite <- (@apply_rule_lin (rule_not ident) (its_not ident))
      by reflexivity.
  - intros H.
    rewrite (@apply_rule_lin (rule_not ident) (its_not ident)
               (apply_rule _ _)) by reflexivity.
    apply scan_no_match.
    rewrite (@apply_rule_lin (rule_not ident) (its_not ident))
      by reflexivity.
    now apply not_settled.
Qed.

Lemma strip_longer (a b : text) :
  forall s r, strip (a ++ b) s = Some r -> strip a s = Some (b ++ r).
Proof.
  induction a as [|h a IH]; intros s r H.
  - simpl in *. now rewrite (strip_Some _ _ _ H).
  - destruct s as [|c s]; [discriminate|]. simpl in *.
    destruct (h =? c)%N; [now apply IH|discriminate].
Qed.

Lemma occurs_longer (a b : text) :
  forall s, occurs a s = false -> occurs (a ++ b) s = false.
Proof.
  induction s as [|c s IH]; intros H.
  - simpl in *. destruct (strip (a ++ b) []) as [r|] eqn:E; [|reflexivity].
    apply strip_longer in E. now rewrite E in H.
  - cbn [occurs] in *.
    destruct (strip (a ++ b) (c :: s)) as [r|] eqn:E.
    + apply strip_longer in E. now rewrite E in H.
    + apply IH. now destruct (strip a (c :: s)).
Qed.

Lemma nullable_names (ident : text) :
  In ident nullable_idents ->
  ident <> [] /\ existsb (N.eqb 33%N) ident = false
  /\ forallb is_word ident = true.
Proof.
  intros H. unfold nullable_idents in H.
  repeat (destruct H as [<-|H];
          [split; [discriminate|split; reflexivity]|]).
  destruct H.
Qed.

Lemma no_bangs_no_double_not (ident s : text) :
  occurs (txt "!!") s = false ->
  search (match_at (double_not ident)) None s = false.
Proof.
  intros H.
  rewrite (search_ext _ (lin_matcher (its_not (33%N :: ident)))).
  - apply (search_needs (33%N :: 33%N :: ident)); [now left|].
    change (33%N :: 33%N :: ident) with (txt "!!" ++ ident).
    now apply occurs_longer.
  - intros p x. now apply (match_at_compile (its_not (33%N :: ident))).
Qed.


(** ** A rule applied behind another

    Most patterns of the rule set look for a literal in a context of
    one character on a side.  A rule that puts a text [e] for part of
    each of its matches keeps such a literal absent when [e] and the
    literal are apart and the characters at the two ends of [e] are no
    better context than those they replace. *)

Lemma tails_in (l u m : text) : l = u ++ m -> m <> [] -> In m (tails l).
Proof.
  revert l. induction u as [|c u IH]; intros l -> Hm.
  - destruct m; [congruence|]. now left.
  - simpl. right. now apply IH.
Qed.

Lemma may_end_spec (aft : option char -> bool) (m e z r : text) :
  may_end aft m e = false -> m ++ r = e ++ z -> aft (hd_error r) = false.
Proof.
  unfold may_end. intros H E.
  apply app_eq_app in E as [t [[-> _]|[-> ->]]].
  - exfalso. rewrite (strip_app e t) in H.
    destruct (strip (e ++ t) e) as [[|c x]|] eqn:S; try discriminate.
    apply strip_Some in S. apply (f_equal (@length char)) in S.
    rewrite !length_app in S. simpl in S. lia.
  - rewrite (strip_app m t) in H. now destruct t.
Qed.

Lemma apart_end (l e u m : text) (bef aft : option char -> bool) :
  apart l e bef aft = true -> l = u ++ m -> m <> [] ->
  may_end aft m e = false.
Proof.
  unfold apart. intros H Hl Hm. apply andb_true_iff in H as [H _].
  apply negb_true_iff.
  apply (proj1 (forallb_forall _ _) H). now apply (tails_in l u).
Qed.

Lemma splits_ok_spec (l : text) (bef aft : option char -> bool) :
  forall e2 prev e1 r,
    splits_ok l bef aft prev e2 = true ->
    e2 = e1 ++ r -> r <> [] ->
    bef (ctx (Some prev) e1) && may_end aft l r = false.
Proof.
  induction e2 as [|c e3 IH]; intros prev e1 r H He Hr.
  - destruct e1; [simpl in He; congruence|discriminate].
  - simpl in H. apply andb_true_iff in H as [H1 H2].
    apply negb_true_iff in H1. destruct e1 as [|c1 e1].
    + simpl in He. subst r. exact H1.
    + inversion He as [[Hc Hr']]. subst c1. rewrite ctx_cons.
      now apply (IH c e1 r).
Qed.

Lemma apart_inside (l e e1 r : text) (bef aft : option char -> bool)
  (p : option char) :
  apart l e bef aft = true -> e = e1 ++ r -> e1 <> [] -> r <> [] ->
  bef (ctx p e1) && may_end aft l r = false.
Proof.
  unfold apart. intros H He He1 Hr. apply andb_true_iff in H as [_ H].
  destruct e as [|c e2]; [destruct e1; [congruence|discriminate]|].
  destruct e1 as [|c1 e1]; [congruence|].
  inversion He as [[Hc He2]]. subst c1. rewrite ctx_cons.
  now apply (splits_ok_spec l bef aft e2 c e1 r).
Qed.

Lemma ctx_lit_none (l : text) (bef aft : option char -> bool)
  (p : option char) (e z : text) :
  bef p && may_end aft l e = false -> ctx_lit l bef aft p (e ++ z) = None.
Proof.
  intros H. unfold ctx_lit.
  destruct (strip l (e ++ z)) as [r|] eqn:Er; [|reflexivity].
  apply strip_Some in Er. destruct (bef p); [|reflexivity].
  simpl in H. symmetry in Er.
  now rewrite (may_end_spec aft l e z r H Er).
Qed.

Lemma ctx_lit_weaken (l : text) (bef aft : option char -> bool)
  (p p' : option char) (s : text) :
  (bef p' = true -> bef p = true) ->
  ctx_lit l bef aft p s = None -> ctx_lit l bef aft p' s = None.
Proof.
  unfold ctx_lit. intros H. destruct (strip l s) as [r|]; [|reflexivity].
  destruct (bef p'); [|reflexivity]. now rewrite H.
Qed.

Lemma ctx_lit_nil (l : text) (bef aft : option char -> bool)
  (p : option char) :
  l <> [] -> ctx_lit l bef aft p [] = None.
Proof. intros H. unfold ctx_lit. destruct l; [congruence|reflexivity]. Qed.

(** An attempt that fails in front of a match of the rule fails in
    front of the text put for it. *)
Lemma lit_window (l e x : text) (bef aft : option char -> bool) :
  apart l e bef aft = true -> e <> [] -> x <> [] ->
  (aft (hd_error e) = true -> aft (hd_error x) = true) ->
  forall u z z' p,
    ctx_lit l bef aft p (u ++ x ++ z) = None ->
    ctx_lit l bef aft p (u ++ e ++ z') = None.
Proof.
  intros Hap He Hx Haft u z z' p H. unfold ctx_lit in *.
  destruct (strip l (u ++ e ++ z')) as [r'|] eqn:E1; [|reflexivity].
  apply strip_Some in E1.
  assert (Hd : forall m,
            u = l ++ m -> r' = m ++ e ++ z' ->
            (if bef p && aft (hd_error r') then Some (length l, []) else None)
            = @None (nat * captures)).
  { intros m -> ->. rewrite <- app_assoc, strip_app in H.
    destruct m as [|c m]; [|exact H].
    simpl in *. destruct (bef p); [|reflexivity]. simpl in *.
    destruct e as [|e0 e]; [congruence|]. destruct x as [|x0 x]; [congruence|].
    simpl in *. destruct (aft (Some e0)); [|reflexivity].
    now rewrite Haft in H. }
  apply app_eq_app in E1 as [m [[Hu Hr]|[Hl Hr]]].
  - now apply (Hd m).
  - destruct m as [|c m].
    + rewrite app_nil_r in Hl. subst l. simpl in Hr.
      apply (Hd []); [now rewrite app_nil_r|now rewrite <- Hr].
    + assert (M : may_end aft (c :: m) e = false)
        by (apply (apart_end l e u (c :: m) bef aft Hap Hl); discriminate).
      symmetry in Hr.
      rewrite (may_end_spec aft (c :: m) e z' r' M Hr).
      now rewrite andb_false_r.
Qed.

Lemma search_none_at (m : matcher) (b : text) :
  forall a p, search m p (a ++ b) = false -> m (ctx p a) b = None.
Proof.
  induction a as [|c a IH]; intros p H.
  - simpl in *. destruct b; simpl in H; now destruct (m p _).
  - simpl app in H. rewrite search_cons in H.
    destruct (m p (c :: a ++ b)); [discriminate|].
    rewrite ctx_cons. now apply IH.
Qed.

Lemma search_tail (m : matcher) (b : text) :
  forall a p, search m p (a ++ b) = false -> search m (ctx p a) b = false.
Proof.
  induction a as [|c a IH]; intros p H; [exact H|].
  simpl app in H. rewrite search_cons in H.
  destruct (m p (c :: a ++ b)); [discriminate|].
  rewrite ctx_cons. now apply IH.
Qed.

Lemma ctx_last (p q : option char) (a b : text) :
  b <> [] -> ctx p (a ++ b) = ctx q b.
Proof.
  intros Hb. rewrite ctx_app. destruct b; [congruence|].
  now rewrite !ctx_cons.
Qed.

Section Keeps.

Variables (l e : text) (bef aft : option char -> bool).
Variables (mj : matcher) (tj : template).

Hypothesis l_nonempty : l <> [].
Hypothesis e_nonempty : e <> [].
Hypothesis l_e_apart : apart l e bef aft = true.

(** Every match of the rule is [a ++ x ++ b] with [x] non-empty, and
    what the rule puts for it is [a ++ e ++ b]. *)
Hypothesis shape :
  forall p z n caps,
    mj p z = Some (n, caps) ->
    n <= length z
    /\ exists a x b,
         firstn n z = a ++ x ++ b /\ x <> []
         /\ expand tj caps = a ++ e ++ b
         /\ (aft (hd_error e) = true -> aft (hd_error x) = true)
         /\ (bef (ctx None e) = true -> bef (ctx None x) = true).

Lemma keeps_ends (prev prev' : option char) (a x t : text) :
  x <> [] ->
  (bef (ctx None e) = true -> bef (ctx None x) = true) ->
  bef (ctx prev' (a ++ e ++ t)) = true ->
  bef (ctx prev (a ++ x ++ t)) = true.
Proof.
  intros Hx Hb. destruct t as [|c t].
  - rewrite !app_nil_r.
    rewrite (ctx_last prev' None a e e_nonempty).
    now rewrite (ctx_last prev None a x Hx).
  - rewrite !app_assoc.
    rewrite (ctx_last prev' (Some c) (a ++ e) (c :: t)) by discriminate.
    now rewrite (ctx_last prev (Some c) (a ++ x) (c :: t)) by discriminate.
Qed.

Lemma keeps_miss (u rest : text) (q p : option char) :
  ctx_lit l bef aft p (u ++ rest) = None ->
  ctx_lit l bef aft p (u ++ scan mj tj q rest 0) = None.
Proof.
  intros H.
  destruct (scan_first_hit mj tj rest q)
    as [->|[v [r [n [caps [tail [Hs [Hm Ho]]]]]]]]; [exact H|].
  rewrite Ho.
  destruct (shape _ _ _ _ Hm) as [Hn [a [x [b [Hx [Hx0 [He [Ha _]]]]]]]].
  rewrite He.
  assert (Er : r = (a ++ x ++ b) ++ skipn (S n) r)
    by (now rewrite <- Hx, firstn_skipn).
  rewrite Hs, Er in H.
  replace (u ++ v ++ (a ++ e ++ b) ++ tail)
    with ((u ++ v ++ a) ++ e ++ (b ++ tail))
    by (now rewrite <- !app_assoc).
  apply (lit_window l e x bef aft l_e_apart e_nonempty Hx0 Ha
           (u ++ v ++ a) (b ++ skipn (S n) r)).
  now rewrite <- !app_assoc in *.
Qed.

(** What the rule puts for a match, followed by a text without
    occurrence, is without occurrence. *)
Lemma keeps_hit (prev prev' : option char) (a x b rest y : text) :
  (bef prev' = true -> bef prev = true) ->
  x <> [] ->
  (bef (ctx None e) = true -> bef (ctx None x) = true) ->
  (aft (hd_error e) = true -> aft (hd_error x) = true) ->
  search (ctx_lit l bef aft) prev ((a ++ x ++ b) ++ rest) = false ->
  (forall u p,
     ctx_lit l bef aft p (u ++ rest) = None ->
     ctx_lit l bef aft p (u ++ y) = None) ->
  search (ctx_lit l bef aft) (ctx prev' (a ++ e ++ b)) y = false ->
  search (ctx_lit l bef aft) prev' ((a ++ e ++ b) ++ y) = false.
Proof.
  intros Hp Hx Hb Ha Hin Hy Hout.
  rewrite search_miss; [exact Hout|].
  intros u1 u2 Hu Hu2.
  assert (Hends : forall t,
            bef (ctx prev' ((a ++ e) ++ t)) = true ->
            bef (ctx prev ((a ++ x) ++ t)) = true).
  { intros [|c t].
    - rewrite !app_nil_r.
      rewrite (ctx_last prev' None a e e_nonempty).
      now rewrite (ctx_last prev None a x Hx).
    - rewrite (ctx_last prev' (Some c) (a ++ e) (c :: t)) by discriminate.
      now rewrite (ctx_last prev (Some c) (a ++ x) (c :: t))
        by discriminate. }
  assert (Hfirst : forall z p, ctx_lit l bef aft p (e ++ z) = None).
  { intros z p. apply ctx_lit_none.
    rewrite (apart_end l e [] l bef aft l_e_apart eq_refl l_nonempty).
    apply andb_false_r. }
  assert (Hnone : forall m r z,
            e = m ++ r -> m <> [] -> r <> [] -> forall p,
            ctx_lit l bef aft (ctx p m) (r ++ z) = None).
  { intros m r z He Hm Hr p. apply ctx_lit_none.
    now apply (apart_inside l e m r bef aft p l_e_apart). }
  (* where the attempt starts: in [a], in [e] or in [b] *)
  apply app_eq_app in Hu as [m [[Ha1 Hu2']|[Hu1 Hu2']]].
  - (* in [a], or where [e] begins *)
    subst a u2. destruct m as [|c m].
    + simpl. rewrite <- app_assoc. apply Hfirst.
    + rewrite <- !app_assoc in Hin. apply search_none_at in Hin.
      assert (K : ctx_lit l bef aft (ctx prev u1)
                    ((c :: m) ++ e ++ (b ++ y)) = None)
        by (apply (lit_window l e x bef aft l_e_apart e_nonempty Hx Ha
                     (c :: m) (b ++ rest)); exact Hin).
      rewrite <- !app_assoc.
      apply (ctx_lit_weaken l bef aft (ctx prev u1)); [|exact K].
      destruct u1 as [|c1 u1]; [exact Hp|]. now rewrite !ctx_cons.
  - apply app_eq_app in Hu2' as [m' [[He' Hu2'']|[Hm Hb']]].
    + (* in [e], or where [b] begins *)
      subst u1 u2. destruct m' as [|c' m'].
      * rewrite app_nil_r in He'. subst m. simpl in *.
        replace ((a ++ x ++ b) ++ rest) with ((a ++ x) ++ b ++ rest) in Hin
          by (now rewrite <- !app_assoc).
        apply search_none_at in Hin. apply Hy in Hin.
        apply (ctx_lit_weaken l bef aft (ctx prev (a ++ x))); [|exact Hin].
        intros K. specialize (Hends []). rewrite !app_nil_r in Hends.
        now apply Hends.
      * rewrite <- app_assoc. destruct m as [|c0 m].
        -- simpl in He'. rewrite <- He'. apply Hfirst.
        -- rewrite ctx_app.
           apply (Hnone (c0 :: m) (c' :: m')); [exact He'| |];
             discriminate.
    + (* in [b] *)
      subst u1 m b.
      replace ((a ++ x ++ m' ++ u2) ++ rest)
        with (((a ++ x) ++ m') ++ u2 ++ rest) in Hin
        by (now rewrite <- !app_assoc).
      apply search_none_at in Hin. apply Hy in Hin.
      replace (a ++ e ++ m') with ((a ++ e) ++ m')
        by (now rewrite <- !app_assoc).
      apply (ctx_lit_weaken l bef aft (ctx prev ((a ++ x) ++ m')));
        [apply Hends|exact Hin].
Qed.

(** The rule keeps the literal absent. *)
Lemma keeps_quiet_n (n : nat) :
  forall s prev prev',
    length s <= n ->
    (bef prev' = true -> bef prev = true) ->
    search (ctx_lit l bef aft) prev s = false ->
    search (ctx_lit l bef aft) prev' (scan mj tj prev s 0) = false.
Proof.
  induction n as [|n IH]; intros s prev prev' Hlen Hp H.
  - destruct s; [|simpl in Hlen; lia]. simpl.
    now rewrite ctx_lit_nil.
  - destruct s as [|c s]; [simpl; now rewrite ctx_lit_nil|].
    simpl in Hlen.
    assert (Hcopy :
      search (ctx_lit l bef aft) prev' (c :: scan mj tj (Some c) s 0)
      = false).
    { rewrite search_cons.
      pose proof (search_none_at _ (c :: s) [] prev H) as K.
      apply (keeps_miss [c] s (Some c)) in K.
      apply (ctx_lit_weaken l bef aft _ prev') in K; [|exact Hp].
      simpl app in K. rewrite K.
      apply IH; [lia|auto|]. apply (search_tail _ s [c] prev H). }
    cbn [scan].
    destruct (mj prev (c :: s)) as [[[|k] caps]|] eqn:Ej;
      [exact Hcopy| |exact Hcopy].
    destruct (shape _ _ _ _ Ej) as [Hk [a [x [b [Hx [Hx0 [He [Ha Hb]]]]]]]].
    simpl in Hk.
    assert (Es : c :: s = (a ++ x ++ b) ++ skipn k s).
    { rewrite <- Hx. simpl. now rewrite firstn_skipn. }
    assert (Ek : scan mj tj (Some c) s k
                 = scan mj tj (ctx prev (a ++ x ++ b)) (skipn k s) 0).
    { rewrite <- Hx. cbn [firstn]. rewrite ctx_cons.
      rewrite <- (firstn_skipn k s) at 1.
      rewrite <- (scan_skip mj tj (firstn k s) (skipn k s)).
      rewrite length_firstn, Nat.min_l by lia. reflexivity. }
    rewrite Ek, He. rewrite Es in H.
    apply (keeps_hit prev prev' a x b (skipn k s)); try assumption.
    + intros u p. apply keeps_miss.
    + apply IH.
      * rewrite length_skipn. lia.
      * now apply keeps_ends.
      * now apply search_tail.
Qed.

Lemma keeps_quiet (s : text) :
  search (ctx_lit l bef aft) None s = false ->
  search (ctx_lit l bef aft) None (scan mj tj None s 0) = false.
Proof. apply (keeps_quiet_n (length s)); auto. Qed.

End Keeps.

(** *** The patterns as literals in a context *)


Lemma not_as_lit (ident : text) :
  ident <> [] -> forallb is_word ident = true ->
  forall s p,
    search (lin_matcher (its_not ident)) p s
    = search (ctx_lit (33%N :: ident) any_ctx nonword_ctx) p s.
Proof.
  intros Hne Hword. apply search_ext. intros p s.
  rewrite not_matcher_word by assumption. unfold ctx_lit, nonword_ctx.
  destruct (strip (33%N :: ident) s) as [r|]; [|reflexivity].
  simpl. now destruct (word_opt (hd_error r)).
Qed.

Lemma occurs_as_lit (l : text) :
  forall s p, occurs l s = search (ctx_lit l any_ctx any_ctx) p s.
Proof.
  assert (E : forall p s,
            ctx_lit l any_ctx any_ctx p s
            = match strip l s with
              | Some _ => Some (length l, [])
              | None => None
              end).
  { intros p s. unfold ctx_lit. now destruct (strip l s). }
  induction s as [|c s IH]; intros p.
  - simpl. rewrite E. now destruct (strip l []).
  - rewrite search_cons, E. cbn [occurs].
    destruct (strip l (c :: s)); [reflexivity|apply IH].
Qed.

(** [(\w+)l] has a match where [l], beginning with a non-word
    character, stands behind a word character. *)
Lemma capture_as_lit (h : char) (l : text) :
  is_word h = false ->
  forall s p,
    search (ctx_lit (h :: l) word_opt any_ctx) p s
    = (word_opt p
       && match strip (h :: l) s with Some _ => true | None => false end)
      || search (lin_matcher (its_capture (h :: l))) p s.
Proof.
  intros Hh.
  assert (C : forall p s,
            ctx_lit (h :: l) word_opt any_ctx p s
            = if word_opt p
                 && match strip (h :: l) s with
                    | Some _ => true
                    | None => false
                    end
              then Some (length (h :: l), []) else None).
  { intros p s. unfold ctx_lit, any_ctx.
    destruct (strip (h :: l) s); [|now rewrite andb_false_r].
    now rewrite !andb_true_r. }
  induction s as [|c s IH]; intros p.
  - cbn [search]. rewrite C, capture_eval. cbn [strip span fst].
    now rewrite andb_false_r.
  - rewrite !search_cons, C, IH, capture_eval.
    destruct (word_opt p
              && match strip (h :: l) (c :: s) with
                 | Some _ => true
                 | None => false
                 end) eqn:E0; [reflexivity|].
    cbn [orb word_opt].
    destruct (is_word c) eqn:Hc.
    + (* [c] begins or continues a word *)
      simpl span. rewrite Hc.
      pose proof (span_app is_word s) as Es.
      pose proof (span_all is_word s) as Hall.
      destruct (span is_word s) as [w r] eqn:Esp. cbn [fst snd] in *.
      destruct w as [|w0 w].
      * simpl in Es. subst r.
        destruct (strip (h :: l) s); [reflexivity|].
        cbn [andb orb]. reflexivity.
      * assert (Hs : strip (h :: l) s = None).
        { rewrite Es. simpl. simpl in Hall.
          apply andb_true_iff in Hall as [Hw0 _].
          destruct (N.eqb_spec h w0) as [->|]; [congruence|reflexivity]. }
        rewrite Hs. cbn [andb orb].
        destruct s as [|c' s']; [discriminate|].
        rewrite search_cons, capture_eval, Esp. cbn [fst snd].
        now destruct (strip (h :: l) r).
    + simpl span. rewrite Hc. cbn [fst andb orb]. reflexivity.
Qed.

Lemma capture_quiet (h : char) (l : text) (s : text) :
  is_word h = false ->
  search (lin_matcher (its_capture (h :: l))) None s
  = search (ctx_lit (h :: l) word_opt any_ctx) None s.
Proof. intros Hh. now rewrite (capture_as_lit h l Hh). Qed.

(** *** The rules as replacements of part of a match *)

Lemma firstn_prefix (x r : text) (n : nat) :
  n = length x -> firstn n (x ++ r) = x.
Proof.
  intros ->. rewrite firstn_app, Nat.sub_diag, firstn_all. simpl.
  apply app_nil_r.
Qed.

Section KeepsBy.

Variables (l : text) (bef aft : option char -> bool).
Hypothesis l_nonempty : l <> [].

Lemma keeps_by_capture (lj ej : text) (s : text) :
  lj <> [] -> ej <> [] -> apart l ej bef aft = true ->
  (aft (hd_error ej) = true -> aft (hd_error lj) = true) ->
  (bef (ctx None ej) = true -> bef (ctx None lj) = true) ->
  search (ctx_lit l bef aft) None s = false ->
  search (ctx_lit l bef aft) None
    (scan (lin_matcher (its_capture lj)) [TRef 1; TLit ej] None s 0)
  = false.
Proof.
  intros Hlj Hej Hap Ha Hb.
  apply (keeps_quiet l ej bef aft); try assumption.
  intros p z n caps H. split; [now apply lin_matcher_fits in H|].
  rewrite capture_eval in H.
  pose proof (span_app is_word z) as Ez.
  destruct (span is_word z) as [w r]. cbn [fst snd] in *.
  destruct w as [|w0 w]; [discriminate|].
  destruct (strip lj r) as [r'|] eqn:Er; [|discriminate].
  apply strip_Some in Er. inversion H; subst n caps. clear H.
  exists (w0 :: w), lj, []. split.
  - rewrite Ez, Er, app_nil_r, app_assoc. apply firstn_prefix.
    rewrite length_app. simpl. lia.
  - split; [exact Hlj|]. split; [|now split].
    cbn [expand group Nat.eqb]. now rewrite !app_nil_r.
Qed.

Lemma keeps_by_not (ident : text) (s : text) :
  apart l (ident ++ txt " == null") bef aft = true ->
  (aft (hd_error (ident ++ txt " == null")) = true ->
   aft (Some 33%N) = true) ->
  (bef (Some 108%N) = true -> bef (ctx None (33%N :: ident)) = true) ->
  search (ctx_lit l bef aft) None s = false ->
  search (ctx_lit l bef aft) None
    (scan (lin_matcher (its_not ident)) (snd (rule_not ident)) None s 0)
  = false.
Proof.
  intros Hap Ha Hb.
  apply (keeps_quiet l (ident ++ txt " == null") bef aft); try assumption.
  - destruct ident; discriminate.
  - intros p z n caps H. split; [now apply lin_matcher_fits in H|].
    rewrite not_matcher in H.
    destruct (strip (33%N :: ident) z) as [r|] eqn:Er; [|discriminate].
    apply strip_Some in Er. destruct (at_boundary _ _); [|discriminate].
    inversion H; subst n caps. clear H.
    exists [], (33%N :: ident), []. split.
    + rewrite Er, app_nil_r. now apply firstn_prefix.
    + split; [discriminate|]. split; [|split; [exact Ha|]].
      * unfold rule_not. cbn [snd expand]. now rewrite !app_nil_r.
      * intros K. apply Hb. rewrite <- K. f_equal.
        rewrite ctx_app. reflexivity.
Qed.

Lemma keeps_by_empty_object (s : text) :
  apart l (txt "if (false)") bef aft = true ->
  (aft (Some 105%N) = true -> forall o, aft o = true) ->
  (bef (Some 41%N) = true -> forall o, bef o = true) ->
  search (ctx_lit l bef aft) None s = false ->
  search (ctx_lit l bef aft) None
    (scan (lin_matcher its_empty_object) (snd rule_empty_object) None s 0)
  = false.
Proof.
  intros Hap Ha Hb.
  apply (keeps_quiet l (txt "if (false)") bef aft); try assumption;
    [discriminate|].
  intros p z n caps H. split; [now apply lin_matcher_fits in H|].
  assert (Hn : n <> 0).
  { intros ->. revert H. apply lin_matcher_nonempty. simpl. lia. }
  pose proof (lin_matcher_fits _ _ _ _ _ H) as Hfit.
  exists [], (firstn n z), []. split; [now rewrite app_nil_r|].
  split.
  - destruct z; [simpl in Hfit; lia|]. destruct n; [congruence|discriminate].
  - split; [reflexivity|]. split; intros K; [now apply Ha|now apply Hb].
Qed.

Lemma keeps_by_console (s : text) :
  apart l (txt "console.warn(") bef aft = true ->
  search (ctx_lit l bef aft) None s = false ->
  search (ctx_lit l bef aft) None
    (scan (lin_matcher its_console) (snd rule_console) None s 0)
  = false.
Proof.
  intros Hap.
  apply (keeps_quiet l (txt "console.warn(") bef aft); try assumption;
    [discriminate|].
  intros p z n caps H. split; [now apply lin_matcher_fits in H|].
  unfold lin_matcher, its_console in H. cbn [lin] in H.
  unfold eat_lit in H. cbn [m_rest m_prev m_pos m_caps] in H.
  destruct (strip (txt "console.log(") z) as [r|] eqn:Er; [|discriminate].
  apply strip_Some in Er. inversion H; subst n caps. clear H.
  exists [], (txt "console.log("), []. split.
  - rewrite Er, app_nil_r. now apply firstn_prefix.
  - split; [discriminate|]. split; [reflexivity|]. split; auto.
Qed.

Lemma keeps_by_unused (s : text) :
  apart l (txt "_") bef aft = true ->
  (aft (Some 95%N) = true -> aft (Some 117%N) = true) ->
  (bef (Some 95%N) = true -> bef (Some 100%N) = true) ->
  search (ctx_lit l bef aft) None s = false ->
  search (ctx_lit l bef aft) None
    (scan (lin_matcher its_unused) (snd rule_unused) None s 0)
  = false.
Proof.
  intros Hap Ha Hb.
  apply (keeps_quiet l (txt "_") bef aft); try assumption; [discriminate|].
  intros p z n caps H. split; [now apply lin_matcher_fits in H|].
  destruct (unused_hit _ _ _ _ H) as [w [Hw [Hall [Erun [En ->]]]]].
  pose proof (span_app is_word z) as Ez. rewrite Erun in Ez.
  exists [], (txt "unused"), w. split.
  - rewrite Ez. apply (firstn_prefix (txt "unused" ++ w)). exact En.
  - split; [discriminate|]. split; [|now split].
    unfold rule_unused. cbn [snd expand group Nat.eqb].
    now rewrite !app_nil_r.
Qed.

End KeepsBy.

(** *** A pattern that no match and no replacement can enter

    When the first character of every match of the rule and of what
    the rule puts for it stops every attempt of a pattern, and the
    rest of what the rule puts is either copied from the match or
    cannot begin the pattern, the rule keeps the pattern without
    match. *)

Section Blocked.

Variables (its : list item) (mj : matcher) (tj : template).

Hypothesis its_free : starts_eating its = true.
Hypothesis its_eats : 0 < min_len its.

Hypothesis shape :
  forall p z n caps,
    mj p z = Some (n, caps) ->
    n <= length z
    /\ exists cx x' ce e',
         firstn n z = cx :: x' /\ expand tj caps = ce :: e'
         /\ blocks cx its = true /\ blocks ce its = true
         /\ forall e1 e2,
              e' = e1 ++ e2 -> e2 <> [] ->
              (forall y p, lin_matcher its p (e2 ++ y) = None)
              \/ exists x1, x' = x1 ++ e2.

Lemma blocked_nil (p : option char) : lin_matcher its p [] = None.
Proof.
  destruct (lin_matcher its p []) as [[n caps]|] eqn:E; [|reflexivity].
  pose proof (lin_matcher_fits _ _ _ _ _ E) as Hn. simpl in Hn.
  replace n with 0 in E by lia.
  now apply lin_matcher_nonempty in E.
Qed.

Lemma blocked_miss (u rest : text) (q p p' : option char) :
  lin_matcher its p (u ++ rest) = None ->
  lin_matcher its p' (u ++ scan mj tj q rest 0) = None.
Proof.
  intros H.
  rewrite (lin_matcher_prev_free its its_free p' p).
  destruct (scan_first_hit mj tj rest q)
    as [->|[v [r [n [caps [tail [Hs [Hm Ho]]]]]]]]; [exact H|].
  rewrite Ho.
  destruct (shape _ _ _ _ Hm)
    as [Hn [cx [x' [ce [e' [Hx [He [Bx [Be _]]]]]]]]].
  rewrite He.
  assert (Er : r = (cx :: x') ++ skipn (S n) r)
    by (now rewrite <- Hx, firstn_skipn).
  rewrite Hs, Er in H.
  replace (u ++ v ++ (ce :: e') ++ tail)
    with ((u ++ v) ++ ce :: e' ++ tail)
    by (now rewrite <- !app_assoc).
  rewrite lin_matcher_block by exact Be.
  rewrite <- H.
  replace (u ++ v ++ (cx :: x') ++ skipn (S n) r)
    with ((u ++ v) ++ cx :: x' ++ skipn (S n) r)
    by (now rewrite <- !app_assoc).
  now rewrite lin_matcher_block by exact Bx.
Qed.

Lemma blocked_quiet_n (n : nat) :
  forall s prev prev',
    length s <= n ->
    search (lin_matcher its) prev s = false ->
    search (lin_matcher its) prev' (scan mj tj prev s 0) = false.
Proof.
  induction n as [|n IH]; intros s prev prev' Hlen H.
  - destruct s; [|simpl in Hlen; lia]. simpl. now rewrite blocked_nil.
  - destruct s as [|c s]; [simpl; now rewrite blocked_nil|].
    simpl in Hlen.
    assert (Hcopy :
      search (lin_matcher its) prev' (c :: scan mj tj (Some c) s 0)
      = false).
    { rewrite search_cons.
      pose proof (search_none_at _ (c :: s) [] prev H) as K.
      apply (blocked_miss [c] s (Some c) _ prev') in K.
      simpl app in K. rewrite K.
      apply IH; [lia|]. apply (search_tail _ s [c] prev H). }
    cbn [scan].
    destruct (mj prev (c :: s)) as [[[|k] caps]|] eqn:Ej;
      [exact Hcopy| |exact Hcopy].
    destruct (shape _ _ _ _ Ej)
      as [Hk [cx [x' [ce [e' [Hx [He [Bx [Be Hin]]]]]]]]].
    simpl in Hk. cbn [firstn] in Hx. inversion Hx; subst cx. clear Hx.
    rewrite He.
    assert (Es : s = firstn k s ++ skipn k s)
      by (now rewrite firstn_skipn).
    assert (Ek : scan mj tj (Some c) s k
                 = scan mj tj (ctx (Some c) (firstn k s)) (skipn k s) 0).
    { rewrite Es at 1.
      rewrite <- (scan_skip mj tj (firstn k s) (skipn k s)).
      now rewrite length_firstn, Nat.min_l by lia. }
    rewrite Ek.
    assert (H' : search (lin_matcher its) prev
                   ((c :: firstn k s) ++ skipn k s) = false)
      by (simpl; now rewrite firstn_skipn).
    rewrite search_miss.
    + apply IH; [rewrite length_skipn; lia|].
      pose proof (search_tail _ _ (c :: firstn k s) prev H') as T.
      now rewrite ctx_cons in T.
    + intros u1 u2 Hu Hu2. destruct u1 as [|c1 u1].
      * simpl in Hu. subst u2.
        exact (eq_trans (lin_matcher_block its ce _ _ [] Be)
                 (blocked_nil _)).
      * inversion Hu as [[Hc1 He']]. subst c1.
        destruct (Hin u1 u2 He' Hu2) as [K|[x1 Hx1]]; [apply K|].
        apply (blocked_miss u2 (skipn k s) _ (ctx prev (c :: x1))).
        rewrite H2, Hx1 in H'.
        replace ((c :: x1 ++ u2) ++ skipn k s)
          with ((c :: x1) ++ u2 ++ skipn k s) in H'
          by (simpl; now rewrite <- app_assoc).
        now apply search_none_at in H'.
Qed.

Lemma blocked_quiet (s : text) :
  search (lin_matcher its) None s = false ->
  search (lin_matcher its) None (scan mj tj None s 0) = false.
Proof. apply (blocked_quiet_n (length s)); auto. Qed.

End Blocked.

(** *** The empty-object pattern behind the last two rules *)

Lemma empty_object_head (c : char) (s : text) (p : option char) :
  (105 =? c)%N = false -> lin_matcher its_empty_object p (c :: s) = None.
Proof.
  intros H. unfold its_empty_object.
  change (txt "if") with (105%N :: txt "f").
  now apply lin_matcher_head_mismatch.
Qed.

Lemma empty_object_kept_by_console (s : text) :
  search (lin_matcher its_empty_object) None s = false ->
  search (lin_matcher its_empty_object) None
    (scan (lin_matcher its_console) (snd rule_console) None s 0) = false.
Proof.
  apply blocked_quiet; [reflexivity|simpl; lia|].
  intros p z n caps H. split; [now apply lin_matcher_fits in H|].
  unfold lin_matcher, its_console in H. cbn [lin] in H.
  unfold eat_lit in H. cbn [m_rest m_prev m_pos m_caps] in H.
  destruct (strip (txt "console.log(") z) as [r|] eqn:Er; [|discriminate].
  apply strip_Some in Er. inversion H; subst n caps. clear H.
  exists 99%N, (txt "onsole.log("), 99%N, (txt "onsole.warn(").
  split; [rewrite Er; now apply (firstn_prefix (txt "console.log("))|].
  split; [reflexivity|]. split; [reflexivity|]. split; [reflexivity|].
  intros e1 [|c e2] He He2; [congruence|]. left. intros y p'.
  simpl app. apply empty_object_head.
  apply (existsb_eqb_In 105%N (txt "onsole.warn(")); [reflexivity|].
  rewrite He. apply in_or_app. right. now left.
Qed.

Lemma empty_object_kept_by_unused (s : text) :
  search (lin_matcher its_empty_object) None s = false ->
  search (lin_matcher its_empty_object) None
    (scan (lin_matcher its_unused) (snd rule_unused) None s 0) = false.
Proof.
  apply blocked_quiet; [reflexivity|simpl; lia|].
  intros p z n caps H. split; [now apply lin_matcher_fits in H|].
  destruct (unused_hit _ _ _ _ H) as [w [Hw [Hall [Erun [En ->]]]]].
  pose proof (span_app is_word z) as Ez. rewrite Erun in Ez.
  exists 117%N, (txt "nused" ++ w), 95%N, w.
  split; [rewrite Ez; now apply (firstn_prefix (txt "unused" ++ w))|].
  split.
  { unfold rule_unused. cbn [snd expand group Nat.eqb].
    now rewrite !app_nil_r. }
  split; [reflexivity|]. split; [reflexivity|].
  intros e1 e2 He _. right. exists (txt "nused" ++ e1).
  now rewrite He, app_assoc.
Qed.

(** *** What each rule leaves of its own pattern *)

Lemma name_settled (s : text) :
  search (lin_matcher its_name) None
    (scan (lin_matcher its_name) (snd rule_name) None s 0) = false.
Proof.
  unfold its_name. change (txt "[name] ||") with (91%N :: txt "name] ||").
  apply (scan_settled (lin_matcher (its_capture (91%N :: txt "name] ||")))
           (snd rule_name))
    with (s := s) (prev := None) (skip := 0); [| | | |simpl; lia].
  - intros p s' caps. apply lin_matcher_nonempty. simpl. lia.
  - intros p s' n caps. apply lin_matcher_fits.
  - apply (capture_hit 91%N (txt "name] ||") (txt "name] ??"));
      try reflexivity.
    intros y p. cbn. apply search_prev_free.
    apply (lin_matcher_prev_free (its_capture _) eq_refl).
  - apply (capture_miss 91%N (txt "name] ||") (txt "name] ??"));
      reflexivity.
Qed.

Lemma value_settled (s : text) :
  search (lin_matcher its_value) None
    (scan (lin_matcher its_value) (snd rule_value) None s 0) = false.
Proof.
  unfold its_value. change (txt "[value] ||") with (91%N :: txt "value] ||").
  apply (scan_settled (lin_matcher (its_capture (91%N :: txt "value] ||")))
           (snd rule_value))
    with (s := s) (prev := None) (skip := 0); [| | | |simpl; lia].
  - intros p s' caps. apply lin_matcher_nonempty. simpl. lia.
  - intros p s' n caps. apply lin_matcher_fits.
  - apply (capture_hit 91%N (txt "value] ||") (txt "name] ??"));
      try reflexivity.
    intros y p. cbn. apply search_prev_free.
    apply (lin_matcher_prev_free (its_capture _) eq_refl).
  - apply (capture_miss 91%N (txt "value] ||") (txt "name] ??"));
      reflexivity.
Qed.

Lemma empty_object_settled (s : text) :
  search (lin_matcher its_empty_object) None
    (scan (lin_matcher its_empty_object) (snd rule_empty_object) None s 0)
  = false.
Proof.
  apply (scan_settled (lin_matcher its_empty_object)
           (snd rule_empty_object))
    with (s := s) (prev := None) (skip := 0); [| | | |simpl; lia].
  - intros p s' caps. apply lin_matcher_nonempty. simpl. lia.
  - intros p s' n caps. apply lin_matcher_fits.
  - intros prev x rest caps y _ _ H. unfold rule_empty_object.
    cbn [snd expand].
    rewrite (search_prev_free _
               (lin_matcher_prev_free its_empty_object eq_refl)
               y _ (Some 41%N)) in H.
    unfold its_empty_object in *. cbn. exact H.
  - intros prev c s'. unfold its_empty_object.
    change (txt "if") with (105%N :: txt "f").
    apply first_char_miss; [reflexivity|].
    intros caps. eexists. reflexivity.
Qed.

(** *** The whole rule set *)

Lemma quiet_lin (r : re) (its : list item) (s : text) :
  r = compile its -> guarded its = true ->
  search (match_at r) None s = search (lin_matcher its) None s.
Proof.
  intros -> G. apply search_ext. intros p x. now apply match_at_compile.
Qed.

Lemma double_not_as_lit (ident : text) :
  ident <> [] -> forallb is_word ident = true ->
  forall s p,
    search (lin_matcher (its_not (33%N :: ident))) p s
    = search (ctx_lit (33%N :: 33%N :: ident) any_ctx nonword_ctx) p s.
Proof.
  intros Hne Hword. apply search_ext. intros p s.
  rewrite not_matcher. unfold ctx_lit, nonword_ctx, any_ctx.
  destruct (strip (33%N :: 33%N :: ident) s) as [r|]; [|reflexivity].
  rewrite !ctx_cons. unfold at_boundary.
  rewrite (word_ctx _ _ Hne Hword). simpl.
  now destruct (word_opt (hd_error r)).
Qed.

(** A negation rule leaves no match of its pattern in a text where
    its idiom did not stand behind another [!]. *)
Lemma not_settled_lit (ident : text) (s : text) :
  ident <> [] -> existsb (N.eqb 33%N) ident = false ->
  forallb is_word ident = true ->
  search (ctx_lit (33%N :: 33%N :: ident) any_ctx nonword_ctx) None s
  = false ->
  search (ctx_lit (33%N :: ident) any_ctx nonword_ctx) None
    (scan (lin_matcher (its_not ident)) (snd (rule_not ident)) None s 0)
  = false.
Proof.
  intros Hne Hbang Hword H.
  rewrite <- not_as_lit by assumption.
  apply not_settled; try assumption.
  now rewrite double_not_as_lit.
Qed.

Lemma name_settled_lit (s : text) :
  search (ctx_lit (txt "[name] ||") word_opt any_ctx) None
    (scan (lin_matcher its_name) (snd rule_name) None s 0) = false.
Proof.
  rewrite <- (capture_quiet 91%N (txt "name] ||")) by reflexivity.
  apply name_settled.
Qed.

Lemma value_settled_lit (s : text) :
  search (ctx_lit (txt "[value] ||") word_opt any_ctx) None
    (scan (lin_matcher its_value) (snd rule_value) None s 0) = false.
Proof.
  rewrite <- (capture_quiet 91%N (txt "value] ||")) by reflexivity.
  apply value_settled.
Qed.

Lemma console_settled_lit (s : text) :
  search (ctx_lit (txt "console.log(") any_ctx any_ctx) None
    (scan (lin_matcher its_console) (snd rule_console) None s 0) = false.
Proof.
  rewrite <- occurs_as_lit.
  rewrite <- (search_lit_occurs (txt "console.log(") _ None).
  apply console_settled.
Qed.

Section KeepsByRule.

Variables (l : text) (bef aft : option char -> bool).
Hypothesis l_nonempty : l <> [].

Lemma keeps_by_name (s : text) :
  apart l (txt "[name] ??") bef aft = true ->
  (bef (Some 63%N) = true -> bef (Some 124%N) = true) ->
  search (ctx_lit l bef aft) None s = false ->
  search (ctx_lit l bef aft) None
    (scan (lin_matcher its_name) (snd rule_name) None s 0) = false.
Proof.
  intros Hap Hb.
  apply (keeps_by_capture l bef aft l_nonempty (txt "[name] ||")
           (txt "[name] ??")); auto; discriminate.
Qed.

Lemma keeps_by_value (s : text) :
  apart l (txt "[name] ??") bef aft = true ->
  (bef (Some 63%N) = true -> bef (Some 124%N) = true) ->
  search (ctx_lit l bef aft) None s = false ->
  search (ctx_lit l bef aft) None
    (scan (lin_matcher its_value) (snd rule_value) None s 0) = false.
Proof.
  intros Hap Hb.
  apply (keeps_by_capture l bef aft l_nonempty (txt "[value] ||")
           (txt "[name] ??")); auto; discriminate.
Qed.

End KeepsByRule.

Ltac side :=
  first
    [ reflexivity
    | discriminate
    | (simpl; discriminate)
    | intros; first
        [ reflexivity
        | match goal with
          | H : _ = true |- _ => vm_compute in H; discriminate H
          end ] ].

(** Carry every fact about a literal over the rule just applied. *)
Ltac carry_not id :=
  repeat match goal with
         | H : search (ctx_lit _ _ _) None _ = false |- _ =>
             apply keeps_by_not with (ident := id) in H;
             [revert H|side..]
         end.

Ltac carry lem :=
  repeat match goal with
         | H : search (ctx_lit _ _ _) None _ = false |- _ =>
             apply lem in H; [revert H|side..]
         end.

Ltac settle_not id :=
  match goal with
  | D : search (ctx_lit (33%N :: 33%N :: id) any_ctx nonword_ctx) None _
        = false |- _ =>
      apply (not_settled_lit id) in D; [revert D|side..]
  end.

Ltac add_settled lem :=
  match goal with
  | H : search _ None ?t = false |- _ => generalize (lem t)
  end.

Ltac carry_empty lem :=
  match goal with
  | E : search (lin_matcher its_empty_object) None _ = false |- _ =>
      apply lem in E; revert E
  end.

Lemma fix_text_quiet (s : text) :
  (forall ident,
     In ident nullable_idents ->
     search (match_at (double_not ident)) None s = false) ->
  clean (fix_text s) = true.
Proof.
  intros H.
  assert (G : forall ident,
            In ident nullable_idents ->
            search (ctx_lit (33%N :: 33%N :: ident) any_ctx nonword_ctx)
              None s = false).
  { intros ident Hin. destruct (nullable_names ident Hin) as [H1 [_ H3]].
    rewrite <- double_not_as_lit by assumption.
    rewrite <- (quiet_lin (double_not ident) (its_not (33%N :: ident)))
      by reflexivity.
    now apply H. }
  pose proof (G (txt "text") ltac:(simpl; tauto)) as D1.
  pose proof (G (txt "result") ltac:(simpl; tauto)) as D2.
  pose proof (G (txt "response") ltac:(simpl; tauto)) as D3.
  pose proof (G (txt "jsonData") ltac:(simpl; tauto)) as D4.
  pose proof (G (txt "instance") ltac:(simpl; tauto)) as D5.
  pose proof (G (txt "options") ltac:(simpl; tauto)) as D6.
  clear H G.
  (* line 15 *)
  carry keeps_by_name. intros.
  pose proof (name_settled_lit s).
  (* line 16 *)
  add_settled value_settled_lit.
  carry keeps_by_value. intros.
  (* lines 19 to 24 *)
  settle_not (txt "text"). carry_not (txt "text"). intros.
  settle_not (txt "result"). carry_not (txt "result"). intros.
  settle_not (txt "response"). carry_not (txt "response"). intros.
  settle_not (txt "jsonData"). carry_not (txt "jsonData"). intros.
  settle_not (txt "instance"). carry_not (txt "instance"). intros.
  settle_not (txt "options"). carry_not (txt "options"). intros.
  (* line 27 *)
  add_settled empty_object_settled.
  carry keeps_by_empty_object. intros.
  (* line 30 *)
  add_settled console_settled_lit.
  carry_empty empty_object_kept_by_console.
  carry keeps_by_console. intros.
  (* line 33 *)
  add_settled unused_settled.
  carry_empty empty_object_kept_by_unused.
  carry keeps_by_unused. intros.
  (* the text is what the pipeline returns *)
  match goal with
  | K : search _ None ?t = false |- _ => assert (E : fix_text s = t)
  end.
  { unfold fix_text, rules, nullable_idents.
    cbn [List.map app fold_left].
    rewrite (apply_rule_lin rule_name its_name) by reflexivity.
    rewrite (apply_rule_lin rule_value its_value) by reflexivity.
    rewrite (apply_rule_lin (rule_not (txt "text")) (its_not (txt "text")))
      by reflexivity.
    rewrite (apply_rule_lin (rule_not (txt "result"))
               (its_not (txt "result"))) by reflexivity.
    rewrite (apply_rule_lin (rule_not (txt "response"))
               (its_not (txt "response"))) by reflexivity.
    rewrite (apply_rule_lin (rule_not (txt "jsonData"))
               (its_not (txt "jsonData"))) by reflexivity.
    rewrite (apply_rule_lin (rule_not (txt "instance"))
               (its_not (txt "instance"))) by reflexivity.
    rewrite (apply_rule_lin (rule_not (txt "options"))
               (its_not (txt "options"))) by reflexivity.
    rewrite (apply_rule_lin rule_empty_object its_empty_object)
      by reflexivity.
    rewrite (apply_rule_lin rule_console its_console) by reflexivity.
    rewrite (apply_rule_lin rule_unused its_unused) by reflexivity.
    reflexivity. }
  rewrite E. unfold clean. apply forallb_forall. intros rl Hin.
  apply negb_true_iff. unfold rules, nullable_idents in Hin.
  cbn [List.map app] in Hin.
  destruct Hin as [<-|[<-|Hin]].
  - rewrite (quiet_lin _ its_name) by reflexivity.
    rewrite (capture_quiet 91%N (txt "name] ||")) by reflexivity.
    assumption.
  - rewrite (quiet_lin _ its_value) by reflexivity.
    rewrite (capture_quiet 91%N (txt "value] ||")) by reflexivity.
    assumption.
  - do 6 (destruct Hin as [<-|Hin];
          [rewrite (quiet_lin _ (its_not _)) by reflexivity;
           rewrite not_as_lit by (discriminate || reflexivity);
           assumption|]).
    destruct Hin as [<-|[<-|[<-|[]]]].
    + rewrite (quiet_lin _ its_empty_object) by reflexivity. assumption.
    + rewrite (quiet_lin _ its_console) by reflexivity.
      rewrite (search_lit_occurs (txt "console.log(")).
      rewrite (occurs_as_lit _ _ None). assumption.
    + rewrite (quiet_lin _ its_unused) by reflexivity. assumption.
Qed.

(** C1, as the code has it: on a text in which none of the six idioms
    [!name] stands, as a whole word, behind another [!] - on every
    text without [!!], and on the spec's literal sample texts - the
    rule set applied twice gives what it gives applied once: what one
    pass returns, a second pass leaves unchanged.  A negation
    substitution applied twice gives what it gives applied once
    exactly on the texts in which its idiom does not stand, as a whole
    word, behind another [!]. *)
Theorem fix_text_twice :
  (forall s : text,
     (forall ident,
        In ident nullable_idents ->
        search (match_at (double_not ident)) None s = false) ->
     fix_text (fix_text s) = fix_text s)
  /\ (forall s : text,
        occurs (txt "!!") s = false -> fix_text (fix_text s) = fix_text s)
  /\ (forall s : text,
        In s sample_inputs -> fix_text (fix_text s) = fix_text s)
  /\ (forall ident s : text,
        In ident nullable_idents ->
        (apply_rule (rule_not ident) (apply_rule (rule_not ident) s)
         = apply_rule (rule_not ident) s
         <-> search (match_at (double_not ident)) None s = false)).
Proof.
  assert (P : forall s : text,
            (forall ident,
               In ident nullable_idents ->
               search (match_at (double_not ident)) None s = false) ->
            fix_text (fix_text s) = fix_text s).
  { intros s H. apply fix_text_clean. now apply fix_text_quiet. }
  assert (Q : forall s : text,
            occurs (txt "!!") s = false ->
            fix_text (fix_text s) = fix_text s).
  { intros s H. apply P. intros ident _.
    now apply no_bangs_no_double_not. }
  split; [exact P|]. split; [exact Q|]. split.
  - intros s H. apply Q. unfold sample_inputs in H.
    repeat (destruct H as [<-|H]; [vm_compute; reflexivity|]).
    destruct H.
  - intros ident s H. destruct (nullable_names ident H) as [H1 [H2 H3]].
    now apply not_twice.
Qed.

End Unicode.

(** * The theorems at concrete texts *)

(** C1, counterexample: [!!text] contains the idiom [!text]; one pass
    gives [!text == null], the second [text == null == null]. *)
Lemma idempotence_fails :
  fix_text ascii_only ascii_only (txt "!!text") = txt "!text == null"
  /\ fix_text ascii_only ascii_only
       (fix_text ascii_only ascii_only (txt "!!text"))
     = txt "text == null == null"
  /\ fix_text ascii_only ascii_only
       (fix_text ascii_only ascii_only (txt "!!text"))
     <> fix_text ascii_only ascii_only (txt "!!text").
Proof.
  split; [vm_compute; reflexivity|].
  split; [vm_compute; reflexivity|].
  vm_compute. discriminate.
Qed.

Lemma fix_text_twice_witness :
  (forall ident,
     In ident nullable_idents ->
     search (match_at ascii_only ascii_only (double_not ident)) None
       (txt "if (!text || !x) { console.log(unusedA[value] || !y); }")
     = false)
  /\ fix_text ascii_only ascii_only
       (fix_text ascii_only ascii_only
          (txt "if (!text || !x) { console.log(unusedA[value] || !y); }"))
     = fix_text ascii_only ascii_only
         (txt "if (!text || !x) { console.log(unusedA[value] || !y); }").
Proof.
  assert (H : forall ident,
            In ident nullable_idents ->
            search (match_at ascii_only ascii_only (double_not ident)) None
              (txt "if (!text || !x) { console.log(unusedA[value] || !y); }")
            = false).
  { intros ident Hin. unfold nullable_idents in Hin.
    repeat (destruct Hin as [<-|Hin]; [vm_compute; reflexivity|]).
    destruct Hin. }
  split; [exact H|].
  exact (proj1 (fix_text_twice ascii_only ascii_only)
           (txt "if (!text || !x) { console.log(unusedA[value] || !y); }")
           H).
Defined.

Lemma lookup_fallback_witness :
  word_opt ascii_only (ctx None (txt "const v = ")) = false
  /\ txt "headers" <> []
  /\ forallb (is_word ascii_only) (txt "headers") = true
  /\ apply_rule ascii_only ascii_only rule_value
       (txt "const v = " ++ txt "headers" ++ txt "[value] ||"
        ++ txt " defaultVal;")
     = apply_rule ascii_only ascii_only rule_value (txt "const v = ")
       ++ txt "headers" ++ txt "[name] ??"
       ++ apply_rule ascii_only ascii_only rule_value (txt " defaultVal;").
Proof.
  split; [vm_compute; reflexivity|].
  split; [discriminate|].
  split; [vm_compute; reflexivity|].
  apply (proj1 (lookup_fallback_rewritten ascii_only ascii_only)
           (txt "const v = ") (txt "headers") (txt " defaultVal;"));
    [vm_compute; reflexivity|discriminate|vm_compute; reflexivity].
Defined.

(** C3, counterexample: in [!result!text] the idiom [!result] stands
    as a whole word.  The substitution for [text] runs first and
    leaves [!resulttext == null]; there [!result] is followed by a
    word character, so the substitution for [result] passes it by. *)
Lemma negation_glued :
  match_at ascii_only ascii_only (fst (rule_not (txt "result"))) None
    (txt "!result!text") = Some (7, [])
  /\ fix_text ascii_only ascii_only (txt "!result!text")
     = txt "!resulttext == null"
  /\ occurs (txt "result == null")
       (fix_text ascii_only ascii_only (txt "!result!text")) = false.
Proof. repeat split; vm_compute; reflexivity. Qed.

Lemma negation_witness :
  In (txt "options") nullable_idents
  /\ word_opt ascii_only (hd_error (txt ") { return; }")) = false
  /\ apply_rule ascii_only ascii_only (rule_not (txt "options"))
       (txt "if (" ++ txt "!" ++ txt "options" ++ txt ") { return; }")
     = apply_rule ascii_only ascii_only (rule_not (txt "options"))
         (txt "if (")
       ++ txt "options" ++ txt " == null"
       ++ apply_rule ascii_only ascii_only (rule_not (txt "options"))
            (txt ") { return; }").
Proof.
  assert (H : In (txt "options") nullable_idents)
    by (do 5 right; left; reflexivity).
  split; [exact H|].
  split; [vm_compute; reflexivity|].
  apply (proj1 (proj1 (negation_rewritten ascii_only ascii_only)
                  (txt "options") (txt "if (") (txt ") { return; }") H)).
  vm_compute; reflexivity.
Defined.

Lemma no_pattern_witness :
  clean ascii_only ascii_only (txt "let x = 1;") = true
  /\ fix_text ascii_only ascii_only (txt "let x = 1;") = txt "let x = 1;".
Proof.
  split; [vm_compute; reflexivity|].
  apply (proj1 (no_pattern_no_change ascii_only ascii_only)
           (txt "let x = 1;")).
  vm_compute; reflexivity.
Defined.

Lemma main_isolates_witness :
  (forall tr p e,
     In p ["a.js"; "missing.js"; "b.js"]%string ->
     w_stdout sample_world tr (error_line p e) = None)
  /\ fst (main ascii_only ascii_only
            ["a.js"; "missing.js"; "b.js"]%string sample_world) = None
  /\ reads
       (w_trace
          (snd (main ascii_only ascii_only
                  ["a.js"; "missing.js"; "b.js"]%string sample_world)))
     = reads (w_trace sample_world)
       ++ ["a.js"; "missing.js"; "b.js"]%string.
Proof.
  assert (H : forall tr p e,
            In p ["a.js"; "missing.js"; "b.js"]%string ->
            w_stdout sample_world tr (error_line p e) = None)
    by (intros; reflexivity).
  split; [exact H|].
  exact (proj1 (main_isolates_errors ascii_only ascii_only)
           ["a.js"; "missing.js"; "b.js"]%string sample_world H).
Defined.

(** C5, counterexample: the first path is missing and its line cannot
    be encoded for the output: the handler's [print] raises, the run
    ends with that exception, and [a.js], which the pipeline would
    alter, is neither opened nor fixed. *)
Lemma handler_print_aborts :
  w_files (World sample_name sample_fs ascii_stdout []) accented
  = Bad (OSError
           ("[Errno 2] No such file or directory: '" ++ accented ++ "'"))
  /\ fst (main ascii_only ascii_only [accented; "a.js"%string]
            (World sample_name sample_fs ascii_stdout []))
     = Some (UnicodeEncodeError "ordinal not in range(128)")
  /\ reads
       (w_trace
          (snd (main ascii_only ascii_only [accented; "a.js"%string]
                  (World sample_name sample_fs ascii_stdout []))))
     = [accented]
  /\ printed
       (w_trace
          (snd (main ascii_only ascii_only [accented; "a.js"%string]
                  (World sample_name sample_fs ascii_stdout []))))
     = []
  /\ w_files
       (snd (main ascii_only ascii_only [accented; "a.js"%string]
               (World sample_name sample_fs ascii_stdout [])))
       "a.js"%string
     = File (txt "console.log(1);") WriteOk
  /\ fix_text ascii_only ascii_only (txt "console.log(1);")
     <> txt "console.log(1);".
Proof.
  repeat split; try (vm_compute; reflexivity).
  vm_compute. discriminate.
Qed.

(** C6, counterexample: the identifier [unused] begins with [unused]
    and stands between word boundaries, and is not rewritten to
    [_]. *)
Lemma unused_alone_kept :
  apply_rule ascii_only ascii_only rule_unused (txt "unused") = txt "unused"
  /\ fix_text ascii_only ascii_only (txt "unused") = txt "unused"
  /\ fix_text ascii_only ascii_only (txt "unused") <> txt "_".
Proof.
  split; [vm_compute; reflexivity|].
  split; [vm_compute; reflexivity|].
  vm_compute. discriminate.
Qed.

Lemma unused_prefixed_witness :
  word_opt ascii_only (ctx None (txt "let ")) = false
  /\ txt "Counter" <> []
  /\ forallb (is_word ascii_only) (txt "Counter") = true
  /\ word_opt ascii_only (hd_error (txt " = 1;")) = false
  /\ apply_rule ascii_only ascii_only rule_unused
       (txt "let " ++ txt "unused" ++ txt "Counter" ++ txt " = 1;")
     = apply_rule ascii_only ascii_only rule_unused (txt "let ")
       ++ txt "_" ++ txt "Counter"
       ++ apply_rule ascii_only ascii_only rule_unused (txt " = 1;").
Proof.
  split; [vm_compute; reflexivity|].
  split; [discriminate|].
  split; [vm_compute; reflexivity|].
  split; [vm_compute; reflexivity|].
  apply (proj1 (unused_prefixed ascii_only ascii_only)
           (txt "let ") (txt "Counter") (txt " = 1;"));
    [vm_compute; reflexivity|discriminate|vm_compute; reflexivity
    |vm_compute; reflexivity].
Defined.

Lemma empty_object_witness :
  forallb (is_space ascii_only) (txt " ") = true
  /\ forallb (is_space ascii_only) [] = true
  /\ apply_rule ascii_only ascii_only rule_empty_object
       (txt "x; " ++ empty_object_test (txt " ") [] [] (txt " ")
        ++ txt " { doThing(); }")
     = apply_rule ascii_only ascii_only rule_empty_object (txt "x; ")
       ++ txt "if (false)"
       ++ apply_rule ascii_only ascii_only rule_empty_object
            (txt " { doThing(); }").
Proof.
  split; [vm_compute; reflexivity|].
  split; [reflexivity|].
  apply (proj1 (empty_object_rewritten ascii_only ascii_only)
           (txt "x; ") (txt " { doThing(); }") (txt " ") [] [] (txt " "));
    vm_compute; reflexivity.
Defined.


Lemma failed_read_witness :
  w_files sample_world "missing.js"%string
  = Bad (OSError "[Errno 2] No such file or directory: 'missing.js'")
  /\ fix_file ascii_only ascii_only "missing.js" sample_world
     = (Some (OSError "[Errno 2] No such file or directory: 'missing.js'"),
        log (ERead "missing.js") sample_world).
Proof.
  assert (H : w_files sample_world "missing.js"%string
              = Bad (OSError
                       "[Errno 2] No such file or directory: 'missing.js'"))
    by (vm_compute; reflexivity).
  split; [exact H|].
  exact (proj1 (proj1 (failed_read_leaves_file ascii_only ascii_only)
                  "missing.js"%string sample_world _ H)).
Defined.

(** * More theorems at concrete texts *)



Lemma fixed_reports_are_writes_witness :
  exists evs,
    w_trace
      (snd (main ascii_only ascii_only
              ["a.js"; "missing.js"; "./a.js"]%string sample_world))
    = evs ++ w_trace sample_world
    /\ filter (String.prefix "Fixed: ") (attempted evs)
       = List.map (fun pc => ("Fixed: " ++ fst pc)%string) (writes evs)
    /\ length (printed evs) <= length (reads evs)
    /\ length (reads evs)
       <= length ["a.js"; "missing.js"; "./a.js"]%string.
Proof.
  exact (fixed_reports_are_writes ascii_only ascii_only
           ["a.js"; "missing.js"; "./a.js"]%string sample_world).
Defined.


Lemma settled_rules_idempotent_witness :
  In rule_console settled_rules
  /\ apply_rule ascii_only ascii_only rule_console
       (apply_rule ascii_only ascii_only rule_console
          (txt "console.log(console.log(1));"))
     = apply_rule ascii_only ascii_only rule_console
         (txt "console.log(console.log(1));").
Proof.
  assert (H : In rule_console settled_rules)
    by (do 3 right; left; reflexivity).
  split; [exact H|].
  exact (proj1 (settled_rules_idempotent ascii_only ascii_only)
           rule_console (txt "console.log(console.log(1));") H).
Defined.

Lemma no_token_no_change_witness :
  forallb (fun tok => negb (occurs tok (txt "let x = a || b;")))
    trigger_tokens = true
  /\ fix_text ascii_only ascii_only (txt "let x = a || b;")
     = txt "let x = a || b;".
Proof.
  split; [vm_compute; reflexivity|].
  apply (no_token_no_change ascii_only ascii_only (txt "let x = a || b;")).
  vm_compute; reflexivity.
Defined.

Lemma rules_match_nonempty_witness :
  In rule_console rules
  /\ match_at ascii_only ascii_only (fst rule_console) None
       (txt "console.log(1)") = Some (12, [])
  /\ 0 < 12.
Proof.
  assert (H : In rule_console rules)
    by (do 9 right; left; reflexivity).
  assert (M : match_at ascii_only ascii_only (fst rule_console) None
                (txt "console.log(1)") = Some (12, []))
    by (vm_compute; reflexivity).
  split; [exact H|]. split; [exact M|].
  exact (rules_match_nonempty ascii_only ascii_only rule_console None
           (txt "console.log(1)") 12 [] H M).
Defined.
